(** * Reactivity core, async components and keep-alive: a shallow embedding

    The development follows three source files of the repository:

    - the proxy layer ([reactive], [readonly], [createReactiveObject],
      [isReactive], [isReadonly], [isShallow], [isProxy], [toRaw],
      [markRaw]), in [Module Reactive];
    - the async component wrapper ([defineAsyncComponent]: [load], [retry],
      the timers and the render closure of [setup]), in
      [Module AsyncComponent];
    - the keep-alive component ([KeepAliveImpl.setup]: the render closure,
      [cacheSubtree], [pruneCache], [pruneCacheEntry], [matches],
      [resetShapeFlag], [getInnerChild]), in [Module KeepAlive], and the
      rest of that file (the [onBeforeUnmount] callback, [onActivated],
      [onDeactivated], [registerKeepAliveHook], [injectToKeepAliveRoot] and
      the effects queued by [activate] and [deactivate]), in
      [Module KeepAliveLifecycle].

    JavaScript objects live in an explicit store and are named by their
    location; reference equality is equality of locations. *)

From stdpp Require Import gmap strings list.
From Stdlib Require Import ZArith Lia Ascii.

#[global] Set Warnings "-register-all".

Open Scope Z_scope.
Open Scope nat_scope.

(** ** Outcomes of a JavaScript call

    A call returns a value, throws a [TypeError], or (for the two functions
    that the source writes recursively) is cut off by the fuel of the model. *)

Inductive result (A : Type) : Type :=
  | Ok (a : A)
  | TypeError
  | OutOfFuel.

Arguments Ok {A} a.
Arguments TypeError {A}.
Arguments OutOfFuel {A}.

#[global] Instance result_ret : MRet result := λ A a, Ok a.
#[global] Instance result_bind : MBind result := λ A B f m,
  match m with
  | Ok a => f a
  | TypeError => TypeError
  | OutOfFuel => OutOfFuel
  end.

Module Reactive.

(** *** Values and the store *)

Definition loc := nat.

Inductive value : Type :=
  | VUndefined
  | VNull
  | VBool (b : bool)
  | VNum (n : Z)
  | VNaN
  | VStr (s : string)
  | VSymbol (id : nat)
  | VRef (l : loc).

#[global] Instance value_eq_dec : EqDecision value.
Proof. solve_decision. Defined.

(** JavaScript truthiness, as used by [&&], [||], [!] and [if]. *)
Definition truthy (v : value) : bool :=
  match v with
  | VUndefined | VNull | VNaN => false
  | VBool b => b
  | VNum n => negb (n =? 0)%Z
  | VStr s => negb (String.eqb s EmptyString)
  | VSymbol _ | VRef _ => true
  end.

(** Modelled from the spec: [isObject] of [@vue/shared] is not among the
    sources.  It holds of a "structured value", that is, of an object and of
    no primitive ([val !== null && typeof val === 'object']). *)
Definition isObject (v : value) : bool :=
  match v with
  | VRef _ => true
  | _ => false
  end.

(** [const enum ReactiveFlags]. *)
Inductive ReactiveFlags : Type :=
  | SKIP
  | IS_REACTIVE
  | IS_READONLY
  | IS_SHALLOW
  | RAW.

(** [interface Target]: the five optional flag properties, together with the
    two facts of an ordinary object that [getTargetType] asks for: its
    [toRawType] string and whether it is extensible. *)
Record Target : Type := {
  v_skip : option bool;
  v_isReactive : option bool;
  v_isReadonly : option bool;
  v_isShallow : option bool;
  v_raw : option value;
  rawType : string;
  extensible : bool
}.

(** The eight handler tables imported from [./baseHandlers] and
    [./collectionHandlers]. *)
Inductive ProxyHandler : Type :=
  | mutableHandlers
  | readonlyHandlers
  | shallowReactiveHandlers
  | shallowReadonlyHandlers
  | mutableCollectionHandlers
  | readonlyCollectionHandlers
  | shallowCollectionHandlers
  | shallowReadonlyCollectionHandlers.

(** Modelled from the spec: the handler tables themselves are not part of
    the sources at hand.  A proxy "carries four hidden boolean/identity
    flags once wrapped: isReactive, isReadonly, isShallow, and a
    back-reference raw to the unwrapped original"; the kinds vary along
    mutability and depth.  [handler_readonly] and [handler_shallow] give the
    two axes of each table. *)
Definition handler_readonly (h : ProxyHandler) : bool :=
  match h with
  | readonlyHandlers | shallowReadonlyHandlers
  | readonlyCollectionHandlers | shallowReadonlyCollectionHandlers => true
  | _ => false
  end.

Definition handler_shallow (h : ProxyHandler) : bool :=
  match h with
  | shallowReactiveHandlers | shallowReadonlyHandlers
  | shallowCollectionHandlers | shallowReadonlyCollectionHandlers => true
  | _ => false
  end.

(** An object of the store is an ordinary object or [new Proxy(target, h)]. *)
Inductive HeapObj : Type :=
  | ORaw (t : Target)
  | OProxy (target : loc) (h : ProxyHandler).

(** The store lists the objects newest first; the object at the head of a
    store [o :: hp] has location [length hp], so locations are stable under
    allocation. *)
Definition Heap := list HeapObj.

Fixpoint heap_lookup (hp : Heap) (l : loc) : option HeapObj :=
  match hp with
  | [] => None
  | o :: hp' => if decide (l = length hp') then Some o else heap_lookup hp' l
  end.

(** The ordinary object that operations without a trap end up at: a proxy
    forwards them to its target, which was allocated before it. *)
Fixpoint backing (hp : Heap) (l : loc) : option Target :=
  match hp with
  | [] => None
  | o :: hp' =>
      if decide (l = length hp') then
        match o with
        | ORaw t => Some t
        | OProxy tl _ => backing hp' tl
        end
      else backing hp' l
  end.

(** Modelled from the spec: [def] of [@vue/shared] is not among the sources;
    [markRaw] "sets the permanent skip flag".  It is
    [Object.defineProperty(obj, '__v_skip', {value: true, ...})], which lands
    on the ordinary object behind a proxy and fails ([None]) when that object
    is not extensible and has no such property yet. *)
Definition define_skip (t : Target) : option Target :=
  if extensible t || bool_decide (is_Some (v_skip t)) then
    Some {| v_skip := Some true;
            v_isReactive := v_isReactive t;
            v_isReadonly := v_isReadonly t;
            v_isShallow := v_isShallow t;
            v_raw := v_raw t;
            rawType := rawType t;
            extensible := extensible t |}
  else None.

Fixpoint heap_define_skip (hp : Heap) (l : loc) : option Heap :=
  match hp with
  | [] => None
  | o :: hp' =>
      if decide (l = length hp') then
        match o with
        | ORaw t => t' ← define_skip t; Some (ORaw t' :: hp')
        | OProxy tl _ => hp'' ← heap_define_skip hp' tl; Some (o :: hp'')
        end
      else hp'' ← heap_define_skip hp' l; Some (o :: hp'')
  end.

Definition of_flag (b : option bool) : value :=
  match b with
  | Some b => VBool b
  | None => VUndefined
  end.

(** Reading a flag property of an ordinary object. *)
Definition own_flag (t : Target) (k : ReactiveFlags) : value :=
  match k with
  | SKIP => of_flag (v_skip t)
  | IS_REACTIVE => of_flag (v_isReactive t)
  | IS_READONLY => of_flag (v_isReadonly t)
  | IS_SHALLOW => of_flag (v_isShallow t)
  | RAW => default VUndefined (v_raw t)
  end.

(** Modelled from the spec: the [get] trap of the handler tables, for the
    flag keys.  The four hidden flags are answered by the trap; any other
    key (here [SKIP]) is read from the target. *)
Definition trap_get (hp : Heap) (target : loc) (h : ProxyHandler)
    (k : ReactiveFlags) : value :=
  match k with
  | IS_REACTIVE => VBool (negb (handler_readonly h))
  | IS_READONLY => VBool (handler_readonly h)
  | IS_SHALLOW => VBool (handler_shallow h)
  | RAW => VRef target
  | SKIP =>
      match backing hp target with
      | Some t => own_flag t SKIP
      | None => VUndefined
      end
  end.

(** [v[k]]: a [TypeError] on [null] and [undefined], [undefined] on the
    other primitives (their prototypes carry no flag). *)
Definition get_prop (hp : Heap) (v : value) (k : ReactiveFlags) : result value :=
  match v with
  | VUndefined | VNull => TypeError
  | VRef l =>
      match heap_lookup hp l with
      | Some (ORaw t) => Ok (own_flag t k)
      | Some (OProxy tl h) => Ok (trap_get hp tl h k)
      | None => Ok VUndefined
      end
  | _ => Ok VUndefined
  end.

(** [Object.isExtensible(v)], and [toRawType(v)] of [@vue/shared] (the name
    in [Object.prototype.toString.call(v)]); neither has a trap in the
    handler tables, so a proxy answers for its target. *)
Definition isExtensible (hp : Heap) (v : value) : bool :=
  match v with
  | VRef l =>
      match backing hp l with
      | Some t => extensible t
      | None => false
      end
  | _ => false
  end.

Definition toRawType (hp : Heap) (v : value) : string :=
  match v with
  | VRef l =>
      match backing hp l with
      | Some t => rawType t
      | None => "Object"
      end
  | VUndefined => "Undefined"
  | VNull => "Null"
  | VBool _ => "Boolean"
  | VNum _ | VNaN => "Number"
  | VStr _ => "String"
  | VSymbol _ => "Symbol"
  end.

(** *** The four identity maps and the state of the module *)

Record State : Type := {
  heap : Heap;
  reactiveMap : gmap loc value;
  shallowReactiveMap : gmap loc value;
  readonlyMap : gmap loc value;
  shallowReadonlyMap : gmap loc value;
  (* arguments of the calls to [console.warn], newest first *)
  console : list value
}.

(** A reference to one of the four [WeakMap]s, as passed to
    [createReactiveObject]. *)
Inductive ProxyMap : Type :=
  | the_reactiveMap
  | the_shallowReactiveMap
  | the_readonlyMap
  | the_shallowReadonlyMap.

#[global] Instance ProxyMap_eq_dec : EqDecision ProxyMap.
Proof. solve_decision. Defined.

Definition proxyMap_of (σ : State) (m : ProxyMap) : gmap loc value :=
  match m with
  | the_reactiveMap => reactiveMap σ
  | the_shallowReactiveMap => shallowReactiveMap σ
  | the_readonlyMap => readonlyMap σ
  | the_shallowReadonlyMap => shallowReadonlyMap σ
  end.

(** [proxyMap.get(key)]. *)
Definition weakmap_get (σ : State) (m : ProxyMap) (key : value) : value :=
  match key with
  | VRef l => default VUndefined (proxyMap_of σ m !! l)
  | _ => VUndefined
  end.

Definition set_heap (σ : State) (hp : Heap) : State :=
  {| heap := hp;
     reactiveMap := reactiveMap σ;
     shallowReactiveMap := shallowReactiveMap σ;
     readonlyMap := readonlyMap σ;
     shallowReadonlyMap := shallowReadonlyMap σ;
     console := console σ |}.

(** [proxyMap.set(key, v)] for an object key. *)
Definition weakmap_set (σ : State) (m : ProxyMap) (key : loc) (v : value) : State :=
  {| heap := heap σ;
     reactiveMap :=
       match m with the_reactiveMap => <[key := v]> (reactiveMap σ) | _ => reactiveMap σ end;
     shallowReactiveMap :=
       match m with
       | the_shallowReactiveMap => <[key := v]> (shallowReactiveMap σ)
       | _ => shallowReactiveMap σ
       end;
     readonlyMap :=
       match m with the_readonlyMap => <[key := v]> (readonlyMap σ) | _ => readonlyMap σ end;
     shallowReadonlyMap :=
       match m with
       | the_shallowReadonlyMap => <[key := v]> (shallowReadonlyMap σ)
       | _ => shallowReadonlyMap σ
       end;
     console := console σ |}.

Definition warn (σ : State) (v : value) : State :=
  {| heap := heap σ;
     reactiveMap := reactiveMap σ;
     shallowReactiveMap := shallowReactiveMap σ;
     readonlyMap := readonlyMap σ;
     shallowReadonlyMap := shallowReadonlyMap σ;
     console := v :: console σ |}.

(** [new Proxy(target, h)]: the new object's location and the new state. *)
Definition new_Proxy (σ : State) (target : loc) (h : ProxyHandler) : loc * State :=
  (length (heap σ), set_heap σ (OProxy target h :: heap σ)).

(** *** Classification of targets *)

Inductive TargetType : Type :=
  | INVALID
  | COMMON
  | COLLECTION.

#[global] Instance TargetType_eq_dec : EqDecision TargetType.
Proof. solve_decision. Defined.

Definition targetTypeMap (rawType : string) : TargetType :=
  if String.eqb rawType "Object" then COMMON
  else if String.eqb rawType "Array" then COMMON
  else if String.eqb rawType "Map" then COLLECTION
  else if String.eqb rawType "Set" then COLLECTION
  else if String.eqb rawType "WeakMap" then COLLECTION
  else if String.eqb rawType "WeakSet" then COLLECTION
  else INVALID.

Definition getTargetType (hp : Heap) (v : value) : result TargetType :=
  skip ← get_prop hp v SKIP;
  mret (if truthy skip || negb (isExtensible hp v) then INVALID
        else targetTypeMap (toRawType hp v)).

(** *** The queries *)

(** [!!(value && value[k])]. *)
Definition flag_query (hp : Heap) (v : value) (k : ReactiveFlags) : result bool :=
  if truthy v then
    f ← get_prop hp v k; mret (truthy f)
  else mret false.

Definition isReadonly (σ : State) (v : value) : result bool :=
  flag_query (heap σ) v IS_READONLY.

Definition isShallow (σ : State) (v : value) : result bool :=
  flag_query (heap σ) v IS_SHALLOW.

Fixpoint isReactive (fuel : nat) (σ : State) (v : value) : result bool :=
  match fuel with
  | 0 => OutOfFuel
  | S fuel' =>
      ro ← isReadonly σ v;
      if ro : bool then
        raw ← get_prop (heap σ) v RAW;
        isReactive fuel' σ raw
      else flag_query (heap σ) v IS_REACTIVE
  end.

Definition isProxy (fuel : nat) (σ : State) (v : value) : result bool :=
  r ← isReactive fuel σ v;
  if r : bool then mret true else isReadonly σ v.

Fixpoint toRaw (fuel : nat) (σ : State) (observed : value) : result value :=
  match fuel with
  | 0 => OutOfFuel
  | S fuel' =>
      raw ← (if truthy observed then get_prop (heap σ) observed RAW
             else mret observed);
      if truthy raw then toRaw fuel' σ raw else mret observed
  end.

(** *** Wrapping *)

Section Wrap.

(** The build flag [__DEV__]. *)
Variable DEV : bool.

Definition createReactiveObject (target : value) (isReadonly : bool)
    (baseHandlers collectionHandlers : ProxyHandler) (proxyMap : ProxyMap)
    (σ : State) : result (value * State) :=
  if negb (isObject target) then
    mret (target, if DEV then warn σ target else σ)
  else
    raw ← get_prop (heap σ) target RAW;
    already ←
      (if truthy raw then
         if isReadonly then
           r ← get_prop (heap σ) target IS_REACTIVE; mret (negb (truthy r))
         else mret true
       else mret false);
    if already : bool then mret (target, σ)
    else
      let existingProxy := weakmap_get σ proxyMap target in
      if truthy existingProxy then mret (existingProxy, σ)
      else
        targetType ← getTargetType (heap σ) target;
        if decide (targetType = INVALID) then mret (target, σ)
        else
          match target with
          | VRef l =>
              let '(p, σ1) :=
                new_Proxy σ l
                  (if decide (targetType = COLLECTION) then collectionHandlers
                   else baseHandlers) in
              mret (VRef p, weakmap_set σ1 proxyMap l (VRef p))
          | _ => TypeError
          end.

Definition reactive (target : value) (σ : State) : result (value * State) :=
  ro ← isReadonly σ target;
  if ro : bool then mret (target, σ)
  else createReactiveObject target false mutableHandlers
         mutableCollectionHandlers the_reactiveMap σ.

Definition shallowReactive (target : value) (σ : State) : result (value * State) :=
  createReactiveObject target false shallowReactiveHandlers
    shallowCollectionHandlers the_shallowReactiveMap σ.

Definition readonly (target : value) (σ : State) : result (value * State) :=
  createReactiveObject target true readonlyHandlers
    readonlyCollectionHandlers the_readonlyMap σ.

Definition shallowReadonly (target : value) (σ : State) : result (value * State) :=
  createReactiveObject target true shallowReadonlyHandlers
    shallowReadonlyCollectionHandlers the_shallowReadonlyMap σ.

(** The four proxy kinds and the spec's [wrap(target, kind)]. *)
Inductive Kind : Type :=
  | KReactive
  | KShallowReactive
  | KReadonly
  | KShallowReadonly.

Definition wrap (k : Kind) : value → State → result (value * State) :=
  match k with
  | KReactive => reactive
  | KShallowReactive => shallowReactive
  | KReadonly => readonly
  | KShallowReadonly => shallowReadonly
  end.

Definition kind_map (k : Kind) : ProxyMap :=
  match k with
  | KReactive => the_reactiveMap
  | KShallowReactive => the_shallowReactiveMap
  | KReadonly => the_readonlyMap
  | KShallowReadonly => the_shallowReadonlyMap
  end.

Definition kind_readonly (k : Kind) : bool :=
  match k with
  | KReadonly | KShallowReadonly => true
  | _ => false
  end.

(** [markRaw]: [def(value, '__v_skip', true)], then the value itself. *)
Definition markRaw (v : value) (σ : State) : result (value * State) :=
  match v with
  | VRef l =>
      match heap_define_skip (heap σ) l with
      | Some hp => mret (v, set_heap σ hp)
      | None => TypeError
      end
  | _ => TypeError
  end.

Definition toReactive (v : value) (σ : State) : result (value * State) :=
  if isObject v then reactive v σ else mret (v, σ).

Definition toReadonly (v : value) (σ : State) : result (value * State) :=
  if isObject v then readonly v σ else mret (v, σ).

End Wrap.

(** *** Well-formed states

    An ordinary object answers none of the four hidden flags: only the
    handler tables do. *)
Definition unflagged (t : Target) : Prop :=
  ∀ k, k ≠ SKIP → truthy (own_flag t k) = false.

Definition is_proxy (hp : Heap) (v : value) : Prop :=
  ∃ l tl h, v = VRef l ∧ heap_lookup hp l = Some (OProxy tl h).

Definition map_readonly (m : ProxyMap) : bool :=
  match m with
  | the_readonlyMap | the_shallowReadonlyMap => true
  | _ => false
  end.

(** A value the wrap operation accepts for interception: an object that
    [getTargetType] does not classify as [INVALID]. *)
Definition eligible (hp : Heap) (v : value) : Prop :=
  isObject v = true ∧ ∃ ty, getTargetType hp v = Ok ty ∧ ty ≠ INVALID.

(** The states the module can be in: ordinary objects are unflagged, the
    target of a proxy is an ordinary object or, for a readonly proxy, a
    mutable proxy, and every entry of an identity map sends a target to a
    proxy of that target. *)
Record inv (σ : State) : Prop := {
  inv_raw : ∀ l t, heap_lookup (heap σ) l = Some (ORaw t) → unflagged t;
  inv_proxy : ∀ l tl h, heap_lookup (heap σ) l = Some (OProxy tl h) →
    match heap_lookup (heap σ) tl with
    | Some (ORaw _) => True
    | Some (OProxy _ h') => handler_readonly h = true ∧ handler_readonly h' = false
    | None => False
    end;
  inv_map : ∀ m l v, proxyMap_of σ m !! l = Some v →
    ∃ p h, v = VRef p ∧ heap_lookup (heap σ) p = Some (OProxy l h) ∧
           handler_readonly h = map_readonly m
}.

(** A state before any wrapping: some ordinary objects, empty maps. *)
Definition initial (objs : list Target) : State :=
  {| heap := ORaw <$> objs;
     reactiveMap := ∅;
     shallowReactiveMap := ∅;
     readonlyMap := ∅;
     shallowReadonlyMap := ∅;
     console := [] |}.

(** The allowed underlying types. *)
Definition allowedType (s : string) : Prop :=
  s ∈ ["Object"; "Array"; "Map"; "Set"; "WeakMap"; "WeakSet"].

(** A plain object literal [{}]. *)
Definition plainObject : Target :=
  {| v_skip := None; v_isReactive := None; v_isReadonly := None;
     v_isShallow := None; v_raw := None; rawType := "Object";
     extensible := true |}.

End Reactive.

(** ** The async component wrapper *)

Module AsyncComponent.

(** A resolved component definition, by identity. *)
Definition Component := nat.

Inductive Error : Type :=
  | UserError (id : nat)
  (* [new Error(String(err))] for a rejection that is not an [Error] *)
  | StringError (s : string)
  (* [new Error(`Async component timed out after ${timeout}ms.`)] *)
  | TimeoutError (ms : nat).

(** What a loader promise rejects with. *)
Inductive Reason : Type :=
  | RError (e : Error)
  | RValue (s : string).

(** [err instanceof Error ? err : new Error(String(err))]. *)
Definition toError (r : Reason) : Error :=
  match r with
  | RError e => e
  | RValue s => StringError s
  end.

(** [interface AsyncComponentOptions]. The [loader] and the body of
    [onError] are the user's: the model counts the calls of the first and
    records the calls of the second, and what they do afterwards arrives as
    events. *)
Record AsyncComponentOptions : Type := {
  loadingComponent : option Component;
  errorComponent : option Component;
  delay : option nat;
  timeout : option nat;
  onError : bool
}.

(** The promises that [load] makes, by identity. *)
Definition Promise := nat.

(** Where the chain [loader().catch(..).then(..)] of one request stands. *)
Inductive Phase : Type :=
  (* the loader's promise has not settled *)
  | Loading
  (* the loader rejected and [userOnError] holds [userRetry]/[userFail] *)
  | AwaitingUser (e : Error)
  (* [userRetry] resolved the request with the promise [retry()] returned *)
  | Forwarded (p : Promise)
  | Fulfilled (c : Component)
  | Rejected (e : Error).

(** The refs and timers of one [setup()] call that found nothing resolved. *)
Record Tracking : Type := {
  loaded : bool;
  error : option Error;
  delayed : bool;
  (* the promise [load()] returned to this setup *)
  request : Promise;
  (* the two [setTimeout] timers, while they have not fired *)
  delayTimer : bool;
  timeoutTimer : bool;
  (* the [.then]/[.catch] of this setup has run *)
  notified : bool;
  (* [instance.parent && isKeepAlive(instance.parent.vnode)] *)
  parentKeepAlive : bool
}.

Inductive Instance : Type :=
  (* [setup] found [resolvedComp] and returned the short render function *)
  | Resolved
  | Tracked (t : Tracking).

Record State : Type := {
  pendingRequest : option Promise;
  resolvedComp : option Component;
  retries : nat;
  (* the requests made so far; a promise is its index *)
  requests : list Phase;
  (* how many times [loader()] was called *)
  loaderCalls : nat;
  instances : list Instance;
  (* the calls [handleError(err, instance, ASYNC_COMPONENT_LOADER, throwInDev)] *)
  reported : list (Error * nat * bool);
  (* the calls [userOnError(err, userRetry, userFail, attempts)] *)
  userOnErrorCalls : list (Error * Promise * nat);
  (* the calls [queueJob(instance.parent.update)] *)
  queuedJobs : list nat
}.

Definition initial : State :=
  {| pendingRequest := None; resolvedComp := None; retries := 0;
     requests := []; loaderCalls := 0; instances := [];
     reported := []; userOnErrorCalls := []; queuedJobs := [] |}.

Definition set_pendingRequest (v : option Promise) (s : State) : State :=
  {| pendingRequest := v; resolvedComp := resolvedComp s; retries := retries s;
     requests := requests s; loaderCalls := loaderCalls s;
     instances := instances s; reported := reported s;
     userOnErrorCalls := userOnErrorCalls s; queuedJobs := queuedJobs s |}.

Definition set_resolvedComp (v : option Component) (s : State) : State :=
  {| pendingRequest := pendingRequest s; resolvedComp := v; retries := retries s;
     requests := requests s; loaderCalls := loaderCalls s;
     instances := instances s; reported := reported s;
     userOnErrorCalls := userOnErrorCalls s; queuedJobs := queuedJobs s |}.

Definition set_retries (v : nat) (s : State) : State :=
  {| pendingRequest := pendingRequest s; resolvedComp := resolvedComp s; retries := v;
     requests := requests s; loaderCalls := loaderCalls s;
     instances := instances s; reported := reported s;
     userOnErrorCalls := userOnErrorCalls s; queuedJobs := queuedJobs s |}.

Definition set_requests (v : list Phase) (s : State) : State :=
  {| pendingRequest := pendingRequest s; resolvedComp := resolvedComp s;
     retries := retries s; requests := v; loaderCalls := loaderCalls s;
     instances := instances s; reported := reported s;
     userOnErrorCalls := userOnErrorCalls s; queuedJobs := queuedJobs s |}.

Definition set_loaderCalls (v : nat) (s : State) : State :=
  {| pendingRequest := pendingRequest s; resolvedComp := resolvedComp s;
     retries := retries s; requests := requests s; loaderCalls := v;
     instances := instances s; reported := reported s;
     userOnErrorCalls := userOnErrorCalls s; queuedJobs := queuedJobs s |}.

Definition set_instances (v : list Instance) (s : State) : State :=
  {| pendingRequest := pendingRequest s; resolvedComp := resolvedComp s;
     retries := retries s; requests := requests s; loaderCalls := loaderCalls s;
     instances := v; reported := reported s;
     userOnErrorCalls := userOnErrorCalls s; queuedJobs := queuedJobs s |}.

Definition set_reported (v : list (Error * nat * bool)) (s : State) : State :=
  {| pendingRequest := pendingRequest s; resolvedComp := resolvedComp s;
     retries := retries s; requests := requests s; loaderCalls := loaderCalls s;
     instances := instances s; reported := v;
     userOnErrorCalls := userOnErrorCalls s; queuedJobs := queuedJobs s |}.

Definition set_userOnErrorCalls (v : list (Error * Promise * nat)) (s : State) : State :=
  {| pendingRequest := pendingRequest s; resolvedComp := resolvedComp s;
     retries := retries s; requests := requests s; loaderCalls := loaderCalls s;
     instances := instances s; reported := reported s;
     userOnErrorCalls := v; queuedJobs := queuedJobs s |}.

Definition set_queuedJobs (v : list nat) (s : State) : State :=
  {| pendingRequest := pendingRequest s; resolvedComp := resolvedComp s;
     retries := retries s; requests := requests s; loaderCalls := loaderCalls s;
     instances := instances s; reported := reported s;
     userOnErrorCalls := userOnErrorCalls s; queuedJobs := v |}.

(** What the render function of the wrapper returns. *)
Inductive Rendered : Type :=
  (* [createInnerComp(resolvedComp, instance)] *)
  | InnerComp (c : Component)
  (* [createVNode(errorComponent, { error: error.value })] *)
  | ErrorVNode (c : Component) (e : Error)
  (* [createVNode(loadingComponent)] *)
  | LoadingVNode (c : Component)
  (* the render function falls through and returns [undefined] *)
  | Nothing.

Section Wrapper.

(** The options [defineAsyncComponent] was called with. *)
Variable source : AsyncComponentOptions.

(** The build flag [__DEV__]. *)
Variable DEV : bool.

(** [delay = 200] in the destructuring. *)
Definition the_delay : nat := default 200 (delay source).

(** [load]: the pending request if there is one, else a new request, for
    which [loader()] is called. *)
Definition load (s : State) : Promise * State :=
  match pendingRequest s with
  | Some p => (p, s)
  | None =>
      let p := length (requests s) in
      (p, set_pendingRequest (Some p)
            (set_requests (requests s ++ [Loading])
               (set_loaderCalls (S (loaderCalls s)) s)))
  end.

Definition retry (s : State) : Promise * State :=
  load (set_pendingRequest None (set_retries (S (retries s)) s)).

(** The [.catch] callback of the request [p], run when its loader promise
    rejects with [r]. *)
Definition loader_catch (p : Promise) (r : Reason) (s : State) : State :=
  let err := toError r in
  if onError source then
    set_userOnErrorCalls ((err, p, retries s + 1) :: userOnErrorCalls s)
      (set_requests (<[p := AwaitingUser err]> (requests s)) s)
  else set_requests (<[p := Rejected err]> (requests s)) s.

(** The [.then] callback of the request [p], run with the component the
    chain before it produced. *)
Definition loader_then (p : Promise) (comp : Component) (s : State) : State :=
  set_requests (<[p := Fulfilled comp]> (requests s))
    (set_resolvedComp (Some comp) s).

(** [userRetry = () => resolve(retry())], handed to [userOnError] by the
    request [p]. Only the first [resolve] or [reject] of a promise counts. *)
Definition userRetry (p : Promise) (s : State) : State :=
  let '(p', s1) := retry s in
  match requests s1 !! p with
  | Some (AwaitingUser _) => set_requests (<[p := Forwarded p']> (requests s1)) s1
  | _ => s1
  end.

(** [userFail = () => reject(err)]. *)
Definition userFail (p : Promise) (s : State) : State :=
  match requests s !! p with
  | Some (AwaitingUser e) => set_requests (<[p := Rejected e]> (requests s)) s
  | _ => s
  end.

(** A forwarded request whose target rejected rejects with it (the
    [.then] callback is skipped). *)
Definition forward_reject (p : Promise) (e : Error) (s : State) : State :=
  set_requests (<[p := Rejected e]> (requests s)) s.

(** Modelled from the spec: [handleError] of [./errorHandling] is not among
    the sources; it is the "error-reporting contract consumed", whose last
    argument is "a severity flag indicating whether the active
    error-component should suppress a hard failure".  The call is recorded;
    it is a hard failure, a throw, when the flag is set in a development
    build (the source passes [!errorComponent]: "do not throw in dev if user
    provided error component"). *)
Definition handleError_throws (throwInDev : bool) : bool := DEV && throwInDev.

(** [onError] of the instance [i]: the state it leaves, whether it returns
    or throws. *)
Definition instance_onError (i : nat) (err : Error) (s : State) : State :=
  set_reported ((err, i, negb (bool_decide (is_Some (errorComponent source)))) :: reported s)
    (set_pendingRequest None s).

(** Whether [onError] throws: the call of [handleError] is its last
    statement. *)
Definition onError_throws : bool :=
  handleError_throws (negb (bool_decide (is_Some (errorComponent source)))).

Definition update_instance (i : nat) (f : Tracking → Tracking) (s : State) : State :=
  match instances s !! i with
  | Some (Tracked t) => set_instances (<[i := Tracked (f t)]> (instances s)) s
  | _ => s
  end.

Definition set_loaded (v : bool) (t : Tracking) : Tracking :=
  {| loaded := v; error := error t; delayed := delayed t; request := request t;
     delayTimer := delayTimer t; timeoutTimer := timeoutTimer t;
     notified := notified t; parentKeepAlive := parentKeepAlive t |}.

Definition set_error (v : option Error) (t : Tracking) : Tracking :=
  {| loaded := loaded t; error := v; delayed := delayed t; request := request t;
     delayTimer := delayTimer t; timeoutTimer := timeoutTimer t;
     notified := notified t; parentKeepAlive := parentKeepAlive t |}.

Definition set_delayed (v : bool) (t : Tracking) : Tracking :=
  {| loaded := loaded t; error := error t; delayed := v; request := request t;
     delayTimer := delayTimer t; timeoutTimer := timeoutTimer t;
     notified := notified t; parentKeepAlive := parentKeepAlive t |}.

Definition set_delayTimer (v : bool) (t : Tracking) : Tracking :=
  {| loaded := loaded t; error := error t; delayed := delayed t; request := request t;
     delayTimer := v; timeoutTimer := timeoutTimer t;
     notified := notified t; parentKeepAlive := parentKeepAlive t |}.

Definition set_timeoutTimer (v : bool) (t : Tracking) : Tracking :=
  {| loaded := loaded t; error := error t; delayed := delayed t; request := request t;
     delayTimer := delayTimer t; timeoutTimer := v;
     notified := notified t; parentKeepAlive := parentKeepAlive t |}.

Definition set_notified (v : bool) (t : Tracking) : Tracking :=
  {| loaded := loaded t; error := error t; delayed := delayed t; request := request t;
     delayTimer := delayTimer t; timeoutTimer := timeoutTimer t;
     notified := v; parentKeepAlive := parentKeepAlive t |}.

(** [setup()] of a new instance of the wrapper; the instance is the index of
    its entry. *)
Definition setup (parentIsKeepAlive : bool) (s : State) : State :=
  match resolvedComp s with
  | Some _ => set_instances (instances s ++ [Resolved]) s
  | None =>
      let '(p, s1) := load s in
      set_instances
        (instances s1 ++
         [Tracked {| loaded := false; error := None;
                     delayed := negb (the_delay =? 0);
                     request := p;
                     delayTimer := negb (the_delay =? 0);
                     timeoutTimer := bool_decide (is_Some (timeout source));
                     notified := false;
                     parentKeepAlive := parentIsKeepAlive |}]) s1
  end.

(** The callback of [setTimeout(.., delay)]. *)
Definition delay_callback (i : nat) (s : State) : State :=
  update_instance i (set_delayed false) s.

(** The callback of [setTimeout(.., timeout)].  When [onError] throws, the
    exception leaves the callback and [error.value = err] is not reached. *)
Definition timeout_callback (i : nat) (s : State) : State :=
  match instances s !! i, timeout source with
  | Some (Tracked t), Some ms =>
      if negb (loaded t) && negb (bool_decide (is_Some (error t))) then
        let err := TimeoutError ms in
        let s1 := instance_onError i err s in
        if onError_throws then s1
        else update_instance i (set_error (Some err)) s1
      else s
  | _, _ => s
  end.

(** The [.then] callback of [load()] in [setup]. *)
Definition instance_then (i : nat) (s : State) : State :=
  match instances s !! i with
  | Some (Tracked t) =>
      let s1 := update_instance i (set_loaded true) s in
      if parentKeepAlive t then set_queuedJobs (i :: queuedJobs s1) s1 else s1
  | _ => s
  end.

(** The [.catch] callback of [load()] in [setup].  When [onError] throws,
    the promise of the callback rejects and [error.value = err] is not
    reached. *)
Definition instance_catch (i : nat) (err : Error) (s : State) : State :=
  let s1 := instance_onError i err s in
  if onError_throws then s1
  else update_instance i (set_error (Some err)) s1.

(** The render function that [setup] returned to the instance [i]. *)
Definition render (i : nat) (s : State) : Rendered :=
  match instances s !! i with
  | Some Resolved =>
      match resolvedComp s with
      | Some c => InnerComp c
      | None => Nothing
      end
  | Some (Tracked t) =>
      match loaded t, resolvedComp s with
      | true, Some c => InnerComp c
      | _, _ =>
          match error t, errorComponent source with
          | Some e, Some ec => ErrorVNode ec e
          | _, _ =>
              match loadingComponent source with
              | Some lc => if negb (delayed t) then LoadingVNode lc else Nothing
              | None => Nothing
              end
          end
      end
  | None => Nothing
  end.

(** *** What can happen, one callback at a time

    Each step runs one function of the wrapper to completion; the premises
    are those of the JavaScript runtime: a timer fires once, a promise
    callback runs once, after its promise settled. *)
Inductive step : State → State → Prop :=
  | step_load s :
      step s (load s).2
  | step_setup ka s :
      step s (setup ka s)
  | step_loader_resolves p c s :
      requests s !! p = Some Loading →
      step s (loader_then p c s)
  | step_loader_rejects p r s :
      requests s !! p = Some Loading →
      step s (loader_catch p r s)
  | step_userRetry p e s :
      (e, p) ∈ (fst <$> userOnErrorCalls s) →
      step s (userRetry p s)
  | step_userFail p e s :
      (e, p) ∈ (fst <$> userOnErrorCalls s) →
      step s (userFail p s)
  | step_forward_fulfil p p' c s :
      requests s !! p = Some (Forwarded p') →
      requests s !! p' = Some (Fulfilled c) →
      step s (loader_then p c s)
  | step_forward_reject p p' e s :
      requests s !! p = Some (Forwarded p') →
      requests s !! p' = Some (Rejected e) →
      step s (forward_reject p e s)
  | step_delay i t s :
      instances s !! i = Some (Tracked t) →
      delayTimer t = true →
      step s (delay_callback i (update_instance i (set_delayTimer false) s))
  | step_timeout i t s :
      instances s !! i = Some (Tracked t) →
      timeoutTimer t = true →
      step s (timeout_callback i (update_instance i (set_timeoutTimer false) s))
  | step_instance_then i t c s :
      instances s !! i = Some (Tracked t) →
      notified t = false →
      requests s !! request t = Some (Fulfilled c) →
      step s (instance_then i (update_instance i (set_notified true) s))
  | step_instance_catch i t e s :
      instances s !! i = Some (Tracked t) →
      notified t = false →
      requests s !! request t = Some (Rejected e) →
      step s (instance_catch i e (update_instance i (set_notified true) s)).

Definition reachable (s : State) : Prop := rtc step initial s.

(** A request is in flight while its loader promise has not settled. *)
Definition in_flight (s : State) (p : Promise) : Prop :=
  requests s !! p = Some Loading.

End Wrapper.

End AsyncComponent.

(** ** The keep-alive component *)

Module KeepAlive.

(** [type CacheKey = string | number | symbol | ConcreteComponent]; a
    component is named by its identity. *)
Inductive CacheKey : Type :=
  | KString (s : string)
  | KNumber (n : Z)
  | KSymbol (id : nat)
  | KComponent (c : nat).

#[global] Instance CacheKey_eq_dec : EqDecision CacheKey.
Proof. solve_decision. Defined.

(** What keep-alive reads of a component definition: its name, whether it
    is an async wrapper ([__asyncLoader]) and, for a wrapper, the component
    it has resolved to ([__asyncResolved]). *)
Record ComponentOptions : Type := {
  name : option string;
  asyncLoader : bool;
  asyncResolved : option nat
}.

(** The fields of a [VNode] that keep-alive reads or writes; [type], [el],
    [component] and [ssContent] refer to other objects. *)
Record VNode : Type := {
  type : nat;
  key : option CacheKey;
  shapeFlag : Z;
  el : option nat;
  component : option nat;
  ssContent : option nat
}.

(** What [slots.default()] builds: fresh nodes, a suspense node carrying its
    content, or something that is not a node. *)
Inductive VNodeTree : Type :=
  | Node (ty : nat) (k : option CacheKey) (flags : Z)
  (* a node with [ssContent] *)
  | Boundary (ty : nat) (k : option CacheKey) (flags : Z) (content : VNodeTree).

Inductive Child : Type :=
  | CVNode (v : nat)
  | COther.

(** [type MatchPattern = string | RegExp | (string | RegExp)[]]; of a
    regular expression only its [test] matters. *)
Inductive MatchPattern : Type :=
  | PString (s : string)
  | PRegExp (test : string → bool)
  | PArray (ps : list MatchPattern).

(** A [number] of the language, named the way [Number::toString] reads it:
    a finite number other than zero is [s * 10 ^ (n - k)] with its sign,
    where [k] is the number of decimal digits of [s].  So [2] is
    [NDecimal false 2 1], [0.5] is [NDecimal false 5 0] and [1e21] is
    [NDecimal false 1 22]. *)
Inductive Number : Type :=
  | NNaN
  | NInfinity (negative : bool)
  | NZero
  | NDecimal (negative : bool) (s : positive) (n : Z).

(** [max?: number | string]. *)
Inductive MaxProp : Type :=
  | MaxNumber (x : Number)
  | MaxString (s : string).

Record KeepAliveProps : Type := {
  include : option MatchPattern;
  exclude : option MatchPattern;
  max : option MaxProp
}.

(** What the render function returns. *)
Inductive Rendered : Type :=
  | RNull
  | RChildren (cs : list Child)
  | RChild (c : option Child).

(** The closure of [setup] and the objects it reaches. [cache] is a
    JavaScript [Map] and [keys] a [Set]: both keep insertion order. *)
Record State : Type := {
  components : gmap nat ComponentOptions;
  vnodes : gmap nat VNode;
  cache : list (CacheKey * nat);
  keys : list CacheKey;
  current : option nat;
  pendingCacheKey : option CacheKey;
  (* [instance.subTree], written by the renderer after each render *)
  subTree : option nat;
  (* the calls [_unmount(vnode, instance, parentSuspense, true)] *)
  unmounted : list nat;
  (* the calls of [warn] *)
  warnings : list string
}.

Definition initial (cs : gmap nat ComponentOptions) : State :=
  {| components := cs; vnodes := ∅; cache := []; keys := [];
     current := None; pendingCacheKey := None; subTree := None;
     unmounted := []; warnings := [] |}.

Definition set_vnodes (v : gmap nat VNode) (s : State) : State :=
  {| components := components s; vnodes := v; cache := cache s; keys := keys s;
     current := current s; pendingCacheKey := pendingCacheKey s;
     subTree := subTree s; unmounted := unmounted s; warnings := warnings s |}.

Definition set_cache (v : list (CacheKey * nat)) (s : State) : State :=
  {| components := components s; vnodes := vnodes s; cache := v; keys := keys s;
     current := current s; pendingCacheKey := pendingCacheKey s;
     subTree := subTree s; unmounted := unmounted s; warnings := warnings s |}.

Definition set_keys (v : list CacheKey) (s : State) : State :=
  {| components := components s; vnodes := vnodes s; cache := cache s; keys := v;
     current := current s; pendingCacheKey := pendingCacheKey s;
     subTree := subTree s; unmounted := unmounted s; warnings := warnings s |}.

Definition set_current (v : option nat) (s : State) : State :=
  {| components := components s; vnodes := vnodes s; cache := cache s;
     keys := keys s; current := v; pendingCacheKey := pendingCacheKey s;
     subTree := subTree s; unmounted := unmounted s; warnings := warnings s |}.

Definition set_pendingCacheKey (v : option CacheKey) (s : State) : State :=
  {| components := components s; vnodes := vnodes s; cache := cache s;
     keys := keys s; current := current s; pendingCacheKey := v;
     subTree := subTree s; unmounted := unmounted s; warnings := warnings s |}.

Definition set_subTree (v : option nat) (s : State) : State :=
  {| components := components s; vnodes := vnodes s; cache := cache s;
     keys := keys s; current := current s; pendingCacheKey := pendingCacheKey s;
     subTree := v; unmounted := unmounted s; warnings := warnings s |}.

Definition set_unmounted (v : list nat) (s : State) : State :=
  {| components := components s; vnodes := vnodes s; cache := cache s;
     keys := keys s; current := current s; pendingCacheKey := pendingCacheKey s;
     subTree := subTree s; unmounted := v; warnings := warnings s |}.

Definition set_warnings (v : list string) (s : State) : State :=
  {| components := components s; vnodes := vnodes s; cache := cache s;
     keys := keys s; current := current s; pendingCacheKey := pendingCacheKey s;
     subTree := subTree s; unmounted := unmounted s; warnings := v |}.

(** *** [Map] and [Set] with insertion order *)

Fixpoint map_get (k : CacheKey) (m : list (CacheKey * nat)) : option nat :=
  match m with
  | [] => None
  | e :: m' => if decide (e.1 = k) then Some e.2 else map_get k m'
  end.

Fixpoint map_set (k : CacheKey) (v : nat) (m : list (CacheKey * nat)) :
    list (CacheKey * nat) :=
  match m with
  | [] => [(k, v)]
  | e :: m' => if decide (e.1 = k) then (k, v) :: m' else e :: map_set k v m'
  end.

Definition map_delete (k : CacheKey) (m : list (CacheKey * nat)) :
    list (CacheKey * nat) :=
  filter (λ e, e.1 ≠ k) m.

Definition set_add (k : CacheKey) (ks : list CacheKey) : list CacheKey :=
  if decide (k ∈ ks) then ks else ks ++ [k].

Definition set_delete (k : CacheKey) (ks : list CacheKey) : list CacheKey :=
  filter (λ k', k' ≠ k) ks.

(** *** The helpers at the end of the file *)

(** [pattern.split(',')]. *)
Fixpoint split_comma (cur : string) (s : string) : list string :=
  match s with
  | EmptyString => [cur]
  | String a s' =>
      if Ascii.eqb a ","%char then cur :: split_comma EmptyString s'
      else split_comma (cur +:+ String a EmptyString) s'
  end.

Fixpoint matches (pattern : MatchPattern) (name : string) : bool :=
  match pattern with
  | PArray ps => existsb (λ p, matches p name) ps
  | PString s => bool_decide (name ∈ split_comma EmptyString s)
  | PRegExp test => test name
  end.

(** Truthiness of the two kinds of props. *)
Definition pattern_truthy (p : option MatchPattern) : option MatchPattern :=
  match p with
  | Some (PString s) => if String.eqb s EmptyString then None else p
  | _ => p
  end.

Definition name_truthy (n : option string) : option string :=
  match n with
  | Some s => if String.eqb s EmptyString then None else n
  | None => None
  end.

(** Truthiness of a [max]: a number other than [NaN] and zero, a string
    other than the empty one. *)
Definition max_truthy (v : MaxProp) : bool :=
  match v with
  | MaxNumber NNaN | MaxNumber NZero => false
  | MaxNumber _ => true
  | MaxString s => negb (String.eqb s EmptyString)
  end.

Section Setup.

(** The values of [ShapeFlags] that keep-alive uses; the enumeration is
    declared in [@vue/shared]. *)
Variable STATEFUL_COMPONENT SUSPENSE : Z.
Variable COMPONENT_SHOULD_KEEP_ALIVE COMPONENT_KEPT_ALIVE : Z.

(** [parseInt(max, 10)] of the language, [None] for [NaN]: the builtin
    turns its argument into a string, a number as [Number::toString] writes
    it, and reads the integer that string starts with.  The integer is kept
    exact: [keys.size] is a small integer, so that rounding the bound to a
    number of the language does not change the comparison. *)
Variable parseInt : MaxProp → option Z.

(** The build flag [__DEV__]. *)
Variable DEV : bool.

(** The bound that [max && keys.size > parseInt(max, 10)] compares with:
    none when [max] is falsy or does not parse. *)
Definition limit (m : option MaxProp) : option Z :=
  match m with
  | None => None
  | Some v => if max_truthy v then parseInt v else None
  end.

Definition exceeds (m : option MaxProp) (size : nat) : bool :=
  match limit m with
  | Some n => bool_decide (n < Z.of_nat size)%Z
  | None => false
  end.

Definition get_vnode (s : State) (v : nat) : result VNode :=
  match vnodes s !! v with
  | Some n => Ok n
  | None => TypeError
  end.

Definition set_shapeFlag (f : Z) (n : VNode) : VNode :=
  {| type := type n; key := key n; shapeFlag := f; el := el n;
     component := component n; ssContent := ssContent n |}.

Definition resetShapeFlag (v : nat) (s : State) : result State :=
  n ← get_vnode s v;
  let shapeFlag := shapeFlag n in
  let shapeFlag :=
    if negb (Z.land shapeFlag COMPONENT_SHOULD_KEEP_ALIVE =? 0)%Z
    then (shapeFlag - COMPONENT_SHOULD_KEEP_ALIVE)%Z else shapeFlag in
  let shapeFlag :=
    if negb (Z.land shapeFlag COMPONENT_KEPT_ALIVE =? 0)%Z
    then (shapeFlag - COMPONENT_KEPT_ALIVE)%Z else shapeFlag in
  mret (set_vnodes (<[v := set_shapeFlag shapeFlag n]> (vnodes s)) s).

Definition getInnerChild (v : nat) (s : State) : result nat :=
  n ← get_vnode s v;
  if negb (Z.land (shapeFlag n) SUSPENSE =? 0)%Z then
    match ssContent n with
    | Some c => mret c
    | None => TypeError
    end
  else mret v.

(** Modelled from the spec: [getComponentName] of [../component] is not
    among the sources; keep-alive decides "by component name". *)
Definition getComponentName (s : State) (c : option nat) : option string :=
  c ≫= λ c, components s !! c ≫= name.

Definition isAsyncWrapper (s : State) (n : VNode) : bool :=
  match components s !! type n with
  | Some c => asyncLoader c
  | None => false
  end.

Definition unmount (v : nat) (s : State) : result State :=
  s1 ← resetShapeFlag v s;
  mret (set_unmounted (v :: unmounted s1) s1).

Definition pruneCacheEntry (k : CacheKey) (s : State) : result State :=
  match map_get k (cache s) with
  | None => TypeError
  | Some cached =>
      cn ← get_vnode s cached;
      s1 ← match current s with
            | None => unmount cached s
            | Some cur =>
                curn ← get_vnode s cur;
                if decide (type cn ≠ type curn) then unmount cached s
                else resetShapeFlag cur s
            end;
      mret (set_keys (set_delete k (keys s1))
              (set_cache (map_delete k (cache s1)) s1))
  end.

(** [cache.forEach] visits the entries in insertion order; an entry deleted
    by its own visit does not disturb the others. *)
Fixpoint pruneCache_entries (filter : option (string → bool))
    (entries : list (CacheKey * nat)) (s : State) : result State :=
  match entries with
  | [] => mret s
  | (k, v) :: rest =>
      n ← get_vnode s v;
      s1 ← match name_truthy (getComponentName s (Some (type n))) with
            | Some nm =>
                if match filter with
                   | None => true
                   | Some f => negb (f nm)
                   end
                then pruneCacheEntry k s
                else mret s
            | None => mret s
            end;
      pruneCache_entries filter rest s1
  end.

Definition pruneCache (filter : option (string → bool)) (s : State) : result State :=
  pruneCache_entries filter (cache s) s.

(** The callback of the [watch] on [props.include] and [props.exclude]. *)
Definition on_patterns_changed (props : KeepAliveProps) (s : State) : result State :=
  s1 ← match pattern_truthy (include props) with
        | Some inc => pruneCache (Some (matches inc)) s
        | None => mret s
        end;
  match pattern_truthy (exclude props) with
  | Some exc => pruneCache (Some (λ nm, negb (matches exc nm))) s1
  | None => mret s1
  end.

(** [cacheSubtree], the [mounted] and [updated] hook. *)
Definition cacheSubtree (s : State) : result State :=
  match pendingCacheKey s with
  | Some k =>
      match subTree s with
      | Some t =>
          inner ← getInnerChild t s;
          mret (set_cache (map_set k inner (cache s)) s)
      | None => TypeError
      end
  | None => mret s
  end.

(** [slots.default()]: the new nodes enter the store. *)
Definition alloc_vnode (n : VNode) (s : State) : nat * State :=
  let v := fresh (dom (vnodes s)) in
  (v, set_vnodes (<[v := n]> (vnodes s)) s).

Fixpoint alloc_tree (t : VNodeTree) (s : State) : nat * State :=
  match t with
  | Node ty k flags =>
      alloc_vnode {| type := ty; key := k; shapeFlag := flags; el := None;
                     component := None; ssContent := None |} s
  | Boundary ty k flags content =>
      let '(c, s1) := alloc_tree content s in
      alloc_vnode {| type := ty; key := k; shapeFlag := flags; el := None;
                     component := None; ssContent := Some c |} s1
  end.

Fixpoint alloc_children (ts : list (option VNodeTree)) (s : State) :
    list Child * State :=
  match ts with
  | [] => ([], s)
  | t :: ts' =>
      let '(c, s1) :=
        match t with
        | Some t => let '(v, s1) := alloc_tree t s in (CVNode v, s1)
        | None => (COther, s)
        end in
      let '(cs, s2) := alloc_children ts' s1 in
      (c :: cs, s2)
  end.

(** The test that sends a child past the cache. *)
Definition ineligible (props : KeepAliveProps) (nm : option string) : bool :=
  match pattern_truthy (include props) with
  | Some inc =>
      match name_truthy nm with
      | Some n => negb (matches inc n)
      | None => true
      end
  | None => false
  end
  ||
  match pattern_truthy (exclude props), name_truthy nm with
  | Some exc, Some n => matches exc n
  | _, _ => false
  end.

(** The render function, given the children that [slots.default()] has just
    built. *)
Definition render_children (props : KeepAliveProps) (children : list Child)
    (s : State) : result (Rendered * State) :=
  let rawVNode := head children in
  if bool_decide (1 < length children) then
    let s := if DEV
             then set_warnings
                    ("KeepAlive should contain exactly one component child."
                       :: warnings s) s
             else s in
    mret (RChildren children, set_current None s)
  else
    match rawVNode with
    | None | Some COther => mret (RChild rawVNode, set_current None s)
    | Some (CVNode raw) =>
        rawn ← get_vnode s raw;
        if (Z.land (shapeFlag rawn) STATEFUL_COMPONENT =? 0)%Z &&
           (Z.land (shapeFlag rawn) SUSPENSE =? 0)%Z
        then mret (RChild rawVNode, set_current None s)
        else
          vnode ← getInnerChild raw s;
          n ← get_vnode s vnode;
          let comp := type n in
          let nm :=
            getComponentName s
              (if isAsyncWrapper s n
               then components s !! comp ≫= asyncResolved
               else Some comp) in
          if ineligible props nm then
            mret (RChild rawVNode, set_current (Some vnode) s)
          else
            let k := match key n with
                     | None => KComponent comp
                     | Some k => k
                     end in
            let cachedVNode := map_get k (cache s) in
            let s := set_pendingCacheKey (Some k) s in
            s1 ← match cachedVNode with
                  | Some cached =>
                      cn ← get_vnode s cached;
                      let n' :=
                        {| type := type n; key := key n;
                           shapeFlag := Z.lor (shapeFlag n) COMPONENT_KEPT_ALIVE;
                           el := el cn; component := component cn;
                           ssContent := ssContent n |} in
                      mret (set_keys (set_add k (set_delete k (keys s)))
                              (set_vnodes (<[vnode := n']> (vnodes s)) s))
                  | None =>
                      let s := set_keys (set_add k (keys s)) s in
                      if exceeds (max props) (length (keys s)) then
                        match head (keys s) with
                        | Some oldest => pruneCacheEntry oldest s
                        | None => TypeError
                        end
                      else mret s
                  end;
            n1 ← get_vnode s1 vnode;
            let s2 :=
              set_vnodes
                (<[vnode := set_shapeFlag
                              (Z.lor (shapeFlag n1) COMPONENT_SHOULD_KEEP_ALIVE) n1]>
                   (vnodes s1)) s1 in
            mret (RChild (Some (CVNode vnode)), set_current (Some vnode) s2)
    end.

Definition render (props : KeepAliveProps)
    (slots_default : option (list (option VNodeTree))) (s : State) :
    result (Rendered * State) :=
  let s := set_pendingCacheKey None s in
  match slots_default with
  | None => mret (RNull, s)
  | Some ts =>
      let '(children, s1) := alloc_children ts s in
      render_children props children s1
  end.

(** Modelled from the spec: the renderer is an external collaborator.
    Between a render and the hook it stores the node that the render
    function returned in [instance.subTree], as the comment in
    [cacheSubtree] says (a node of the renderer's own when the render
    function returned no single node). *)
Definition commit (out : Rendered) (s : State) : State :=
  set_subTree
    (match out with
     | RChild (Some (CVNode v)) => Some v
     | _ => None
     end) s.

(** One render followed by its [mounted] or [updated] hook. *)
Definition render_and_cache (props : KeepAliveProps)
    (slots_default : option (list (option VNodeTree))) (s : State) :
    result (Rendered * State) :=
  '(out, s1) ← render props slots_default s;
  s2 ← cacheSubtree (commit out s1);
  mret (out, s2).

End Setup.

(** [keys] and [cache] hold the same keys. *)
Definition same_keys (s : State) : Prop :=
  ∀ k, k ∈ keys s ↔ is_Some (map_get k (cache s)).

End KeepAlive.

(** ** Keep-alive: unmounting, and the activation hooks *)

Module KeepAliveLifecycle.
Import KeepAlive.

(** *** The [onBeforeUnmount] callback of [setup] *)

Section Unmount.

Variable SUSPENSE : Z.
Variable COMPONENT_SHOULD_KEEP_ALIVE COMPONENT_KEPT_ALIVE : Z.

(** [instance.da] of a component instance: its deactivated hooks, where it
    has any. *)
Variable da : nat → option (list nat).

(** One visit of [cache.forEach]; the second component collects the calls
    [queuePostRenderEffect(da, suspense)]. *)
Definition beforeUnmount_visit (cached : nat) (st : State * list (list nat)) :
    result (State * list (list nat)) :=
  let '(s, queued) := st in
  match subTree s with
  | None => TypeError
  | Some subTree =>
      vnode ← getInnerChild SUSPENSE subTree s;
      cn ← get_vnode s cached;
      n ← get_vnode s vnode;
      if decide (type cn = type n) then
        s1 ← resetShapeFlag COMPONENT_SHOULD_KEEP_ALIVE COMPONENT_KEPT_ALIVE vnode s;
        match component n with
        | None => TypeError
        | Some c =>
            mret (s1, match da c with
                      | Some hooks => queued ++ [hooks]
                      | None => queued
                      end)
        end
      else
        s1 ← unmount COMPONENT_SHOULD_KEEP_ALIVE COMPONENT_KEPT_ALIVE cached s;
        mret (s1, queued)
  end.

Fixpoint beforeUnmount_entries (entries : list (CacheKey * nat))
    (st : State * list (list nat)) : result (State * list (list nat)) :=
  match entries with
  | [] => mret st
  | (_, cached) :: rest =>
      st1 ← beforeUnmount_visit cached st;
      beforeUnmount_entries rest st1
  end.

Definition beforeUnmount (s : State) : result (State * list (list nat)) :=
  beforeUnmount_entries (cache s) (s, []).

End Unmount.

(** *** [onActivated], [onDeactivated] and the hooks of a kept-alive branch *)

(** [LifecycleHooks.ACTIVATED] and [LifecycleHooks.DEACTIVATED], the keys
    [a] and [da] of an instance. *)
Inductive LifecycleHooks : Type :=
  | ACTIVATED
  | DEACTIVATED.

#[global] Instance LifecycleHooks_eq_dec : EqDecision LifecycleHooks.
Proof. solve_decision. Defined.

(** What the hooks read of a component instance: its identity, whether its
    node is a keep-alive ([isKeepAlive(instance.vnode)]), and its parent.
    An instance is created under its parent, so the chain of parents is
    finite. *)
Inductive ComponentInternalInstance : Type :=
  | ComponentInstance (uid : nat) (vnode_isKeepAlive : bool)
      (parent : option ComponentInternalInstance).

Definition uid (i : ComponentInternalInstance) : nat :=
  match i with ComponentInstance u _ _ => u end.

Definition parent (i : ComponentInternalInstance) :
    option ComponentInternalInstance :=
  match i with ComponentInstance _ _ p => p end.

(** [isKeepAlive(i.vnode)]: [(vnode.type as any).__isKeepAlive]. *)
Definition isKeepAlive (i : ComponentInternalInstance) : bool :=
  match i with ComponentInstance _ b _ => b end.

(** A hook function, by identity. *)
Definition Hook := nat.

(** The [target] argument of a registration. *)
Inductive TargetArg : Type :=
  | TUndefined
  | TNull
  | TInstance (i : ComponentInternalInstance).

Record Hooks : Type := {
  currentInstance : option ComponentInternalInstance;
  (* the instances whose [isDeactivated] is set *)
  deactivated : gset nat;
  (* [hook.__wdc]: the hooks that have their wrapper, with the target the
     wrapper closes over *)
  wdc : gmap Hook (option ComponentInternalInstance);
  (* [instance.a] and [instance.da]: wrappers, named by their hook *)
  a_hooks : gmap nat (list Hook);
  da_hooks : gmap nat (list Hook);
  (* the cleanups registered with [onUnmounted]: target, type, keep-alive
     root, wrapper *)
  cleanups : list (nat * LifecycleHooks * nat * Hook);
  (* the calls [hook()], newest first *)
  calls : list Hook;
  (* the calls of [invokeVNodeHook], by the instance of the node *)
  vnodeHookCalls : list nat
}.

Definition set_deactivated (v : gset nat) (σ : Hooks) : Hooks :=
  {| currentInstance := currentInstance σ; deactivated := v; wdc := wdc σ;
     a_hooks := a_hooks σ; da_hooks := da_hooks σ; cleanups := cleanups σ;
     calls := calls σ; vnodeHookCalls := vnodeHookCalls σ |}.

Definition set_wdc (v : gmap Hook (option ComponentInternalInstance)) (σ : Hooks) :
    Hooks :=
  {| currentInstance := currentInstance σ; deactivated := deactivated σ; wdc := v;
     a_hooks := a_hooks σ; da_hooks := da_hooks σ; cleanups := cleanups σ;
     calls := calls σ; vnodeHookCalls := vnodeHookCalls σ |}.

Definition set_a_hooks (v : gmap nat (list Hook)) (σ : Hooks) : Hooks :=
  {| currentInstance := currentInstance σ; deactivated := deactivated σ;
     wdc := wdc σ; a_hooks := v; da_hooks := da_hooks σ; cleanups := cleanups σ;
     calls := calls σ; vnodeHookCalls := vnodeHookCalls σ |}.

Definition set_da_hooks (v : gmap nat (list Hook)) (σ : Hooks) : Hooks :=
  {| currentInstance := currentInstance σ; deactivated := deactivated σ;
     wdc := wdc σ; a_hooks := a_hooks σ; da_hooks := v; cleanups := cleanups σ;
     calls := calls σ; vnodeHookCalls := vnodeHookCalls σ |}.

Definition set_cleanups (v : list (nat * LifecycleHooks * nat * Hook)) (σ : Hooks) :
    Hooks :=
  {| currentInstance := currentInstance σ; deactivated := deactivated σ;
     wdc := wdc σ; a_hooks := a_hooks σ; da_hooks := da_hooks σ; cleanups := v;
     calls := calls σ; vnodeHookCalls := vnodeHookCalls σ |}.

Definition set_calls (v : list Hook) (σ : Hooks) : Hooks :=
  {| currentInstance := currentInstance σ; deactivated := deactivated σ;
     wdc := wdc σ; a_hooks := a_hooks σ; da_hooks := da_hooks σ;
     cleanups := cleanups σ; calls := v; vnodeHookCalls := vnodeHookCalls σ |}.

Definition set_vnodeHookCalls (v : list nat) (σ : Hooks) : Hooks :=
  {| currentInstance := currentInstance σ; deactivated := deactivated σ;
     wdc := wdc σ; a_hooks := a_hooks σ; da_hooks := da_hooks σ;
     cleanups := cleanups σ; calls := calls σ; vnodeHookCalls := v |}.

(** The loop of the wrapper: from [current] up the parents, false as soon
    as an instance is deactivated. *)
Fixpoint not_in_deactivated_branch (σ : Hooks) (current : ComponentInternalInstance) :
    bool :=
  match current with
  | ComponentInstance u _ p =>
      if decide (u ∈ deactivated σ) then false
      else match p with
           | Some p' => not_in_deactivated_branch σ p'
           | None => true
           end
  end.

(** A call of the wrapper [hook.__wdc]: the hook is called unless the
    target the wrapper closes over is in a deactivated branch. *)
Definition call_wdc (hook : Hook) (σ : Hooks) : Hooks :=
  match wdc σ !! hook with
  | Some target =>
      if match target with
         | Some t => not_in_deactivated_branch σ t
         | None => true
         end
      then set_calls (hook :: calls σ) σ
      else σ
  | None => σ
  end.

(** Modelled from the spec: [injectHook] of [../apiLifecycle] is not among
    the sources; its contract is [injectHook(type, callback, instance,
    prepend?)], which puts the callback into the hooks of the instance for
    the type, in front when [prepend] is set.  Without an instance nothing
    is registered. *)
Definition injectHook (type : LifecycleHooks) (hook : Hook)
    (target : option ComponentInternalInstance) (prepend : bool) (σ : Hooks) : Hooks :=
  match target with
  | Some t =>
      let add (l : list Hook) := if prepend then hook :: l else l ++ [hook] in
      match type with
      | ACTIVATED =>
          set_a_hooks (<[uid t := add (default [] (a_hooks σ !! uid t))]> (a_hooks σ)) σ
      | DEACTIVATED =>
          set_da_hooks (<[uid t := add (default [] (da_hooks σ !! uid t))]> (da_hooks σ)) σ
      end
  | None => σ
  end.

Definition injectToKeepAliveRoot (hook : Hook) (type : LifecycleHooks)
    (target keepAliveRoot : ComponentInternalInstance) (σ : Hooks) : Hooks :=
  let σ1 := injectHook type hook (Some keepAliveRoot) true σ in
  set_cleanups ((uid target, type, uid keepAliveRoot, hook) :: cleanups σ1) σ1.

(** The second loop of [registerKeepAliveHook], from [current] upwards:
    [while (current && current.parent)]. *)
Fixpoint inject_to_roots (hook : Hook) (type : LifecycleHooks)
    (target current : ComponentInternalInstance) (σ : Hooks) : Hooks :=
  match current with
  | ComponentInstance _ _ (Some p) =>
      let σ1 := if isKeepAlive p
                then injectToKeepAliveRoot hook type target current σ
                else σ in
      inject_to_roots hook type target p σ1
  | ComponentInstance _ _ None => σ
  end.

Definition registerKeepAliveHook (hook : Hook) (type : LifecycleHooks)
    (target : TargetArg) (σ : Hooks) : Hooks :=
  let target :=
    match target with
    | TUndefined => currentInstance σ
    | TNull => None
    | TInstance i => Some i
    end in
  let σ1 :=
    match wdc σ !! hook with
    | Some _ => σ
    | None => set_wdc (<[hook := target]> (wdc σ)) σ
    end in
  let σ2 := injectHook type hook target false σ1 in
  match target with
  | Some t =>
      match parent t with
      | Some current => inject_to_roots hook type t current σ2
      | None => σ2
      end
  | None => σ2
  end.

Definition onActivated (hook : Hook) (target : TargetArg) : Hooks → Hooks :=
  registerKeepAliveHook hook ACTIVATED target.

Definition onDeactivated (hook : Hook) (target : TargetArg) : Hooks → Hooks :=
  registerKeepAliveHook hook DEACTIVATED target.

(** Modelled from the spec: [invokeArrayFns] of [@vue/shared] and
    [invokeVNodeHook] of [../vnode] are not among the sources; they are the
    contract "invoke a lifecycle hook": the first calls the functions of the
    array in order, the second is recorded as a call. *)
Definition invokeArrayFns (fns : list Hook) (σ : Hooks) : Hooks :=
  foldl (λ σ h, call_wdc h σ) σ fns.

(** The effect that [sharedContext.activate] queues for the instance of a
    node; [vnodeHook] tells whether the node has [onVnodeMounted]. *)
Definition activate_effect (instance : ComponentInternalInstance) (vnodeHook : bool)
    (σ : Hooks) : Hooks :=
  let σ1 := set_deactivated (deactivated σ ∖ {[uid instance]}) σ in
  let σ2 :=
    match a_hooks σ1 !! uid instance with
    | Some a => invokeArrayFns a σ1
    | None => σ1
    end in
  if vnodeHook then set_vnodeHookCalls (uid instance :: vnodeHookCalls σ2) σ2 else σ2.

(** The effect that [sharedContext.deactivate] queues; [vnodeHook] tells
    whether the node has [onVnodeUnmounted]. *)
Definition deactivate_effect (instance : ComponentInternalInstance) (vnodeHook : bool)
    (σ : Hooks) : Hooks :=
  let σ1 :=
    match da_hooks σ !! uid instance with
    | Some da => invokeArrayFns da σ
    | None => σ
    end in
  let σ2 :=
    if vnodeHook then set_vnodeHookCalls (uid instance :: vnodeHookCalls σ1) σ1 else σ1 in
  set_deactivated (deactivated σ2 ∪ {[uid instance]}) σ2.

Definition no_hooks : Hooks :=
  {| currentInstance := None; deactivated := ∅; wdc := ∅; a_hooks := ∅;
     da_hooks := ∅; cleanups := []; calls := []; vnodeHookCalls := [] |}.

End KeepAliveLifecycle.

Module ReactiveTheory.
Import Reactive.

Lemma heap_lookup_lt hp l o : heap_lookup hp l = Some o → l < length hp.
Proof.
  induction hp as [|o' hp IH]; simpl; [done|].
  case_decide; [lia|]. intros Hl%IH. lia.
Qed.

Lemma heap_lookup_cons_old hp o l o' :
  heap_lookup hp l = Some o' → heap_lookup (o :: hp) l = Some o'.
Proof.
  intros Hl. simpl. case_decide as E; [|done].
  apply heap_lookup_lt in Hl. lia.
Qed.

Lemma heap_lookup_cons_new hp o : heap_lookup (o :: hp) (length hp) = Some o.
Proof. simpl. by rewrite decide_True. Qed.

Lemma backing_raw hp l t : heap_lookup hp l = Some (ORaw t) → backing hp l = Some t.
Proof.
  induction hp as [|o hp IH]; simpl; [done|].
  case_decide; [by intros [= ->]|done].
Qed.

Lemma backing_cons_old hp o l :
  l < length hp → backing (o :: hp) l = backing hp l.
Proof. intros Hl. simpl. case_decide; [lia|done]. Qed.

Lemma backing_lt hp l t : backing hp l = Some t → l < length hp.
Proof.
  revert l. induction hp as [|o hp IH]; intros l; simpl; [done|].
  case_decide; [lia|]. intros Hl%IH. lia.
Qed.

Lemma heap_lookup_is_Some hp l : l < length hp → is_Some (heap_lookup hp l).
Proof.
  induction hp as [|o hp IH]; simpl; [lia|].
  intros Hl. case_decide; [eauto|]. apply IH. lia.
Qed.

(** *** [createReactiveObject] on an object, as one cascade of tests *)

(** The second guard: the target already carries a [RAW] back-reference and
    the call is not readonly-of-a-reactive. *)
Definition already_wrapped (hp : Heap) (l : loc) (ro : bool) : bool :=
  match heap_lookup hp l with
  | Some (ORaw t) =>
      truthy (own_flag t RAW) && negb (ro && truthy (own_flag t IS_REACTIVE))
  | Some (OProxy _ h) => negb (ro && negb (handler_readonly h))
  | None => false
  end.

Definition target_type (hp : Heap) (l : loc) : TargetType :=
  match getTargetType hp (VRef l) with
  | Ok ty => ty
  | _ => INVALID
  end.

Lemma getTargetType_ref hp l : getTargetType hp (VRef l) = Ok (target_type hp l).
Proof.
  unfold target_type, getTargetType. simpl.
  by destruct (heap_lookup hp l) as [[]|].
Qed.

Lemma createReactiveObject_ref DEV l ro bh ch m σ :
  createReactiveObject DEV (VRef l) ro bh ch m σ =
  Ok (if already_wrapped (heap σ) l ro then (VRef l, σ)
      else if truthy (weakmap_get σ m (VRef l)) then (weakmap_get σ m (VRef l), σ)
      else if decide (target_type (heap σ) l = INVALID) then (VRef l, σ)
      else (VRef (length (heap σ)),
            weakmap_set
              (set_heap σ
                 (OProxy l (if decide (target_type (heap σ) l = COLLECTION)
                            then ch else bh) :: heap σ))
              m l (VRef (length (heap σ))))).
Proof.
  unfold createReactiveObject, already_wrapped.
  rewrite getTargetType_ref. simpl.
  destruct (heap_lookup (heap σ) l) as [[t|tl h]|]; simpl.
  - destruct (truthy (default VUndefined (v_raw t))); simpl;
      [destruct ro; simpl;
         [destruct (truthy (of_flag (v_isReactive t))); simpl|]|];
      repeat (case_match; simpl; try reflexivity); try reflexivity.
  - destruct ro; simpl; [destruct (handler_readonly h); simpl|];
      repeat (case_match; simpl; try reflexivity); try reflexivity.
  - repeat (case_match; simpl; try reflexivity); try reflexivity.
Qed.

Lemma createReactiveObject_prim DEV v ro bh ch m σ :
  isObject v = false →
  createReactiveObject DEV v ro bh ch m σ =
  Ok (v, if DEV then warn σ v else σ).
Proof. unfold createReactiveObject. by intros ->. Qed.

Lemma isReadonly_ref σ l :
  isReadonly σ (VRef l) =
  Ok (match heap_lookup (heap σ) l with
      | Some (ORaw t) => truthy (own_flag t IS_READONLY)
      | Some (OProxy _ h) => handler_readonly h
      | None => false
      end).
Proof.
  unfold isReadonly, flag_query. simpl.
  by destruct (heap_lookup (heap σ) l) as [[]|].
Qed.

Lemma isReadonly_prim σ v : isObject v = false → isReadonly σ v = Ok false.
Proof. destruct v; try done; simpl; intros _; unfold isReadonly, flag_query; simpl; by case_match. Qed.

(** Every wrap returns: no input makes it throw. *)
Lemma wrap_total DEV k x σ : ∃ r σ', wrap DEV k x σ = Ok (r, σ').
Proof.
  destruct (isObject x) eqn:Hx.
  - destruct x; try done.
    destruct k; simpl; unfold reactive, shallowReactive, readonly, shallowReadonly;
      rewrite ?isReadonly_ref; simpl; try case_match;
      rewrite ?createReactiveObject_ref; simpl; repeat case_match; eauto.
  - destruct k; simpl; unfold reactive, shallowReactive, readonly, shallowReadonly;
      rewrite ?isReadonly_prim by done; simpl;
      rewrite createReactiveObject_prim by done; eauto.
Qed.

(** *** The invariant is kept by every operation *)

Lemma inv_initial objs : Forall unflagged objs → inv (initial objs).
Proof.
  intros Hobjs.
  assert (Hraw : ∀ l o, heap_lookup (ORaw <$> objs) l = Some o →
                        ∃ t, o = ORaw t ∧ unflagged t).
  { induction Hobjs as [|t objs Ht _ IH]; simpl; [done|].
    intros l o. case_decide; [intros [= <-]; eauto|apply IH]. }
  split; simpl.
  - intros l t (t' & [= <-] & Ht)%Hraw. done.
  - intros l tl h (t' & [=] & _)%Hraw.
  - intros [] l v; simpl; by rewrite lookup_empty.
Qed.

Lemma inv_warn σ v : inv σ → inv (warn σ v).
Proof.
  intros [H1 H2 H3]. split; [exact H1|exact H2|].
  intros m l v'. specialize (H3 m l v'). by destruct m.
Qed.

Lemma target_type_valid hp l :
  target_type hp l ≠ INVALID → is_Some (heap_lookup hp l).
Proof.
  unfold target_type, getTargetType. simpl. intros Hty.
  apply heap_lookup_is_Some.
  destruct (backing hp l) as [t|] eqn:Hb; [by eapply backing_lt|].
  destruct (heap_lookup hp l) as [[]|]; simpl in Hty;
    rewrite ?orb_true_r in Hty; done.
Qed.

Lemma proxyMap_of_weakmap_set σ m m' l v :
  proxyMap_of (weakmap_set σ m l v) m' =
  if decide (m = m') then <[l := v]> (proxyMap_of σ m') else proxyMap_of σ m'.
Proof. by destruct m, m'. Qed.

Lemma inv_new_proxy σ m l hd o :
  inv σ →
  handler_readonly hd = map_readonly m →
  heap_lookup (heap σ) l = Some o →
  match o with
  | ORaw _ => True
  | OProxy _ h' => handler_readonly hd = true ∧ handler_readonly h' = false
  end →
  inv (weakmap_set (set_heap σ (OProxy l hd :: heap σ)) m l
         (VRef (length (heap σ)))).
Proof.
  intros [Hraw Hproxy Hmap] Hhd Hl Ho. split; simpl.
  - intros l' t. case_decide; [done|]. apply Hraw.
  - intros l' tl h. case_decide as E1.
    + intros [= <- <-]. rewrite decide_False; last first.
      { apply heap_lookup_lt in Hl. lia. }
      rewrite Hl. by destruct o.
    + intros Hl'. specialize (Hproxy _ _ _ Hl').
      destruct (heap_lookup (heap σ) tl) as [o'|] eqn:Htl; [|done].
      rewrite decide_False; [done|].
      apply heap_lookup_lt in Htl. lia.
  - intros m' l' v. rewrite proxyMap_of_weakmap_set. simpl.
    assert (Hold : proxyMap_of σ m' !! l' = Some v →
      ∃ p h, v = VRef p ∧
        (if decide (p = length (heap σ)) then Some (OProxy l hd)
         else heap_lookup (heap σ) p) = Some (OProxy l' h) ∧
        handler_readonly h = map_readonly m').
    { intros (p & h & -> & Hp & Hh)%Hmap. exists p, h. split; [done|].
      rewrite decide_False; [done|]. apply heap_lookup_lt in Hp. lia. }
    case_decide as Hm; [subst m'|done].
    destruct (decide (l = l')) as [<-|Hne].
    + rewrite lookup_insert_eq. intros [= <-]. exists (length (heap σ)), hd.
      by rewrite decide_True.
    + by rewrite lookup_insert_ne.
Qed.

Lemma createReactiveObject_inv DEV x ro bh ch m σ r σ' :
  handler_readonly bh = ro → handler_readonly ch = ro → map_readonly m = ro →
  inv σ →
  createReactiveObject DEV x ro bh ch m σ = Ok (r, σ') →
  inv σ'.
Proof.
  intros Hbh Hch Hm Hinv.
  destruct (isObject x) eqn:Hx.
  - destruct x; try done. rewrite createReactiveObject_ref.
    destruct (already_wrapped (heap σ) l ro) eqn:Haw; [by intros [= _ <-]|].
    case_match; [by intros [= _ <-]|].
    case_decide as Hty; [by intros [= _ <-]|].
    intros [= _ <-].
    destruct (target_type_valid _ _ Hty) as [o Hl].
    eapply inv_new_proxy; [done| |done|].
    { rewrite Hm. by case_decide. }
    destruct o as [|tl h']; [done|].
    unfold already_wrapped in Haw. rewrite Hl in Haw.
    destruct ro, (handler_readonly h'); try done.
    by case_decide.
  - rewrite createReactiveObject_prim by done.
    intros [= _ <-]. destruct DEV; [by apply inv_warn|done].
Qed.

Lemma wrap_inv DEV k x σ r σ' :
  inv σ → wrap DEV k x σ = Ok (r, σ') → inv σ'.
Proof.
  intros Hinv. destruct k; simpl;
    unfold reactive, shallowReactive, readonly, shallowReadonly.
  - destruct (isReadonly σ x) as [[]| |]; simpl; try done.
    + by intros [= _ <-].
    + by apply createReactiveObject_inv.
  - by apply createReactiveObject_inv.
  - by apply createReactiveObject_inv.
  - by apply createReactiveObject_inv.
Qed.

(** [markRaw] changes one [SKIP] flag and nothing else. *)
Definition same_but_skip (o o' : option HeapObj) : Prop :=
  match o, o' with
  | Some (ORaw t), Some (ORaw t') => t' = t ∨ define_skip t = Some t'
  | Some (OProxy tl h), Some (OProxy tl' h') => tl' = tl ∧ h' = h
  | None, None => True
  | _, _ => False
  end.

Lemma heap_define_skip_length hp l hp' :
  heap_define_skip hp l = Some hp' → length hp' = length hp.
Proof.
  revert l hp'. induction hp as [|o hp IH]; intros l hp'; simpl; [done|].
  case_decide.
  - destruct o as [t|tl h]; simpl.
    + destruct (define_skip t); simpl; [by intros [= <-]|done].
    + destruct (heap_define_skip hp tl) as [hp''|] eqn:E; simpl; [|done].
      intros [= <-]. simpl. f_equal. eauto.
  - destruct (heap_define_skip hp l) as [hp''|] eqn:E; simpl; [|done].
    intros [= <-]. simpl. f_equal. eauto.
Qed.

Lemma heap_define_skip_lookup hp l hp' l' :
  heap_define_skip hp l = Some hp' →
  same_but_skip (heap_lookup hp l') (heap_lookup hp' l').
Proof.
  assert (Hrefl : ∀ o, same_but_skip o o).
  { intros [[]|]; simpl; auto. }
  revert l hp'. induction hp as [|o hp IH]; intros l hp'; simpl; [done|].
  case_decide.
  - destruct o as [t|tl h]; simpl.
    + destruct (define_skip t) as [t'|] eqn:E; simpl; [|done].
      intros [= <-]. simpl. case_decide; simpl; auto.
    + destruct (heap_define_skip hp tl) as [hp''|] eqn:E; simpl; [|done].
      intros [= <-]. simpl.
      rewrite (heap_define_skip_length _ _ _ E).
      case_decide; simpl; [done|eauto].
  - destruct (heap_define_skip hp l) as [hp''|] eqn:E; simpl; [|done].
    intros [= <-]. simpl.
    rewrite (heap_define_skip_length _ _ _ E).
    case_decide; simpl; [apply (Hrefl (Some o))|eauto].
Qed.

Lemma define_skip_unflagged t t' :
  define_skip t = Some t' → unflagged t → unflagged t'.
Proof.
  unfold define_skip. case_match; [|done]. intros [= <-] Ht k Hk.
  specialize (Ht k Hk). by destruct k.
Qed.

Lemma markRaw_inv v σ r σ' : inv σ → markRaw v σ = Ok (r, σ') → inv σ'.
Proof.
  intros [Hraw Hproxy Hmap]. unfold markRaw.
  destruct v; try done.
  destruct (heap_define_skip (heap σ) l) as [hp|] eqn:E; [|done].
  intros [= _ <-].
  pose proof (λ l', heap_define_skip_lookup _ _ _ l' E) as Hsame.
  split; simpl.
  - intros l' t' Hl'. specialize (Hsame l'). rewrite Hl' in Hsame.
    destruct (heap_lookup (heap σ) l') as [[t|]|] eqn:Ho; simpl in Hsame; try done.
    destruct Hsame as [->|Hd]; [by eapply Hraw|].
    eapply define_skip_unflagged; [done|by eapply Hraw].
  - intros l' tl h Hl'. pose proof (Hsame l') as Hs1. rewrite Hl' in Hs1.
    destruct (heap_lookup (heap σ) l') as [[|tl0 h0]|] eqn:Ho; simpl in Hs1; try done.
    destruct Hs1 as [-> ->].
    specialize (Hproxy _ _ _ Ho). specialize (Hsame tl0).
    destruct (heap_lookup (heap σ) tl0) as [[]|], (heap_lookup hp tl0) as [[]|];
      simpl in Hsame; try done.
    by destruct Hsame as [-> ->].
  - intros m l' v Hv.
    assert (proxyMap_of σ m !! l' = Some v) as (p & h & -> & Hp & Hh)%Hmap
      by (by destruct m).
    exists p, h. split; [done|]. split; [|done].
    specialize (Hsame p). rewrite Hp in Hsame.
    destruct (heap_lookup hp p) as [[]|]; simpl in Hsame; try done.
    by destruct Hsame as [-> ->].
Qed.

(** *** [toRaw] and [isReactive] in a well-formed state

    A proxy sits at most two steps above an ordinary object: a readonly
    proxy may wrap a mutable proxy, and a mutable proxy wraps an ordinary
    object. *)
Definition raw_of (hp : Heap) (v : value) : value :=
  match v with
  | VRef l =>
      match heap_lookup hp l with
      | Some (OProxy tl _) =>
          match heap_lookup hp tl with
          | Some (OProxy tl2 _) => VRef tl2
          | _ => VRef tl
          end
      | _ => v
      end
  | _ => v
  end.

Lemma toRaw_prim fuel σ v : isObject v = false → toRaw (S fuel) σ v = Ok v.
Proof. destruct v; try done; intros _; simpl; repeat (case_match; simpl; try done). Qed.

Lemma toRaw_not_proxy fuel σ l :
  inv σ →
  match heap_lookup (heap σ) l with Some (OProxy _ _) => False | _ => True end →
  toRaw (S fuel) σ (VRef l) = Ok (VRef l).
Proof.
  intros Hinv Hl. simpl.
  destruct (heap_lookup (heap σ) l) as [[t|]|] eqn:E; simpl; try done.
  pose proof (inv_raw _ Hinv _ _ E RAW) as Hraw. simpl in Hraw.
  by rewrite Hraw.
Qed.

Lemma toRaw_proxy fuel σ l tl h :
  heap_lookup (heap σ) l = Some (OProxy tl h) →
  toRaw (S fuel) σ (VRef l) = toRaw fuel σ (VRef tl).
Proof. intros Hl. simpl. by rewrite Hl. Qed.

Lemma toRaw_inv σ fuel v :
  inv σ → 3 ≤ fuel → toRaw fuel σ v = Ok (raw_of (heap σ) v).
Proof.
  intros Hinv Hfuel.
  destruct fuel as [|[|[|fuel]]]; try lia.
  destruct (isObject v) eqn:Hv; last first.
  { rewrite toRaw_prim by done. by destruct v. }
  destruct v; try done. unfold raw_of.
  destruct (heap_lookup (heap σ) l) as [[t|tl h]|] eqn:Hl.
  - apply toRaw_not_proxy; [done|by rewrite Hl].
  - rewrite (toRaw_proxy _ _ _ _ _ Hl).
    pose proof (inv_proxy _ Hinv _ _ _ Hl) as Htl.
    destruct (heap_lookup (heap σ) tl) as [[t|tl2 h2]|] eqn:Htl'; [| |done].
    + apply toRaw_not_proxy; [done|by rewrite Htl'].
    + rewrite (toRaw_proxy _ _ _ _ _ Htl').
      pose proof (inv_proxy _ Hinv _ _ _ Htl') as Htl2.
      apply toRaw_not_proxy; [done|].
      destruct (heap_lookup (heap σ) tl2) as [[]|]; try done.
      destruct Htl as [_ Hh2], Htl2 as [Hh2' _]. congruence.
  - apply toRaw_not_proxy; [done|by rewrite Hl].
Qed.

Lemma raw_of_not_proxy σ v : inv σ → ¬ is_proxy (heap σ) (raw_of (heap σ) v).
Proof.
  intros Hinv (l & tl & h & Hv & Hl).
  destruct v; simpl in Hv; try done.
  destruct (heap_lookup (heap σ) l0) as [[t|tl0 h0]|] eqn:Hl0.
  - injection Hv as ->. congruence.
  - pose proof (inv_proxy _ Hinv _ _ _ Hl0) as Htl0.
    destruct (heap_lookup (heap σ) tl0) as [[t|tl2 h2]|] eqn:Htl0'; try done.
    + injection Hv as ->. congruence.
    + injection Hv as ->.
      pose proof (inv_proxy _ Hinv _ _ _ Htl0') as Htl2.
      rewrite Hl in Htl2. destruct Htl0 as [_ ?], Htl2 as [? _]. congruence.
  - injection Hv as ->. congruence.
Qed.

Lemma raw_of_id hp v : ¬ is_proxy hp v → raw_of hp v = v.
Proof.
  intros Hv. destruct v; try done. simpl.
  destruct (heap_lookup hp l) as [[t|tl h]|] eqn:Hl; try done.
  destruct Hv. by exists l, tl, h.
Qed.

Lemma weakmap_get_truthy σ m l :
  inv σ → truthy (weakmap_get σ m (VRef l)) = true →
  ∃ p h, weakmap_get σ m (VRef l) = VRef p ∧
         proxyMap_of σ m !! l = Some (VRef p) ∧
         heap_lookup (heap σ) p = Some (OProxy l h) ∧
         handler_readonly h = map_readonly m.
Proof.
  intros Hinv. simpl.
  destruct (proxyMap_of σ m !! l) as [v|] eqn:Hv; simpl; [|done].
  intros _. destruct (inv_map _ Hinv _ _ _ Hv) as (p & h & -> & Hp & Hh).
  by exists p, h.
Qed.

Lemma mutable_proxy_target σ l a h :
  inv σ → heap_lookup (heap σ) l = Some (OProxy a h) →
  handler_readonly h = false →
  ∃ t, heap_lookup (heap σ) a = Some (ORaw t).
Proof.
  intros Hinv Hl Hh. pose proof (inv_proxy _ Hinv _ _ _ Hl) as Ha.
  destruct (heap_lookup (heap σ) a) as [[t|]|]; [eauto| |done].
  destruct Ha. congruence.
Qed.

Lemma already_wrapped_proxy hp l a h :
  heap_lookup hp l = Some (OProxy a h) →
  already_wrapped hp l true = false → handler_readonly h = false.
Proof.
  unfold already_wrapped. intros ->. simpl. by destruct (handler_readonly h).
Qed.

Lemma already_wrapped_mutable hp l a h :
  heap_lookup hp l = Some (OProxy a h) → already_wrapped hp l false = true.
Proof. unfold already_wrapped. by intros ->. Qed.

Lemma createReactiveObject_raw_of DEV x ro bh ch m σ r σ' :
  inv σ →
  createReactiveObject DEV x ro bh ch m σ = Ok (r, σ') →
  raw_of (heap σ') r = raw_of (heap σ) x.
Proof.
  intros Hinv.
  destruct (isObject x) eqn:Hx; last first.
  { rewrite createReactiveObject_prim by done. intros [= <- <-]. by destruct DEV. }
  destruct x; try done. rewrite createReactiveObject_ref.
  destruct (already_wrapped (heap σ) l ro) eqn:Haw; [by intros [= <- <-]|].
  destruct (truthy (weakmap_get σ m (VRef l))) eqn:Hget.
  { destruct (weakmap_get_truthy _ _ _ Hinv Hget) as (p & h & -> & _ & Hp & _).
    intros [= <- <-].
    pose proof (inv_proxy _ Hinv _ _ _ Hp) as Hl. unfold raw_of. rewrite Hp.
    destruct (heap_lookup (heap σ) l) as [[t|a h']|] eqn:El; try done.
    destruct Hl as [_ Hh'].
    by destruct (mutable_proxy_target _ _ _ _ Hinv El Hh') as [t ->]. }
  case_decide as Hty; [by intros [= <- <-]|].
  intros [= <- <-]. destruct (target_type_valid _ _ Hty) as [o Hl].
  unfold raw_of. cbn [heap weakmap_set set_heap].
  rewrite heap_lookup_cons_new, (heap_lookup_cons_old _ _ _ _ Hl), Hl.
  destruct o as [t|a h']; [done|].
  assert (ro = true) as ->.
  { destruct ro; [done|]. by rewrite (already_wrapped_mutable _ _ _ _ Hl) in Haw. }
  pose proof (already_wrapped_proxy _ _ _ _ Hl Haw) as Hh'.
  by destruct (mutable_proxy_target _ _ _ _ Hinv Hl Hh') as [t ->].
Qed.

Lemma wrap_raw_of DEV k x σ r σ' :
  inv σ → wrap DEV k x σ = Ok (r, σ') →
  raw_of (heap σ') r = raw_of (heap σ) x.
Proof.
  intros Hinv. destruct k; simpl;
    unfold reactive, shallowReactive, readonly, shallowReadonly;
    try by apply createReactiveObject_raw_of.
  destruct (isReadonly σ x) as [[]| |]; simpl; try done.
  - by intros [= <- <-].
  - by apply createReactiveObject_raw_of.
Qed.

(** *** The claims about the proxy layer *)

(** C4. Wrapping the result of [readonly] with [reactive]: whenever
    [readonly(x)] is flagged readonly, [reactive] returns that very value
    and leaves the state alone, so [isReadonly] of what [reactive] returns
    is still true; and for every eligible [x] in a well-formed state
    [readonly(x)] is flagged readonly. *)
Theorem reactive_of_readonly_unchanged DEV x σ r σ1 :
  readonly DEV x σ = Ok (r, σ1) →
  (isReadonly σ1 r = Ok true →
   ∃ r' σ2, reactive DEV r σ1 = Ok (r', σ2) ∧ r' = r ∧ σ2 = σ1 ∧
            isReadonly σ2 r' = Ok true) ∧
  (inv σ → eligible (heap σ) x → isReadonly σ1 r = Ok true).
Proof.
  intros Hro. split.
  - intros Hr. exists r, σ1. unfold reactive. by rewrite Hr.
  - intros Hinv [Hx (ty & Hty & Hne)]. destruct x; try done.
    rewrite getTargetType_ref in Hty. injection Hty as <-.
    unfold readonly in Hro. rewrite createReactiveObject_ref in Hro.
    destruct (already_wrapped (heap σ) l true) eqn:Haw.
    + injection Hro as <- <-. rewrite isReadonly_ref. f_equal.
      unfold already_wrapped in Haw.
      destruct (heap_lookup (heap σ) l) as [[t|a h]|] eqn:Hl; try done.
      * pose proof (inv_raw _ Hinv _ _ Hl RAW) as Hraw.
        rewrite Hraw in Haw; done.
      * by destruct (handler_readonly h).
    + destruct (truthy (weakmap_get σ the_readonlyMap (VRef l))) eqn:Hget.
      * destruct (weakmap_get_truthy _ _ _ Hinv Hget) as (p & h & Hw & _ & Hp & Hh).
        rewrite Hw in Hro. injection Hro as <- <-.
        rewrite isReadonly_ref, Hp. by f_equal.
      * rewrite decide_False in Hro by done. injection Hro as <- <-.
        rewrite isReadonly_ref. cbn [heap weakmap_set set_heap].
        rewrite heap_lookup_cons_new. by case_decide.
Qed.

Lemma reactive_of_readonly_unchanged_witness :
  ∃ σ1, readonly true (VRef 0) (initial [plainObject]) = Ok (VRef 1, σ1) ∧
        reactive true (VRef 1) σ1 = Ok (VRef 1, σ1) ∧
        isReadonly σ1 (VRef 1) = Ok true.
Proof.
  eexists. split; [reflexivity|].
  destruct (reactive_of_readonly_unchanged true (VRef 0) (initial [plainObject])
              _ _ eq_refl) as [Hsame _].
  destruct (Hsame eq_refl) as (r' & σ2 & Hre & -> & -> & Hro).
  split; [exact Hre|exact Hro].
Defined.

(** The two handler tables each kind passes to [createReactiveObject]. *)
Definition kind_handlers (k : Kind) : ProxyHandler * ProxyHandler :=
  match k with
  | KReactive => (mutableHandlers, mutableCollectionHandlers)
  | KShallowReactive => (shallowReactiveHandlers, shallowCollectionHandlers)
  | KReadonly => (readonlyHandlers, readonlyCollectionHandlers)
  | KShallowReadonly => (shallowReadonlyHandlers, shallowReadonlyCollectionHandlers)
  end.

Lemma target_type_raw hp l t :
  heap_lookup hp l = Some (ORaw t) →
  target_type hp l =
  if truthy (own_flag t SKIP) || negb (extensible t) then INVALID
  else targetTypeMap (rawType t).
Proof.
  intros Hl. unfold target_type, getTargetType. simpl.
  by rewrite Hl, (backing_raw _ _ _ Hl).
Qed.

Lemma already_wrapped_raw hp l t ro :
  heap_lookup hp l = Some (ORaw t) → unflagged t → already_wrapped hp l ro = false.
Proof.
  intros Hl Ht. unfold already_wrapped. by rewrite Hl, (Ht RAW).
Qed.

(** On an unflagged ordinary object every kind goes straight to the
    identity map. *)
Lemma wrap_raw DEV k σ l t :
  heap_lookup (heap σ) l = Some (ORaw t) → unflagged t →
  wrap DEV k (VRef l) σ =
  Ok (if truthy (weakmap_get σ (kind_map k) (VRef l))
      then (weakmap_get σ (kind_map k) (VRef l), σ)
      else if decide (target_type (heap σ) l = INVALID) then (VRef l, σ)
      else (VRef (length (heap σ)),
            weakmap_set
              (set_heap σ
                 (OProxy l (if decide (target_type (heap σ) l = COLLECTION)
                            then (kind_handlers k).2 else (kind_handlers k).1)
                    :: heap σ))
              (kind_map k) l (VRef (length (heap σ))))).
Proof.
  intros Hl Ht.
  assert (Hro : isReadonly σ (VRef l) = Ok false).
  { rewrite isReadonly_ref, Hl. f_equal. apply (Ht IS_READONLY). done. }
  destruct k; simpl; unfold reactive, shallowReactive, readonly, shallowReadonly;
    rewrite ?Hro; simpl; rewrite createReactiveObject_ref;
    by rewrite (already_wrapped_raw _ _ _ _ Hl Ht).
Qed.

Lemma allowedType_valid s : allowedType s → targetTypeMap s ≠ INVALID.
Proof.
  unfold allowedType. rewrite !elem_of_cons, elem_of_nil.
  intros [->|[->|[->|[->|[->|[->|[]]]]]]]; done.
Qed.

(** *** What one wrap does to the state *)

(** The outcome of each kind on an object, as one cascade. *)
Lemma wrap_ref DEV k l σ :
  wrap DEV k (VRef l) σ =
  Ok (if (match k with KReactive => true | _ => false end) &&
         (match heap_lookup (heap σ) l with
          | Some (ORaw t) => truthy (own_flag t IS_READONLY)
          | Some (OProxy _ h) => handler_readonly h
          | None => false
          end)
      then (VRef l, σ)
      else if already_wrapped (heap σ) l (kind_readonly k) then (VRef l, σ)
      else if truthy (weakmap_get σ (kind_map k) (VRef l))
      then (weakmap_get σ (kind_map k) (VRef l), σ)
      else if decide (target_type (heap σ) l = INVALID) then (VRef l, σ)
      else (VRef (length (heap σ)),
            weakmap_set
              (set_heap σ
                 (OProxy l (if decide (target_type (heap σ) l = COLLECTION)
                            then (kind_handlers k).2 else (kind_handlers k).1)
                    :: heap σ))
              (kind_map k) l (VRef (length (heap σ))))).
Proof.
  destruct k; simpl; unfold reactive, shallowReactive, readonly, shallowReadonly;
    rewrite ?isReadonly_ref; simpl; rewrite ?createReactiveObject_ref; try done.
  by case_match.
Qed.

Lemma wrap_prim DEV k v σ :
  isObject v = false → wrap DEV k v σ = Ok (v, if DEV then warn σ v else σ).
Proof.
  intros Hv. destruct k; simpl;
    unfold reactive, shallowReactive, readonly, shallowReadonly;
    rewrite ?isReadonly_prim by done; simpl;
    by rewrite createReactiveObject_prim.
Qed.

Lemma proxyMap_of_set_heap σ hp m : proxyMap_of (set_heap σ hp) m = proxyMap_of σ m.
Proof. by destruct m. Qed.

Lemma proxyMap_of_warn σ v m : proxyMap_of (warn σ v) m = proxyMap_of σ m.
Proof. by destruct m. Qed.

(** A wrap returns the state as it was, or with one proxy more. *)
Lemma wrap_cases DEV k x σ r σ' :
  wrap DEV k x σ = Ok (r, σ') →
  (isObject x = false ∧ r = x ∧ σ' = (if DEV then warn σ x else σ)) ∨
  (isObject x = true ∧ σ' = σ ∧
     (r = x ∨ (r = weakmap_get σ (kind_map k) x ∧ truthy r = true))) ∨
  (∃ l h, x = VRef l ∧ r = VRef (length (heap σ)) ∧
          already_wrapped (heap σ) l (kind_readonly k) = false ∧
          truthy (weakmap_get σ (kind_map k) x) = false ∧
          target_type (heap σ) l ≠ INVALID ∧
          h = (if decide (target_type (heap σ) l = COLLECTION)
               then (kind_handlers k).2 else (kind_handlers k).1) ∧
          σ' = weakmap_set (set_heap σ (OProxy l h :: heap σ)) (kind_map k) l r).
Proof.
  destruct (isObject x) eqn:Hx; last first.
  { rewrite wrap_prim by done. intros [= <- <-]. by left. }
  destruct x; try done. rewrite wrap_ref. intros H. right.
  case_match; [injection H as <- <-; left; eauto|].
  destruct (already_wrapped _ _ _) eqn:Haw; [injection H as <- <-; left; eauto|].
  destruct (truthy (weakmap_get _ _ _)) eqn:Hget; [injection H as <- <-; left; eauto|].
  case_decide as Hty; [injection H as <- <-; left; eauto|].
  injection H as <- <-. right. eexists l, _. repeat split; done.
Qed.

(** *** The identity maps on their own

    The four maps are private to the module.  Whatever objects the program
    keeps in the store, every entry of a map sends an object to a proxy of
    that object, of the mutability of the map. *)
Definition maps_ok (σ : State) : Prop :=
  ∀ m l v, proxyMap_of σ m !! l = Some v →
    ∃ p h, v = VRef p ∧ heap_lookup (heap σ) p = Some (OProxy l h) ∧
           handler_readonly h = map_readonly m.

Lemma inv_maps_ok σ : inv σ → maps_ok σ.
Proof. intros Hinv. exact (inv_map _ Hinv). Qed.

Lemma maps_ok_initial objs : maps_ok (initial objs).
Proof. intros [] l v; simpl; by rewrite lookup_empty. Qed.

Lemma maps_ok_new σ o : maps_ok σ → maps_ok (set_heap σ (o :: heap σ)).
Proof.
  intros Hm m l v. rewrite proxyMap_of_set_heap.
  intros (p & h & -> & Hp & Hh)%Hm. exists p, h. split; [done|].
  split; [|done]. by apply heap_lookup_cons_old.
Qed.

Lemma kind_handlers_map k b :
  handler_readonly (if b : bool then (kind_handlers k).2 else (kind_handlers k).1) =
  map_readonly (kind_map k).
Proof. by destruct k, b. Qed.

Lemma wrap_maps_ok DEV k x σ r σ' :
  maps_ok σ → wrap DEV k x σ = Ok (r, σ') → maps_ok σ'.
Proof.
  intros Hm [(_ & _ & ->)|[(_ & -> & _)|(l & h & -> & -> & _ & _ & _ & Hh & ->)]]%wrap_cases.
  - destruct DEV; [|done]. intros m l v. rewrite proxyMap_of_warn. apply Hm.
  - done.
  - intros m l' v. rewrite proxyMap_of_weakmap_set, proxyMap_of_set_heap.
    cbn [heap weakmap_set set_heap].
    assert (Hold : proxyMap_of σ m !! l' = Some v →
      ∃ p h0, v = VRef p ∧
              heap_lookup (OProxy l h :: heap σ) p = Some (OProxy l' h0) ∧
              handler_readonly h0 = map_readonly m).
    { intros (p & h0 & -> & Hp & Hh0)%Hm. exists p, h0. split; [done|].
      split; [|done]. by apply heap_lookup_cons_old. }
    destruct (decide (kind_map k = m)) as [<-|Hne]; [|done].
    destruct (decide (l = l')) as [<-|Hl]; [|by rewrite lookup_insert_ne].
    rewrite lookup_insert_eq. intros [= <-]. exists (length (heap σ)), h.
    split; [done|]. split; [apply heap_lookup_cons_new|].
    rewrite Hh. by destruct k; case_decide.
Qed.

Lemma markRaw_maps_ok v σ r σ' :
  maps_ok σ → markRaw v σ = Ok (r, σ') → maps_ok σ'.
Proof.
  intros Hm. unfold markRaw. destruct v; try done.
  destruct (heap_define_skip (heap σ) l) as [hp|] eqn:E; [|done].
  intros [= _ <-] m l' v. rewrite proxyMap_of_set_heap.
  intros (p & h & -> & Hp & Hh)%Hm. exists p, h. split; [done|].
  split; [|done]. simpl.
  pose proof (heap_define_skip_lookup _ _ _ p E) as Hsame. rewrite Hp in Hsame.
  destruct (heap_lookup hp p) as [[]|]; simpl in Hsame; try done.
  by destruct Hsame as [-> ->].
Qed.

(** The states of a program that keeps any ordinary objects at all, with
    or without flag properties of their own. *)
Inductive run (DEV : bool) : State → Prop :=
  | run_initial objs : run DEV (initial objs)
  | run_new σ t : run DEV σ → run DEV (set_heap σ (ORaw t :: heap σ))
  | run_wrap σ k v r σ' :
      run DEV σ → wrap DEV k v σ = Ok (r, σ') → run DEV σ'
  | run_markRaw σ v r σ' :
      run DEV σ → markRaw v σ = Ok (r, σ') → run DEV σ'.

Lemma run_maps_ok DEV σ : run DEV σ → maps_ok σ.
Proof.
  induction 1 as [objs|σ t _ IH|σ k v r σ' _ IH Hw|σ v r σ' _ IH Hm].
  - apply maps_ok_initial.
  - by apply maps_ok_new.
  - by eapply wrap_maps_ok.
  - by eapply markRaw_maps_ok.
Qed.

Lemma weakmap_get_proxy σ m l :
  maps_ok σ → truthy (weakmap_get σ m (VRef l)) = true →
  ∃ p h, weakmap_get σ m (VRef l) = VRef p ∧
         proxyMap_of σ m !! l = Some (VRef p) ∧
         heap_lookup (heap σ) p = Some (OProxy l h) ∧
         handler_readonly h = map_readonly m.
Proof.
  intros Hm. simpl.
  destruct (proxyMap_of σ m !! l) as [v|] eqn:Hv; simpl; [|done].
  intros _. destruct (Hm _ _ _ Hv) as (p & h & -> & Hp & Hh).
  by exists p, h.
Qed.

(** A value that is not a proxy and has no truthy raw back-reference of its
    own: every primitive, and every ordinary object without a truthy
    [__v_raw]. *)
Definition no_raw (hp : Heap) (x : value) : Prop :=
  ¬ is_proxy hp x ∧ ∀ raw, get_prop hp x RAW = Ok raw → truthy raw = false.

Lemma toRaw_no_raw fuel σ x :
  (∀ raw, get_prop (heap σ) x RAW = Ok raw → truthy raw = false) →
  toRaw (S fuel) σ x = Ok x.
Proof.
  intros Hraw. simpl. destruct (truthy x) eqn:Hx; [|by simpl; rewrite Hx].
  destruct (get_prop (heap σ) x RAW) as [raw| |] eqn:Hg.
  - simpl. by rewrite (Hraw raw).
  - by destruct x; simpl in Hx, Hg; repeat case_match.
  - by destruct x; simpl in Hx, Hg; repeat case_match.
Qed.

(** The tests of a wrap that come before the identity map: [reactive]
    returns a value flagged readonly as it is, and every wrap returns a
    value with a truthy raw back-reference as it is, unless it is a
    readonly wrap of a value flagged reactive. *)
Definition flag (hp : Heap) (x : value) (k : ReactiveFlags) : bool :=
  match get_prop hp x k with
  | Ok v => truthy v
  | _ => false
  end.

Definition returned_early (k : Kind) (σ : State) (x : value) : bool :=
  (match k with KReactive => flag (heap σ) x IS_READONLY | _ => false end) ||
  (flag (heap σ) x RAW &&
   negb (kind_readonly k && flag (heap σ) x IS_REACTIVE)).

Lemma returned_early_ref k σ l :
  returned_early k σ (VRef l) =
  (match k with KReactive => true | _ => false end) &&
  (match heap_lookup (heap σ) l with
   | Some (ORaw t) => truthy (own_flag t IS_READONLY)
   | Some (OProxy _ h) => handler_readonly h
   | None => false
   end) || already_wrapped (heap σ) l (kind_readonly k).
Proof.
  unfold returned_early, flag, already_wrapped. simpl.
  destruct (heap_lookup (heap σ) l) as [[t|tl h]|]; simpl.
  - by destruct k.
  - by destruct k.
  - by destruct k.
Qed.

Lemma returned_early_unflagged k σ l t :
  heap_lookup (heap σ) l = Some (ORaw t) → unflagged t →
  returned_early k σ (VRef l) = false.
Proof.
  intros Hl Ht. rewrite returned_early_ref, (already_wrapped_raw _ _ _ _ Hl Ht), Hl.
  rewrite (Ht IS_READONLY) by done. by destruct k.
Qed.






(** C7, as the code has it.  In a state whose identity maps are as the
    module leaves them, [toRaw] of a wrap of [x] is [x] for every [x] that
    is not a proxy and has no truthy raw back-reference of its own (two
    units of fuel suffice).  In a well-formed state [toRaw] returns on
    every value with three units of fuel, and what it returns is never a
    proxy: a readonly proxy may sit on a mutable proxy, which sits on an
    ordinary object.  There [toRaw] of a wrap is [toRaw] of what was
    wrapped; it is the wrapped value itself whenever that value is not a
    proxy. *)
Theorem toRaw_wrap DEV k x σ r σ' fuel :
  wrap DEV k x σ = Ok (r, σ') →
  (maps_ok σ → no_raw (heap σ) x → 2 ≤ fuel → toRaw fuel σ' r = Ok x) ∧
  (inv σ → 3 ≤ fuel →
   (∃ y, toRaw fuel σ x = Ok y ∧ toRaw fuel σ' r = Ok y ∧ ¬ is_proxy (heap σ) y) ∧
   (¬ is_proxy (heap σ) x → toRaw fuel σ' r = Ok x)).
Proof.
  intros Hwrap. split.
  - intros Hmaps [Hnp Hraw] Hfuel.
    destruct fuel as [|[|fuel]]; try lia.
    destruct (wrap_cases _ _ _ _ _ _ Hwrap)
      as [(Hx & -> & ->)|[(Hx & -> & [->|[-> Ht]])
                         |(l & h & -> & -> & _ & _ & Hty & _ & ->)]].
    + by apply toRaw_prim.
    + by apply toRaw_no_raw.
    + destruct x; try done.
      destruct (weakmap_get_proxy _ _ _ Hmaps Ht) as (p & h & -> & _ & Hp & _).
      rewrite (toRaw_proxy _ _ _ _ _ Hp). by apply toRaw_no_raw.
    + rewrite (toRaw_proxy _ _ _ l h) by apply heap_lookup_cons_new.
      apply toRaw_no_raw. intros raw. cbn [heap weakmap_set set_heap].
      destruct (target_type_valid _ _ Hty) as [o Hl].
      simpl. rewrite decide_False by (apply heap_lookup_lt in Hl; lia).
      intros Hg. apply Hraw. simpl. rewrite Hl in Hg |- *.
      destruct o as [t|tl h']; [done|].
      destruct Hnp. by exists l, tl, h'.
  - intros Hinv Hfuel.
    pose proof (wrap_inv _ _ _ _ _ _ Hinv Hwrap) as Hinv'.
    pose proof (wrap_raw_of _ _ _ _ _ _ Hinv Hwrap) as Hraw.
    rewrite (toRaw_inv σ) by done. rewrite (toRaw_inv σ') by done.
    rewrite Hraw. split.
    + eexists. split; [done|]. split; [done|]. by apply raw_of_not_proxy.
    + intros Hx. by rewrite raw_of_id.
Qed.

Lemma toRaw_wrap_witness :
  ∃ σ', wrap true KReadonly (VRef 0) (initial [plainObject]) = Ok (VRef 1, σ') ∧
        toRaw 2 σ' (VRef 1) = Ok (VRef 0) ∧
        ∃ y, toRaw 3 (initial [plainObject]) (VRef 0) = Ok y ∧
             toRaw 3 σ' (VRef 1) = Ok y.
Proof.
  eexists. split; [reflexivity|].
  destruct (toRaw_wrap true KReadonly (VRef 0) (initial [plainObject])
              (VRef 1) _ 2 eq_refl) as [H2 _].
  destruct (toRaw_wrap true KReadonly (VRef 0) (initial [plainObject])
              (VRef 1) _ 3 eq_refl) as [_ H3].
  split.
  - apply H2.
    + apply maps_ok_initial.
    + split; [|by intros raw [= <-]].
      intros (l & a & h & [= <-] & Hl). vm_compute in Hl. discriminate.
    + lia.
  - destruct H3 as [(y & Hy & Hy' & _) _].
    + apply inv_initial. constructor; [|constructor]. by intros [].
    + lia.
    + exists y. split; [exact Hy|exact Hy'].
Defined.

(** C7 as stated fails where the wrapped value is itself a proxy: for
    [o = {}], [p = reactive(o)] and [q = readonly(p)], the raw
    back-reference of [q] is the proxy [p], and [toRaw(q)] is [o], not [p]. *)
Lemma toRaw_wrap_counterexample :
  ∃ σ1 σ2,
    reactive true (VRef 0) (initial [plainObject]) = Ok (VRef 1, σ1) ∧
    readonly true (VRef 1) σ1 = Ok (VRef 2, σ2) ∧
    get_prop (heap σ2) (VRef 2) RAW = Ok (VRef 1) ∧
    isProxy 3 σ2 (VRef 1) = Ok true ∧
    toRaw 3 σ2 (VRef 2) = Ok (VRef 0) ∧
    VRef 0 ≠ VRef 1.
Proof. eexists _, _. repeat split; try reflexivity. discriminate. Qed.

(** C8, as the code has it. A value that is not an object comes back
    unchanged, with a warning in a development build only.  An object that
    [getTargetType] classifies as [INVALID] leaves the state as it is (no
    proxy, no map entry, no warning), and what the call returns follows the
    order of the tests: the object itself when a test before the identity
    map catches it, else the entry that the identity map of the kind holds
    for it when there is one, else the object itself.  An ordinary object
    that answers none of the four hidden flags is caught by no earlier
    test; and in a state whose maps are as the module leaves them, the
    entry of a map is a proxy of the object. *)
Theorem wrap_invalid_passthrough DEV k x σ :
  (isObject x = false →
   wrap DEV k x σ = Ok (x, if DEV then warn σ x else σ)) ∧
  (isObject x = true → getTargetType (heap σ) x = Ok INVALID →
   wrap DEV k x σ =
     Ok (if returned_early k σ x then x
         else if truthy (weakmap_get σ (kind_map k) x)
              then weakmap_get σ (kind_map k) x
              else x, σ)) ∧
  (∀ l t, x = VRef l → heap_lookup (heap σ) l = Some (ORaw t) → unflagged t →
          returned_early k σ x = false) ∧
  (∀ l, x = VRef l → maps_ok σ →
        truthy (weakmap_get σ (kind_map k) x) = true →
        ∃ p h, weakmap_get σ (kind_map k) x = VRef p ∧
               heap_lookup (heap σ) p = Some (OProxy l h)).
Proof.
  split; [by apply wrap_prim|]. split; [|split].
  - intros Hx Hty. destruct x; try done.
    rewrite getTargetType_ref in Hty. injection Hty as Hty.
    rewrite wrap_ref, returned_early_ref, Hty.
    rewrite decide_True by done.
    destruct (_ && _); cbn [orb]; [done|].
    destruct (already_wrapped (heap σ) l (kind_readonly k)); [done|].
    by destruct (truthy (weakmap_get σ (kind_map k) (VRef l))).
  - intros l t -> Hl Ht. by eapply returned_early_unflagged.
  - intros l -> Hmaps Hget.
    destruct (weakmap_get_proxy _ _ _ Hmaps Hget) as (p & h & Hw & _ & Hp & _).
    by exists p, h.
Qed.

(** C8 as stated fails for an object that was wrapped before it became
    invalid: after [p = reactive(o)] and [markRaw(o)], [o] is classified
    [INVALID], yet [reactive(o)] returns the proxy [p]. *)
Lemma wrap_invalid_counterexample :
  ∃ σ1 σ2,
    reactive true (VRef 0) (initial [plainObject]) = Ok (VRef 1, σ1) ∧
    markRaw (VRef 0) σ1 = Ok (VRef 0, σ2) ∧
    getTargetType (heap σ2) (VRef 0) = Ok INVALID ∧
    reactive true (VRef 0) σ2 = Ok (VRef 1, σ2) ∧
    VRef 1 ≠ VRef 0.
Proof. eexists _, _. repeat split; try reflexivity. discriminate. Qed.

Lemma flag_query_total hp v k : ∃ b, flag_query hp v k = Ok b.
Proof.
  unfold flag_query. destruct v; simpl; eauto;
    repeat (case_match; simpl; eauto).
Qed.

Lemma flag_query_prim hp v k : isObject v = false → flag_query hp v k = Ok false.
Proof.
  unfold flag_query. destruct v; try done; intros _; simpl;
    repeat (case_match; simpl; try done).
Qed.

Lemma isReadonly_raw σ l t :
  inv σ → heap_lookup (heap σ) l = Some (ORaw t) → isReadonly σ (VRef l) = Ok false.
Proof.
  intros Hinv Hl. rewrite isReadonly_ref, Hl. f_equal.
  by apply (inv_raw _ Hinv _ _ Hl IS_READONLY).
Qed.

Lemma isReadonly_proxy σ l a h :
  heap_lookup (heap σ) l = Some (OProxy a h) →
  isReadonly σ (VRef l) = Ok (handler_readonly h).
Proof. intros Hl. by rewrite isReadonly_ref, Hl. Qed.

Lemma isReactive_mutable fuel σ v :
  isReadonly σ v = Ok false → ∃ b, isReactive (S fuel) σ v = Ok b.
Proof. intros Hro. simpl. rewrite Hro. simpl. apply flag_query_total. Qed.

Lemma isReactive_total σ fuel v : inv σ → 3 ≤ fuel → ∃ b, isReactive fuel σ v = Ok b.
Proof.
  intros Hinv Hfuel. destruct fuel as [|[|fuel]]; try lia.
  destruct (isObject v) eqn:Hv; last first.
  { apply isReactive_mutable. by apply isReadonly_prim. }
  destruct v; try done.
  destruct (heap_lookup (heap σ) l) as [[t|a h]|] eqn:Hl.
  - apply isReactive_mutable. by eapply isReadonly_raw.
  - destruct (handler_readonly h) eqn:Hh; last first.
    { apply isReactive_mutable. by rewrite (isReadonly_proxy _ _ _ _ Hl), Hh. }
    assert (Hstep : isReactive (S (S fuel)) σ (VRef l) =
                    isReactive (S fuel) σ (VRef a)).
    { cbn [isReactive]. rewrite (isReadonly_proxy _ _ _ _ Hl), Hh. simpl.
      by rewrite Hl. }
    rewrite Hstep. apply isReactive_mutable.
    pose proof (inv_proxy _ Hinv _ _ _ Hl) as Ha.
    destruct (heap_lookup (heap σ) a) as [[t|a2 h2]|] eqn:Hla; [| |done].
    + by eapply isReadonly_raw.
    + rewrite (isReadonly_proxy _ _ _ _ Hla). by destruct Ha as [_ ->].
  - apply isReactive_mutable. by rewrite isReadonly_ref, Hl.
Qed.

(** C10. On a value that is not an object the four queries return [false]
    and [toRaw] returns the value: no call throws, whatever the state.  In a
    well-formed state all five return on every value. *)
Theorem queries_total σ v fuel :
  1 ≤ fuel →
  (isObject v = false →
   isReactive fuel σ v = Ok false ∧ isReadonly σ v = Ok false ∧
   isShallow σ v = Ok false ∧ isProxy fuel σ v = Ok false ∧
   toRaw fuel σ v = Ok v) ∧
  (inv σ → 3 ≤ fuel →
   ∃ b1 b2 b3 b4 y,
     isReactive fuel σ v = Ok b1 ∧ isReadonly σ v = Ok b2 ∧
     isShallow σ v = Ok b3 ∧ isProxy fuel σ v = Ok b4 ∧
     toRaw fuel σ v = Ok y).
Proof.
  intros Hfuel. split.
  - intros Hv. destruct fuel as [|fuel]; [lia|].
    assert (Hre : isReactive (S fuel) σ v = Ok false).
    { simpl. rewrite isReadonly_prim by done. simpl. by apply flag_query_prim. }
    unfold isProxy. rewrite Hre. simpl.
    rewrite isReadonly_prim by done.
    repeat split; [by apply flag_query_prim|by apply toRaw_prim].
  - intros Hinv H3.
    destruct (isReactive_total σ fuel v Hinv H3) as [b1 Hb1].
    destruct (flag_query_total (heap σ) v IS_READONLY) as [b2 Hb2].
    destruct (flag_query_total (heap σ) v IS_SHALLOW) as [b3 Hb3].
    exists b1, b2, b3, (if b1 then true else b2), (raw_of (heap σ) v).
    unfold isProxy, isReadonly, isShallow. rewrite Hb1, Hb2, Hb3.
    repeat split; [by destruct b1|by apply toRaw_inv].
Qed.

Lemma queries_total_witness :
  isReactive 1 (initial []) VNull = Ok false ∧
  isReadonly (initial []) VNull = Ok false ∧
  isShallow (initial []) VNull = Ok false ∧
  isProxy 1 (initial []) VNull = Ok false ∧
  toRaw 1 (initial []) VNull = Ok VNull.
Proof.
  apply (queries_total (initial []) VNull 1); [lia|reflexivity].
Defined.

End ReactiveTheory.

Module AsyncComponentTheory.
Import AsyncComponent.

Section Wrapper.

Variable source : AsyncComponentOptions.
Variable DEV : bool.

Lemma lookup_update_instance i f s t :
  instances s !! i = Some (Tracked t) →
  instances (update_instance i f s) !! i = Some (Tracked (f t)).
Proof.
  intros Hi. unfold update_instance. rewrite Hi. simpl.
  apply list_lookup_insert_eq. by eapply lookup_lt_Some.
Qed.

Lemma update_instance_requests i f s :
  requests (update_instance i f s) = requests s.
Proof. unfold update_instance. by repeat case_match. Qed.

Lemma update_instance_resolvedComp i f s :
  resolvedComp (update_instance i f s) = resolvedComp s.
Proof. unfold update_instance. by repeat case_match. Qed.

Lemma update_instance_pendingRequest i f s :
  pendingRequest (update_instance i f s) = pendingRequest s.
Proof. unfold update_instance. by repeat case_match. Qed.

Lemma update_instance_retries i f s :
  retries (update_instance i f s) = retries s.
Proof. unfold update_instance. by repeat case_match. Qed.

Lemma update_instance_reported i f s :
  reported (update_instance i f s) = reported s.
Proof. unfold update_instance. by repeat case_match. Qed.

(** *** [load] *)

Lemma load_pending s p : pendingRequest s = Some p → load s = (p, s).
Proof. unfold load. by intros ->. Qed.

Lemma load_fresh s :
  pendingRequest s = None →
  ∃ s1, load s = (length (requests s), s1) ∧
        loaderCalls s1 = S (loaderCalls s) ∧
        pendingRequest s1 = Some (length (requests s)) ∧
        in_flight s1 (length (requests s)) ∧
        retries s1 = retries s ∧ reported s1 = reported s.
Proof.
  intros Hp. unfold load. rewrite Hp. eexists. split; [done|].
  repeat split. unfold in_flight. simpl.
  rewrite lookup_app_r by done. by rewrite Nat.sub_diag.
Qed.

(** A step leaves the pending request in place unless it ran [retry] or an
    instance's [onError]. *)
Lemma step_pendingRequest s s' p :
  step source DEV s s' →
  pendingRequest s = Some p →
  pendingRequest s' = Some p ∨
  retries s' = S (retries s) ∨
  length (reported s') = S (length (reported s)).
Proof.
  intros Hstep Hp. destruct Hstep.
  - left. by rewrite (load_pending _ _ Hp).
  - left. unfold setup. destruct (resolvedComp s); [done|].
    by rewrite (load_pending _ _ Hp).
  - by left.
  - left. unfold loader_catch. by case_match.
  - right; left. unfold userRetry, retry.
    destruct (load_fresh (set_pendingRequest None (set_retries (S (retries s)) s)))
      as (s1 & -> & _ & _ & _ & Hre & _); [done|].
    by repeat case_match.
  - left. unfold userFail. by repeat case_match.
  - by left.
  - by left.
  - left. unfold delay_callback.
    by rewrite !update_instance_pendingRequest.
  - unfold timeout_callback. repeat case_match;
      rewrite ?update_instance_pendingRequest, ?update_instance_reported;
      simpl; rewrite ?update_instance_pendingRequest, ?update_instance_reported;
      auto.
  - left. unfold instance_then. repeat case_match; simpl;
      by rewrite ?update_instance_pendingRequest.
  - right; right. unfold instance_catch.
    destruct (onError_throws source DEV);
      rewrite ?update_instance_reported; simpl;
      by rewrite update_instance_reported.
Qed.


(** The resolved state is tested first by the render function. *)
Lemma render_loaded i s t c :
  instances s !! i = Some (Tracked t) →
  loaded t = true → resolvedComp s = Some c →
  render source i s = InnerComp c.
Proof. intros Hi Hl Hc. unfold render. by rewrite Hi, Hl, Hc. Qed.

(** C3, as the code has it. While [pendingRequest] is set, [load()]
    returns that very request and calls nothing; with no pending request it
    calls the loader once and the new request is pending and in flight.  A
    step clears a pending request only by running [retry] or an instance's
    [onError] (a rejected load or a timeout). *)
Theorem load_shares_pending s :
  (∀ p, pendingRequest s = Some p → load s = (p, s)) ∧
  (pendingRequest s = None →
   ∃ p s1, load s = (p, s1) ∧ loaderCalls s1 = S (loaderCalls s) ∧
           pendingRequest s1 = Some p ∧ in_flight s1 p ∧ load s1 = (p, s1)) ∧
  (∀ s' p, step source DEV s s' → pendingRequest s = Some p →
           pendingRequest s' = Some p ∨
           retries s' = S (retries s) ∨
           length (reported s') = S (length (reported s))).
Proof.
  split; [apply load_pending|]. split.
  - intros Hp. destruct (load_fresh s Hp) as (s1 & Hl & Hc & Hp1 & Hf & _).
    exists (length (requests s)), s1. repeat split; try done.
    by apply load_pending.
  - intros s' p. apply step_pendingRequest.
Qed.


End Wrapper.

(** A wrapper with a timeout of three seconds and nothing else configured. *)
Definition with_timeout : AsyncComponentOptions :=
  {| loadingComponent := None; errorComponent := Some 7; delay := None;
     timeout := Some 3000; onError := false |}.

(** C3 as stated fails once a timeout has fired: the instance's [onError]
    clears [pendingRequest] although the request [0] is still in flight, so
    the next [load()] calls the loader a second time and returns another
    request. *)
Lemma load_in_flight_counterexample :
  ∃ s1 s2 s3,
    step with_timeout true initial s1 ∧
    load s1 = (0, s1) ∧
    step with_timeout true s1 s2 ∧
    in_flight s2 0 ∧
    load s2 = (1, s3) ∧
    loaderCalls s3 = 2.
Proof.
  exists (setup with_timeout false initial).
  eexists _, _. split; [apply step_setup|].
  split; [reflexivity|].
  split; [by eapply (step_timeout with_timeout true 0)|].
  repeat split.
Qed.




End AsyncComponentTheory.

Module KeepAliveTheory.
Import KeepAlive.

(** *** The ordered map and set *)

Lemma map_get_set k v m k' :
  map_get k' (map_set k v m) = if decide (k = k') then Some v else map_get k' m.
Proof.
  induction m as [|[k0 v0] m IH]; simpl.
  - repeat case_decide; congruence.
  - destruct (decide (k0 = k)) as [->|Hne]; simpl.
    + repeat case_decide; congruence.
    + rewrite IH. repeat case_decide; congruence.
Qed.

Lemma map_get_delete k m k' :
  map_get k' (map_delete k m) = if decide (k = k') then None else map_get k' m.
Proof.
  unfold map_delete. induction m as [|[k0 v0] m IH]; simpl.
  - by case_decide.
  - rewrite filter_cons. simpl. destruct (decide (k0 ≠ k)) as [Hne|Heq]; simpl.
    + rewrite IH. repeat case_decide; congruence.
    + apply dec_stable in Heq. subst k0. rewrite IH.
      repeat case_decide; congruence.
Qed.

Lemma map_get_Some_elem k v m : map_get k m = Some v → k ∈ m.*1.
Proof.
  induction m as [|[k0 v0] m IH]; simpl; [done|].
  case_decide as E; simpl in E.
  - subst. intros _. apply elem_of_cons. by left.
  - intros Hm. apply elem_of_cons. right. by apply IH.
Qed.

Lemma map_get_None k m : map_get k m = None ↔ k ∉ m.*1.
Proof.
  induction m as [|[k0 v0] m IH]; simpl.
  - split; [intros _; apply not_elem_of_nil|done].
  - rewrite not_elem_of_cons. case_decide as E; simpl in E.
    + split; [done|]. intros [Hne _]. congruence.
    + rewrite IH. split; [by intros; split|by intros [_ ?]].
Qed.

Lemma map_delete_fst k m : (map_delete k m).*1 = set_delete k (m.*1).
Proof.
  unfold map_delete, set_delete. induction m as [|[k0 v0] m IH]; [done|].
  rewrite fmap_cons, !filter_cons. simpl.
  case_decide; [rewrite fmap_cons|]; simpl; by rewrite IH.
Qed.

Lemma map_set_fst k v m :
  (map_set k v m).*1 = if decide (k ∈ m.*1) then m.*1 else m.*1 ++ [k].
Proof.
  induction m as [|[k0 v0] m IH].
  - rewrite decide_False; [done|apply not_elem_of_nil].
  - cbn [map_set fst]. rewrite fmap_cons. cbn [fst].
    destruct (decide (k0 = k)) as [->|Hne].
    + rewrite decide_True; [done|]. apply elem_of_cons. by left.
    + rewrite fmap_cons, IH. cbn [fst]. destruct (decide (k ∈ m.*1)) as [Hin|Hnin].
      * rewrite decide_True; [done|]. apply elem_of_cons. by right.
      * rewrite decide_False; [done|]. rewrite not_elem_of_cons. split; congruence.
Qed.

Lemma elem_of_set_add k ks k' : k' ∈ set_add k ks ↔ k' = k ∨ k' ∈ ks.
Proof.
  unfold set_add. case_decide.
  - split; [by right|]. by intros [->|].
  - rewrite elem_of_app, list_elem_of_singleton. tauto.
Qed.

Lemma elem_of_set_delete k ks k' : k' ∈ set_delete k ks ↔ k' ≠ k ∧ k' ∈ ks.
Proof. unfold set_delete. by rewrite list_elem_of_filter. Qed.

Lemma NoDup_set_delete k ks : NoDup ks → NoDup (set_delete k ks).
Proof. apply NoDup_filter. Qed.

Lemma NoDup_set_add k ks : NoDup ks → NoDup (set_add k ks).
Proof.
  intros Hnd. unfold set_add. case_decide; [done|].
  apply NoDup_app. split; [done|]. split; [|apply NoDup_singleton].
  intros k' Hin ->%list_elem_of_singleton. done.
Qed.

Lemma set_delete_not_in k ks : k ∉ ks → set_delete k ks = ks.
Proof.
  unfold set_delete. induction ks as [|k0 ks IH]; [done|].
  rewrite not_elem_of_cons. intros [Hne Hnin].
  rewrite filter_cons, decide_True by congruence. by rewrite IH.
Qed.

Lemma set_delete_head k ks : k ∉ ks → set_delete k (k :: ks) = ks.
Proof.
  intros Hnin. unfold set_delete. rewrite filter_cons, decide_False by tauto.
  by apply set_delete_not_in.
Qed.

Lemma set_delete_app k ks ks' :
  set_delete k (ks ++ ks') = set_delete k ks ++ set_delete k ks'.
Proof. apply filter_app. Qed.

Lemma length_set_delete k ks :
  NoDup ks → k ∈ ks → S (length (set_delete k ks)) = length ks.
Proof.
  induction ks as [|k0 ks IH]; [by intros _ ?%elem_of_nil|].
  intros [Hnin Hnd]%NoDup_cons. unfold set_delete. rewrite filter_cons.
  destruct (decide (k0 ≠ k)) as [Hne|Heq]; simpl.
  - intros [?|Hin]%elem_of_cons; [congruence|]. f_equal. by apply IH.
  - apply dec_stable in Heq. subst k0. intros _. f_equal.
    f_equal. by apply set_delete_not_in.
Qed.

Section Setup.

Variable STATEFUL_COMPONENT SUSPENSE : Z.
Variable COMPONENT_SHOULD_KEEP_ALIVE COMPONENT_KEPT_ALIVE : Z.
Variable parseInt : MaxProp → option Z.
Variable DEV : bool.

Local Abbreviation resetShapeFlag :=
  (resetShapeFlag COMPONENT_SHOULD_KEEP_ALIVE COMPONENT_KEPT_ALIVE).
Local Abbreviation unmount := (unmount COMPONENT_SHOULD_KEEP_ALIVE COMPONENT_KEPT_ALIVE).
Local Abbreviation pruneCacheEntry :=
  (pruneCacheEntry COMPONENT_SHOULD_KEEP_ALIVE COMPONENT_KEPT_ALIVE).
Local Abbreviation pruneCache_entries :=
  (pruneCache_entries COMPONENT_SHOULD_KEEP_ALIVE COMPONENT_KEPT_ALIVE).
Local Abbreviation pruneCache :=
  (pruneCache COMPONENT_SHOULD_KEEP_ALIVE COMPONENT_KEPT_ALIVE).
Local Abbreviation on_patterns_changed :=
  (on_patterns_changed COMPONENT_SHOULD_KEEP_ALIVE COMPONENT_KEPT_ALIVE).
Local Abbreviation getInnerChild := (getInnerChild SUSPENSE).
Local Abbreviation cacheSubtree := (cacheSubtree SUSPENSE).
Local Abbreviation exceeds := (exceeds parseInt).
Local Abbreviation limit := (limit parseInt).
Local Abbreviation render_children :=
  (render_children STATEFUL_COMPONENT SUSPENSE COMPONENT_SHOULD_KEEP_ALIVE
     COMPONENT_KEPT_ALIVE parseInt DEV).
Local Abbreviation render :=
  (render STATEFUL_COMPONENT SUSPENSE COMPONENT_SHOULD_KEEP_ALIVE
     COMPONENT_KEPT_ALIVE parseInt DEV).
Local Abbreviation render_and_cache :=
  (render_and_cache STATEFUL_COMPONENT SUSPENSE COMPONENT_SHOULD_KEEP_ALIVE
     COMPONENT_KEPT_ALIVE parseInt DEV).

(** Two states that differ in the node store and the unmount log only. *)
Definition same_closure (s s' : State) : Prop :=
  components s' = components s ∧ cache s' = cache s ∧ keys s' = keys s ∧
  current s' = current s ∧ pendingCacheKey s' = pendingCacheKey s ∧
  subTree s' = subTree s ∧ warnings s' = warnings s ∧
  dom (vnodes s') = dom (vnodes s).

Lemma same_closure_refl s : same_closure s s.
Proof. by repeat split. Qed.

Lemma same_closure_trans s1 s2 s3 :
  same_closure s1 s2 → same_closure s2 s3 → same_closure s1 s3.
Proof.
  intros (?&?&?&?&?&?&?&?) (?&?&?&?&?&?&?&?). repeat split; congruence.
Qed.

Definition valid (s : State) (v : nat) : Prop := is_Some (vnodes s !! v).

Lemma valid_same_closure s s' v : same_closure s s' → valid s v → valid s' v.
Proof.
  intros (_&_&_&_&_&_&_&Hdom). unfold valid.
  rewrite <-!elem_of_dom. by rewrite Hdom.
Qed.

Lemma get_vnode_valid s v : valid s v → ∃ n, get_vnode s v = Ok n ∧ vnodes s !! v = Some n.
Proof. intros [n Hn]. exists n. unfold get_vnode. by rewrite Hn. Qed.

Lemma get_vnode_Ok s v n : get_vnode s v = Ok n → vnodes s !! v = Some n.
Proof. unfold get_vnode. destruct (vnodes s !! v); [by intros [= ->]|done]. Qed.

Lemma resetShapeFlag_valid v s :
  valid s v → ∃ s', resetShapeFlag v s = Ok s' ∧ same_closure s s' ∧
                    unmounted s' = unmounted s ∧
                    ∀ v', v' ≠ v → vnodes s' !! v' = vnodes s !! v'.
Proof.
  intros Hv. destruct (get_vnode_valid _ _ Hv) as (n & Hg & Hn).
  unfold KeepAlive.resetShapeFlag. rewrite Hg. simpl.
  eexists. split; [done|]. split; [|split; [done|]].
  - repeat split; simpl. rewrite dom_insert_L.
    apply elem_of_dom_2 in Hn. apply set_eq. intros x.
    rewrite elem_of_union, elem_of_singleton. split; [|by right].
    by intros [->|].
  - intros v' Hne. simpl. by rewrite lookup_insert_ne.
Qed.

Lemma resetShapeFlag_Ok v s s' :
  resetShapeFlag v s = Ok s' →
  components s' = components s ∧ cache s' = cache s ∧ keys s' = keys s ∧
  pendingCacheKey s' = pendingCacheKey s.
Proof.
  unfold KeepAlive.resetShapeFlag. destruct (get_vnode s v); simpl; [|done..].
  by intros [= <-].
Qed.

Lemma unmount_valid v s :
  valid s v → ∃ s', unmount v s = Ok s' ∧ same_closure s s' ∧
                    ∀ v', v' ≠ v → vnodes s' !! v' = vnodes s !! v'.
Proof.
  intros Hv. destruct (resetShapeFlag_valid _ _ Hv) as (s1 & Hr & Hs & _ & Hframe).
  unfold KeepAlive.unmount. rewrite Hr. simpl. eexists. split; [done|].
  split; [|done].
  destruct Hs as (?&?&?&?&?&?&?&?). by repeat split.
Qed.

Lemma unmount_Ok v s s' :
  unmount v s = Ok s' →
  components s' = components s ∧ cache s' = cache s ∧ keys s' = keys s ∧
  pendingCacheKey s' = pendingCacheKey s.
Proof.
  unfold KeepAlive.unmount.
  destruct (resetShapeFlag v s) as [s1| |] eqn:Hr; simpl; [|done..].
  intros [= <-]. simpl. by apply (resetShapeFlag_Ok v).
Qed.

(** [pruneCacheEntry] removes the key from both collections, and needs the
    key to be cached. *)
Lemma pruneCacheEntry_Ok k s s' :
  pruneCacheEntry k s = Ok s' →
  is_Some (map_get k (cache s)) ∧
  keys s' = set_delete k (keys s) ∧ cache s' = map_delete k (cache s) ∧
  components s' = components s ∧ pendingCacheKey s' = pendingCacheKey s.
Proof.
  unfold KeepAlive.pruneCacheEntry.
  destruct (map_get k (cache s)) as [cached|]; [|done].
  destruct (get_vnode s cached) as [cn| |]; simpl; [|done..].
  intros Hs'. split; [done|].
  assert (∃ s1, Ok s' = Ok (set_keys (set_delete k (keys s1))
                              (set_cache (map_delete k (cache s1)) s1)) ∧
                components s1 = components s ∧ cache s1 = cache s ∧
                keys s1 = keys s ∧ pendingCacheKey s1 = pendingCacheKey s)
    as (s1 & [= ->] & Hc & Hca & Hk & Hp).
  { destruct (current s) as [cur|].
    - destruct (get_vnode s cur) as [curn| |]; simpl in Hs'; [|done..].
      case_decide.
      + destruct (unmount cached s) as [s1| |] eqn:Hu; simpl in Hs'; [|done..].
        exists s1. split; [done|]. by apply unmount_Ok in Hu.
      + destruct (resetShapeFlag cur s) as [s1| |] eqn:Hu; simpl in Hs'; [|done..].
        exists s1. split; [done|]. by apply resetShapeFlag_Ok in Hu.
    - destruct (unmount cached s) as [s1| |] eqn:Hu; simpl in Hs'; [|done..].
      exists s1. split; [done|]. by apply unmount_Ok in Hu. }
  simpl. by rewrite Hk, Hca.
Qed.

Lemma pruneCacheEntry_valid k s cached :
  map_get k (cache s) = Some cached →
  valid s cached →
  (∀ c, current s = Some c → valid s c) →
  ∃ s1, pruneCacheEntry k s =
          Ok (set_keys (set_delete k (keys s1))
                (set_cache (map_delete k (cache s1)) s1)) ∧
        same_closure s s1 ∧
        ∀ v', v' ≠ cached → current s ≠ Some v' →
              vnodes s1 !! v' = vnodes s !! v'.
Proof.
  intros Hk Hv Hcur. unfold KeepAlive.pruneCacheEntry. rewrite Hk.
  destruct (get_vnode_valid _ _ Hv) as (cn & -> & _). simpl.
  assert (∃ s1, match current s with
                | Some cur =>
                    get_vnode s cur ≫= λ curn,
                      if decide (type cn ≠ type curn) then unmount cached s
                      else resetShapeFlag cur s
                | None => unmount cached s
                end = Ok s1 ∧ same_closure s s1 ∧
                ∀ v', v' ≠ cached → current s ≠ Some v' →
                      vnodes s1 !! v' = vnodes s !! v') as (s1 & -> & Hs1 & Hf).
  { destruct (current s) as [cur|].
    - destruct (get_vnode_valid _ _ (Hcur _ eq_refl)) as (curn & -> & _). simpl.
      case_decide.
      + destruct (unmount_valid cached s Hv) as (s1 & ? & ? & Hf).
        exists s1. split; [done|]. split; [done|]. intros v' ? _. by apply Hf.
      + destruct (resetShapeFlag_valid cur s (Hcur _ eq_refl)) as (s1 & ? & ? & _ & Hf).
        exists s1. split; [done|]. split; [done|]. intros v' _ ?. apply Hf. congruence.
    - destruct (unmount_valid cached s Hv) as (s1 & ? & ? & Hf).
      exists s1. split; [done|]. split; [done|]. intros v' ? _. by apply Hf. }
  simpl. eauto.
Qed.

(** Case analysis on the outcome of a monadic bind in a hypothesis. *)
Ltac bind_ok H :=
  match type of H with
  | mbind _ ?m = Ok _ =>
      let E := fresh "E" in
      destruct m eqn:E; simpl in H; [|discriminate H..]
  end.

(** *** Allocation of the slot's nodes *)

(** [s1] is [s] with more nodes in the store. *)
Definition extends (s s1 : State) : Prop :=
  components s1 = components s ∧ cache s1 = cache s ∧ keys s1 = keys s ∧
  current s1 = current s ∧ pendingCacheKey s1 = pendingCacheKey s ∧
  unmounted s1 = unmounted s ∧
  vnodes s ⊆ vnodes s1.

Lemma extends_refl s : extends s s.
Proof. by repeat split. Qed.

Lemma extends_trans s1 s2 s3 : extends s1 s2 → extends s2 s3 → extends s1 s3.
Proof.
  intros (?&?&?&?&?&?&?) (?&?&?&?&?&?&?).
  repeat split; try congruence. by etrans.
Qed.

Lemma extends_valid s s1 v : extends s s1 → valid s v → valid s1 v.
Proof.
  intros (_&_&_&_&_&_&Hsub) [n Hn]. exists n.
  by eapply lookup_weaken.
Qed.

Lemma alloc_vnode_spec n s :
  extends s (alloc_vnode n s).2 ∧
  vnodes s !! (alloc_vnode n s).1 = None ∧
  vnodes (alloc_vnode n s).2 !! (alloc_vnode n s).1 = Some n.
Proof.
  unfold alloc_vnode. simpl.
  assert (Hfresh : vnodes s !! fresh (dom (vnodes s)) = None).
  { apply not_elem_of_dom. apply is_fresh. }
  split; [|split; [done|by rewrite lookup_insert_eq]].
  repeat split. by apply insert_subseteq.
Qed.

(** The fields of the root of a tree. *)
Definition root (t : VNodeTree) : nat * option CacheKey * Z :=
  match t with
  | Node ty k flags | Boundary ty k flags _ => (ty, k, flags)
  end.

Lemma alloc_tree_spec t s :
  extends s (alloc_tree t s).2 ∧
  vnodes s !! (alloc_tree t s).1 = None ∧
  ∃ n, vnodes (alloc_tree t s).2 !! (alloc_tree t s).1 = Some n ∧
       (type n, key n, shapeFlag n) = root t ∧
       el n = None ∧ component n = None ∧
       match t with
       | Node _ _ _ => ssContent n = None
       | Boundary _ _ _ c =>
           ∃ v m, ssContent n = Some v ∧ v ≠ (alloc_tree t s).1 ∧
                  vnodes s !! v = None ∧
                  vnodes (alloc_tree t s).2 !! v = Some m ∧
                  (type m, key m, shapeFlag m) = root c ∧
                  el m = None ∧ component m = None
       end.
Proof.
  revert s. induction t as [ty k flags|ty k flags c IH]; intros s.
  - cbn [alloc_tree].
    destruct (alloc_vnode_spec
                {| type := ty; key := k; shapeFlag := flags; el := None;
                   component := None; ssContent := None |} s) as (He & Hn & Hs).
    split; [done|]. split; [done|]. eexists. split; [exact Hs|]. done.
  - cbn [alloc_tree]. specialize (IH s).
    destruct (alloc_tree c s) as [v s1]. simpl in IH.
    destruct IH as (He1 & Hv & m & Hm & Hroot & Hel & Hcomp & _).
    destruct (alloc_vnode_spec
                {| type := ty; key := k; shapeFlag := flags; el := None;
                   component := None; ssContent := Some v |} s1) as (He & Hn & Hs).
    set (r := alloc_vnode _ s1) in *.
    split; [by eapply extends_trans|]. split.
    { destruct He1 as (_&_&_&_&_&_&Hsub).
      destruct (vnodes s !! r.1) as [x|] eqn:Hx; [|done].
      eapply lookup_weaken in Hx; [|done]. congruence. }
    eexists. split; [exact Hs|]. repeat split.
    exists v, m. split; [done|]. split; [congruence|]. split; [done|].
    split; [|done].
    destruct He as (_&_&_&_&_&_&Hsub). by eapply lookup_weaken.
Qed.

(** The node that the render function goes on with, behind its first
    tests: the child itself, or the content of a suspense boundary. *)
Definition inner_node (t : VNodeTree) : option (nat * option CacheKey * Z) :=
  match t with
  | Node ty k flags =>
      if (Z.land flags SUSPENSE =? 0)%Z then
        if (Z.land flags STATEFUL_COMPONENT =? 0)%Z then None
        else Some (ty, k, flags)
      else None
  | Boundary ty k flags c =>
      if (Z.land flags SUSPENSE =? 0)%Z then
        if (Z.land flags STATEFUL_COMPONENT =? 0)%Z then None
        else Some (ty, k, flags)
      else Some (root c)
  end.

Lemma alloc_child t s ty k f :
  inner_node t = Some (ty, k, f) →
  ∃ raw rawn vnode n s1,
    alloc_children [Some t] s = ([CVNode raw], s1) ∧
    extends s s1 ∧
    vnodes s1 !! raw = Some rawn ∧
    (Z.land (shapeFlag rawn) STATEFUL_COMPONENT =? 0)%Z &&
      (Z.land (shapeFlag rawn) SUSPENSE =? 0)%Z = false ∧
    getInnerChild raw s1 = Ok vnode ∧
    vnodes s1 !! vnode = Some n ∧
    vnodes s !! vnode = None ∧
    type n = ty ∧ key n = k ∧ shapeFlag n = f ∧
    el n = None ∧ component n = None ∧
    (type rawn, key rawn, shapeFlag rawn) = root t.
Proof.
  intros Hinner. cbn [alloc_children].
  destruct (alloc_tree_spec t s) as (He & Hfresh & rawn & Hraw & Hroot & Hel & Hcomp & Hcontent).
  destruct (alloc_tree t s) as [raw s1]. simpl in *.
  assert (Hget : get_vnode s1 raw = Ok rawn) by (unfold get_vnode; by rewrite Hraw).
  pose proof Hroot as Hroot'.
  destruct t as [ty0 k0 flags|ty0 k0 flags c]; simpl in Hinner, Hroot;
    injection Hroot as Hty Hk Hf.
  - destruct (Z.land flags SUSPENSE =? 0)%Z eqn:Hs; [|done].
    destruct (Z.land flags STATEFUL_COMPONENT =? 0)%Z eqn:Hst; [done|].
    injection Hinner as <- <- <-.
    exists raw, rawn, raw, rawn, s1.
    split; [done|]. split; [done|]. split; [done|].
    split; [by rewrite Hf, Hst|].
    split.
    { unfold KeepAlive.getInnerChild. rewrite Hget. simpl. by rewrite Hf, Hs. }
    repeat split; done.
  - destruct (Z.land flags SUSPENSE =? 0)%Z eqn:Hs.
    + destruct (Z.land flags STATEFUL_COMPONENT =? 0)%Z eqn:Hst; [done|].
      injection Hinner as <- <- <-.
      exists raw, rawn, raw, rawn, s1.
      split; [done|]. split; [done|]. split; [done|].
      split; [by rewrite Hf, Hst|].
      split.
      { unfold KeepAlive.getInnerChild. rewrite Hget. simpl. by rewrite Hf, Hs. }
      repeat split; done.
    + destruct Hcontent as (v & m & Hss & Hne & Hvfresh & Hm & Hmroot & Hmel & Hmcomp).
      injection Hinner as Hinner. rewrite Hinner in Hmroot.
      injection Hmroot as Hmty Hmk Hmf.
      exists raw, rawn, v, m, s1.
      split; [done|]. split; [done|]. split; [done|].
      split; [by rewrite Hf, Hs, andb_false_r|].
      split.
      { unfold KeepAlive.getInnerChild. rewrite Hget. simpl. by rewrite Hf, Hs, Hss. }
      repeat split; try done.
Qed.

Lemma alloc_children_extends ts s : extends s (alloc_children ts s).2.
Proof.
  revert s. induction ts as [|t ts IH]; intros s; cbn [alloc_children].
  - apply extends_refl.
  - destruct t as [t|].
    + pose proof (alloc_tree_spec t s) as [He _].
      destruct (alloc_tree t s) as [v s1]. specialize (IH s1).
      destruct (alloc_children ts s1) as [cs s2]. simpl in *.
      by eapply extends_trans.
    + specialize (IH s). by destruct (alloc_children ts s) as [cs s2].
Qed.

(** *** What a render does to [keys], [cache] and [pendingCacheKey] *)

Definition interaction (props : KeepAliveProps) (s s1 : State) : Prop :=
  (keys s1 = keys s ∧ cache s1 = cache s ∧ pendingCacheKey s1 = pendingCacheKey s) ∨
  ∃ k, pendingCacheKey s1 = Some k ∧
    ((is_Some (map_get k (cache s)) ∧
      keys s1 = set_add k (set_delete k (keys s)) ∧ cache s1 = cache s) ∨
     (map_get k (cache s) = None ∧
      exceeds (max props) (length (set_add k (keys s))) = false ∧
      keys s1 = set_add k (keys s) ∧ cache s1 = cache s) ∨
     (map_get k (cache s) = None ∧
      ∃ o, head (set_add k (keys s)) = Some o ∧
           is_Some (map_get o (cache s)) ∧
           keys s1 = set_delete o (set_add k (keys s)) ∧
           cache s1 = map_delete o (cache s))).

Lemma render_children_Ok props children s out s1 :
  render_children props children s = Ok (out, s1) → interaction props s s1.
Proof.
  unfold KeepAlive.render_children. intros H.
  case_bool_decide.
  { injection H as _ <-. left. by destruct DEV. }
  destruct (head children) as [[raw|]|]; [|injection H as _ <-; by left..].
  bind_ok H.
  destruct (_ && _); [injection H as _ <-; by left|].
  bind_ok H. bind_ok H.
  destruct (ineligible _ _); [injection H as _ <-; by left|].
  set (k := match key a1 with Some k => k | None => KComponent (type a1) end) in *.
  right. exists k.
  destruct (map_get k (cache s)) as [cached|] eqn:Hget.
  - bind_ok H. bind_ok E2. injection E2 as <-.
    bind_ok H. injection H as _ <-. simpl.
    split; [done|]. left. eauto.
  - destruct (exceeds _ _) eqn:Hex.
    + destruct (head _) as [o|] eqn:Ho; simpl in H; [|done].
      bind_ok H. bind_ok H. injection H as _ <-. simpl.
      apply pruneCacheEntry_Ok in E2 as (Hin & Hk & Hc & _ & Hp). simpl in *.
      split; [done|]. right. right. split; [done|]. exists o. eauto.
    + simpl in H. bind_ok H. injection H as _ <-. simpl.
      split; [done|]. right. left. eauto.
Qed.

Lemma render_Ok props slots s out s1 :
  render props slots s = Ok (out, s1) →
  interaction props (set_pendingCacheKey None s) s1.
Proof.
  unfold KeepAlive.render. destruct slots as [ts|]; [|intros [= _ <-]; by left].
  pose proof (alloc_children_extends ts (set_pendingCacheKey None s)) as He.
  destruct (alloc_children ts (set_pendingCacheKey None s)) as [children s0].
  intros H%render_children_Ok.
  destruct He as (_ & Hc & Hk & _ & Hp & _). simpl in *.
  unfold interaction in *. simpl. by rewrite <-Hc, <-Hk, <-Hp.
Qed.

Lemma cacheSubtree_Ok s s' :
  cacheSubtree s = Ok s' →
  keys s' = keys s ∧ pendingCacheKey s' = pendingCacheKey s ∧
  match pendingCacheKey s with
  | Some k => ∃ v, cache s' = map_set k v (cache s)
  | None => cache s' = cache s
  end.
Proof.
  unfold KeepAlive.cacheSubtree. destruct (pendingCacheKey s) as [k|] eqn:Hp.
  - destruct (subTree s) as [t|]; [|done]. intros H. bind_ok H.
    injection H as <-. simpl. split; [done|]. split; [done|]. eauto.
  - by intros [= <-].
Qed.

(** Between a render and its hook, [keys] holds the cached keys and the
    pending one. *)
Lemma render_keeps_pending props slots s out s1 :
  same_keys s →
  render props slots s = Ok (out, s1) →
  ∀ k, k ∈ keys s1 ↔ is_Some (map_get k (cache s1)) ∨ pendingCacheKey s1 = Some k.
Proof.
  intros Hsame H%render_Ok k'. unfold same_keys in Hsame.
  destruct H as [(Hk & Hc & Hp)|(k & Hp & [(Hin & Hk & Hc)|[(Hin & _ & Hk & Hc)|(Hin & o & _ & Ho & Hk & Hc)]])];
    simpl in *; rewrite Hk, Hc, Hp.
  - rewrite Hsame. split; [by left|]. by intros [?|?].
  - rewrite elem_of_set_add, elem_of_set_delete, Hsame.
    split.
    + intros [->|[_ ?]]; [by right|by left].
    + intros [?|[= ->]]; [|by left].
      destruct (decide (k' = k)); [by left|by right].
  - rewrite elem_of_set_add, Hsame. split.
    + intros [->|?]; [by right|by left].
    + intros [?|[= ->]]; [by right|by left].
  - rewrite elem_of_set_delete, elem_of_set_add, Hsame, map_get_delete.
    assert (o ≠ k) by (intros ->; rewrite Hin in Ho; by destruct Ho).
    split.
    + intros [Hne [->|?]]; [by right|]. left. by rewrite decide_False.
    + intros [Hs|[= ->]].
      * case_decide; [by destruct Hs|]. split; [congruence|by right].
      * split; [congruence|by left].
Qed.

Lemma render_and_cache_same_keys props slots s out s' :
  same_keys s →
  render_and_cache props slots s = Ok (out, s') →
  same_keys s'.
Proof.
  intros Hsame H. unfold KeepAlive.render_and_cache in H.
  destruct (render props slots s) as [[out1 s1]| |] eqn:Hr; simpl in H; [|done..].
  bind_ok H. injection H as _ <-.
  pose proof (render_keeps_pending _ _ _ _ _ Hsame Hr) as Hweak.
  apply cacheSubtree_Ok in E as (Hk & _ & Hc). simpl in *.
  intros k. rewrite Hk, Hweak.
  destruct (pendingCacheKey s1) as [k0|].
  - destruct Hc as [v ->]. rewrite map_get_set. case_decide.
    + subst. split; [by eauto|]. by right.
    + split; [|by left]. intros [?|[= ?]]; [done|congruence].
  - rewrite Hc. split; [by intros [?|?]|by left].
Qed.

(** *** Renders of a child that reaches the cache *)

(** The name that the render function tests: of the component, or of what
    an async wrapper has resolved to. *)
Definition child_name (s : State) (ty : nat) : option string :=
  getComponentName s
    (if match components s !! ty with
        | Some c => asyncLoader c
        | None => false
        end
     then components s !! ty ≫= asyncResolved
     else Some ty).

(** The key set after a render of a child with key [k]: promoted on a hit,
    appended on a miss, the oldest key dropped when the set got too large. *)
Definition touch (m : option MaxProp) (k : CacheKey) (ks : list CacheKey) :
    list CacheKey :=
  if decide (k ∈ ks) then set_delete k ks ++ [k]
  else if exceeds m (S (length ks)) then tail (ks ++ [k])
  else ks ++ [k].

Record wf (s : State) : Prop := {
  wf_keys : NoDup (keys s);
  wf_cache : NoDup (cache s).*1;
  wf_cached : ∀ k v, map_get k (cache s) = Some v → valid s v;
  wf_current : ∀ c, current s = Some c → valid s c
}.

Lemma get_vnode_lookup s v n : vnodes s !! v = Some n → get_vnode s v = Ok n.
Proof. unfold get_vnode. by intros ->. Qed.

Lemma render_eligible props t s ty k0 f :
  wf s → same_keys s →
  inner_node t = Some (ty, k0, f) →
  ineligible props (child_name s ty) = false →
  exceeds (max props) 1 = false →
  ∃ vnode s2 n2,
    render props (Some [Some t]) s = Ok (RChild (Some (CVNode vnode)), s2) ∧
    pendingCacheKey s2 = Some (default (KComponent ty) k0) ∧
    current s2 = Some vnode ∧
    components s2 = components s ∧
    keys s2 = touch (max props) (default (KComponent ty) k0) (keys s) ∧
    cache s2 =
      (if decide (default (KComponent ty) k0 ∈ keys s) then cache s
       else if exceeds (max props) (S (length (keys s))) then
         match head (keys s) with
         | Some o => map_delete o (cache s)
         | None => cache s
         end
       else cache s) ∧
    vnodes s !! vnode = None ∧
    vnodes s2 !! vnode = Some n2 ∧
    shapeFlag n2 =
      Z.lor (if decide (default (KComponent ty) k0 ∈ keys s)
             then Z.lor f COMPONENT_KEPT_ALIVE else f)
        COMPONENT_SHOULD_KEEP_ALIVE ∧
    (∀ v, valid s v → valid s2 v) ∧
    (∀ cached cn, map_get (default (KComponent ty) k0) (cache s) = Some cached →
                  vnodes s !! cached = Some cn →
                  el n2 = el cn ∧ component n2 = component cn).
Proof.
  intros Hwf Hsame Hinner Hname Hmax.
  set (k := default (KComponent ty) k0).
  destruct (alloc_child _ (set_pendingCacheKey None s) _ _ _ Hinner)
    as (raw & rawn & vnode & n & s1 & Halloc & He & Hraw & Hflags & Hinnerchild &
        Hn & Hfresh & Hty & Hk & Hf & Hel & Hcomp & _).
  destruct He as (Hc1 & Hca1 & Hk1 & Hcur1 & Hp1 & Hu1 & Hsub). simpl in *.
  assert (Hvalid1 : ∀ v, valid s v → valid s1 v).
  { intros v [x Hx]. exists x. by eapply lookup_weaken. }
  assert (Hkey : match key n with Some k => k | None => KComponent (type n) end = k).
  { rewrite Hk, Hty. unfold k. by destruct k0. }
  assert (Hnm : ineligible props
            (getComponentName s1
               (if isAsyncWrapper s1 n
                then components s1 !! type n ≫= asyncResolved
                else Some (type n))) = false).
  { unfold isAsyncWrapper, getComponentName. rewrite Hc1, Hty. exact Hname. }
  unfold KeepAlive.render. rewrite Halloc.
  unfold KeepAlive.render_children. cbn [length head].
  rewrite bool_decide_eq_false_2 by lia.
  rewrite (get_vnode_lookup _ _ _ Hraw). simpl. rewrite Hflags.
  rewrite Hinnerchild. simpl. rewrite (get_vnode_lookup _ _ _ Hn). simpl.
  rewrite Hnm, Hkey, Hca1, Hk1.
  destruct (map_get k (cache s)) as [cached|] eqn:Hget.
  - (* hit *)
    assert (Hin : k ∈ keys s) by (apply Hsame; by rewrite Hget).
    destruct (Hvalid1 _ (wf_cached _ Hwf _ _ Hget)) as [cn Hcn].
    rewrite (get_vnode_lookup (set_pendingCacheKey (Some k) s1) cached cn) by done.
    simpl. unfold get_vnode at 1. simpl. rewrite lookup_insert_eq. simpl.
    eexists vnode, _, _. split; [reflexivity|]. simpl.
    rewrite insert_insert_eq, lookup_insert_eq.
    unfold touch. rewrite !decide_True by done.
    split; [done|]. split; [done|]. split; [done|].
    split.
    { unfold set_add. rewrite decide_False; [done|].
      rewrite elem_of_set_delete. tauto. }
    split; [done|]. split; [done|]. split; [done|].
    split; [simpl; by rewrite Hf|].
    split.
    { intros v Hv. destruct (Hvalid1 _ Hv) as [x Hx]. unfold valid. simpl.
      destruct (decide (vnode = v)) as [->|Hne];
        [rewrite lookup_insert_eq|rewrite lookup_insert_ne by done]; eauto. }
    intros cached' cn' [= <-] Hcn'. simpl.
    eapply lookup_weaken in Hcn'; [|done]. by simplify_eq.
  - (* miss *)
    assert (Hnin : k ∉ keys s).
    { intros Hin%Hsame. rewrite Hget in Hin. by destruct Hin. }
    unfold touch. rewrite !decide_False by done.
    assert (Hadd : set_add k (keys s) = keys s ++ [k]).
    { unfold set_add. by rewrite decide_False. }
    rewrite Hadd.
    rewrite length_app. cbn [length]. rewrite Nat.add_1_r.
    destruct (exceeds (max props) (S (length (keys s)))) eqn:Hex.
    + destruct (keys s) as [|o rest] eqn:Hkeys.
      { simpl in Hex. congruence. }
      cbn [head app tail].
      assert (Ho : is_Some (map_get o (cache s))).
      { apply Hsame. rewrite Hkeys. apply elem_of_cons. by left. }
      destruct Ho as [co Hco].
      set (sM := set_keys (o :: rest ++ [k]) (set_pendingCacheKey (Some k) s1)).
      destruct (pruneCacheEntry_valid o sM co) as (sP & -> & Hclo & Hframe).
      { simpl. by rewrite Hca1. }
      { apply Hvalid1. by eapply wf_cached. }
      { simpl. rewrite Hcur1. intros c Hc. apply Hvalid1. by eapply wf_current. }
      destruct Hclo as (HcP & HcaP & HkP & HcurP & HpP & _ & _ & HdomP).
      simpl in *.
      assert (HnP : vnodes sP !! vnode = Some n).
      { rewrite Hframe; [done| |].
        - intros ->. destruct (wf_cached _ Hwf _ _ Hco) as [x Hx]. congruence.
        - rewrite Hcur1. intros Hc.
          destruct (wf_current _ Hwf _ Hc) as [x Hx]. congruence. }
      unfold get_vnode at 1. simpl. rewrite HnP. simpl.
      eexists vnode, _, _. split; [reflexivity|]. simpl.
      rewrite lookup_insert_eq, HkP, HcaP, HpP, HcP, Hca1.
      split; [done|]. split; [done|]. split; [done|].
      split.
      { pose proof (wf_keys _ Hwf) as Hnd. rewrite Hkeys in Hnd.
        apply NoDup_cons in Hnd as [Ho Hnd].
        change (o :: rest ++ [k]) with (o :: (rest ++ [k])).
        apply set_delete_head. rewrite elem_of_app, list_elem_of_singleton.
        intros [?| ->]; [done|]. apply Hnin. apply elem_of_cons. by left. }
      split; [done|]. split; [done|]. split; [done|].
      split; [simpl; by rewrite Hf|].
      split; [|done].
      intros v Hv. apply Hvalid1 in Hv. unfold valid in *. simpl.
      destruct (decide (vnode = v)) as [->|Hne];
        [rewrite lookup_insert_eq|rewrite lookup_insert_ne by done]; [eauto|].
      rewrite <-elem_of_dom in *. by rewrite HdomP.
    + simpl. unfold get_vnode at 1. simpl. rewrite Hn. simpl.
      eexists vnode, _, _. split; [reflexivity|]. simpl.
      rewrite lookup_insert_eq.
      split; [done|]. split; [done|]. split; [done|]. split; [done|].
      split; [done|]. split; [done|]. split; [done|].
      split; [simpl; by rewrite Hf|].
      split; [|done].
      intros v Hv. apply Hvalid1 in Hv. unfold valid in *. simpl.
      destruct (decide (vnode = v)) as [->|Hne];
        [rewrite lookup_insert_eq|rewrite lookup_insert_ne by done]; eauto.
Qed.

(** *** Pruning *)

Lemma pruneCacheEntry_same_keys k s s' :
  same_keys s → pruneCacheEntry k s = Ok s' → same_keys s'.
Proof.
  unfold same_keys. intros Hsame (_ & Hk & Hc & _)%pruneCacheEntry_Ok k'.
  rewrite Hk, Hc, elem_of_set_delete, map_get_delete, Hsame.
  case_decide; [subst|]; split.
  - by intros [? _].
  - by intros [? ?].
  - by intros [_ ?].
  - intros ?. split; [congruence|done].
Qed.

Lemma pruneCache_entries_Ok filter entries s s' :
  pruneCache_entries filter entries s = Ok s' →
  ∃ ks, keys s' = foldl (λ acc k, set_delete k acc) (keys s) ks ∧
        cache s' = foldl (λ acc k, map_delete k acc) (cache s) ks.
Proof.
  revert s. induction entries as [|[k v] entries IH]; intros s; simpl.
  - intros [= <-]. by exists [].
  - intros H. bind_ok H. bind_ok H.
    apply IH in H as (ks & Hk & Hc).
    destruct (name_truthy _) as [nm|]; [|injection E0 as <-; by exists ks].
    destruct (match filter with Some f => negb (f nm) | None => true end);
      [|injection E0 as <-; by exists ks].
    apply pruneCacheEntry_Ok in E0 as (_ & Hk0 & Hc0 & _).
    exists (k :: ks). simpl. by rewrite <-Hk0, <-Hc0.
Qed.

Lemma on_patterns_changed_Ok props s s' :
  on_patterns_changed props s = Ok s' →
  ∃ ks, keys s' = foldl (λ acc k, set_delete k acc) (keys s) ks ∧
        cache s' = foldl (λ acc k, map_delete k acc) (cache s) ks.
Proof.
  unfold KeepAlive.on_patterns_changed. intros H. bind_ok H.
  assert (∃ ks, keys a = foldl (λ acc k, set_delete k acc) (keys s) ks ∧
                cache a = foldl (λ acc k, map_delete k acc) (cache s) ks)
    as (ks1 & Hk1 & Hc1).
  { destruct (pattern_truthy (include props)).
    - by apply pruneCache_entries_Ok in E.
    - injection E as <-. by exists []. }
  assert (∃ ks, keys s' = foldl (λ acc k, set_delete k acc) (keys a) ks ∧
                cache s' = foldl (λ acc k, map_delete k acc) (cache a) ks)
    as (ks2 & Hk2 & Hc2).
  { destruct (pattern_truthy (exclude props)).
    - by apply pruneCache_entries_Ok in H.
    - injection H as <-. by exists []. }
  exists (ks1 ++ ks2). by rewrite !foldl_app, <-Hk1, <-Hc1.
Qed.

(** Deleting the same keys from both collections. *)
Lemma delete_all_same_keys ks (keys0 : list CacheKey) (cache0 : list (CacheKey * nat)) :
  (∀ k, k ∈ keys0 ↔ is_Some (map_get k cache0)) →
  ∀ k, k ∈ foldl (λ acc k, set_delete k acc) keys0 ks ↔
       is_Some (map_get k (foldl (λ acc k, map_delete k acc) cache0 ks)).
Proof.
  revert keys0 cache0. induction ks as [|k0 ks IH]; intros keys0 cache0 H; [done|].
  simpl. apply IH. intros k.
  rewrite elem_of_set_delete, map_get_delete, H.
  case_decide; [subst|]; split.
  - by intros [? _].
  - by intros [? ?].
  - by intros [_ ?].
  - intros ?. split; [congruence|done].
Qed.

Lemma delete_all_length ks (keys0 : list CacheKey) :
  length (foldl (λ acc k, set_delete k acc) keys0 ks) ≤ length keys0.
Proof.
  revert keys0. induction ks as [|k0 ks IH]; intros keys0; simpl; [done|].
  etrans; [apply IH|]. apply length_filter.
Qed.

Lemma delete_all_NoDup ks (keys0 : list CacheKey) :
  NoDup keys0 → NoDup (foldl (λ acc k, set_delete k acc) keys0 ks).
Proof.
  revert keys0. induction ks as [|k0 ks IH]; intros keys0 Hnd; simpl; [done|].
  apply IH. by apply NoDup_set_delete.
Qed.

Lemma delete_all_fst ks (cache0 : list (CacheKey * nat)) :
  (foldl (λ acc k, map_delete k acc) cache0 ks).*1 =
  foldl (λ acc k, set_delete k acc) (cache0.*1) ks.
Proof.
  revert cache0. induction ks as [|k0 ks IH]; intros cache0; simpl; [done|].
  by rewrite IH, map_delete_fst.
Qed.

(** *** The size bound *)

Lemma exceeds_mono m a b : b ≤ a → exceeds m a = false → exceeds m b = false.
Proof.
  unfold KeepAlive.exceeds. destruct (limit m) as [n|]; [|done].
  rewrite !bool_decide_eq_false. lia.
Qed.

(** The collections agree, hold no key twice, and are within the bound. *)
Definition within (props : KeepAliveProps) (s : State) : Prop :=
  same_keys s ∧ NoDup (keys s) ∧ NoDup (cache s).*1 ∧
  exceeds (max props) (length (keys s)) = false.

Lemma within_cache_size props s : within props s → length (cache s) ≤ length (keys s).
Proof.
  intros (Hsame & _ & Hnd & _). rewrite <-(length_fmap fst (cache s)).
  apply submseteq_length, NoDup_submseteq; [done|].
  intros k Hk. apply Hsame.
  destruct (map_get k (cache s)) eqn:Hg; [done|].
  by apply map_get_None in Hg.
Qed.

Lemma NoDup_map_set k v (m : list (CacheKey * nat)) :
  NoDup m.*1 → NoDup (map_set k v m).*1.
Proof.
  intros Hnd. rewrite map_set_fst. case_decide; [done|].
  apply NoDup_app. split; [done|]. split; [|apply NoDup_singleton].
  by intros k' Hin ->%list_elem_of_singleton.
Qed.

Lemma NoDup_map_delete k (m : list (CacheKey * nat)) :
  NoDup m.*1 → NoDup (map_delete k m).*1.
Proof. intros Hnd. rewrite map_delete_fst. by apply NoDup_set_delete. Qed.

Lemma length_promote k ks :
  NoDup ks → k ∈ ks → length (set_add k (set_delete k ks)) = length ks.
Proof.
  intros Hnd Hin. unfold set_add. rewrite decide_False.
  - rewrite length_app. simpl. rewrite <-(length_set_delete k ks) by done. lia.
  - rewrite elem_of_set_delete. tauto.
Qed.

Lemma render_and_cache_within props slots s out s' :
  within props s →
  render_and_cache props slots s = Ok (out, s') →
  within props s'.
Proof.
  intros (Hsame & Hnd & Hndc & Hex) H.
  split; [by eapply render_and_cache_same_keys|].
  unfold KeepAlive.render_and_cache in H.
  destruct (render props slots s) as [[out1 s1]| |] eqn:Hr; simpl in H; [|done..].
  bind_ok H. injection H as _ <-.
  apply cacheSubtree_Ok in E as (Hk & _ & Hc). simpl in *.
  apply render_Ok in Hr.
  assert (Hc' : NoDup (cache s1).*1 → NoDup (cache a).*1).
  { intros Hnd1. destruct (pendingCacheKey s1).
    - destruct Hc as [v ->]. by apply NoDup_map_set.
    - by rewrite Hc. }
  rewrite Hk.
  destruct Hr as [(Hk1 & Hc1 & Hp1)|(k & Hp1 & [(Hin & Hk1 & Hc1)|[(Hin & Hex1 & Hk1 & Hc1)|(Hin & o & Ho & Hoc & Hk1 & Hc1)]])];
    simpl in *; rewrite Hk1.
  - split; [done|]. split; [|done]. apply Hc'. by rewrite Hc1.
  - split; [by apply NoDup_set_add, NoDup_set_delete|].
    split; [apply Hc'; by rewrite Hc1|].
    rewrite length_promote; [done..|]. by apply Hsame.
  - split; [by apply NoDup_set_add|].
    split; [apply Hc'; by rewrite Hc1|done].
  - assert (Hnin : k ∉ keys s).
    { intros Hk'%Hsame. rewrite Hin in Hk'. by destruct Hk'. }
    split; [by apply NoDup_set_delete, NoDup_set_add|].
    split; [apply Hc'; rewrite Hc1; by apply NoDup_map_delete|].
    eapply exceeds_mono; [|exact Hex].
    assert (Hlen : S (length (set_delete o (set_add k (keys s)))) =
                   length (set_add k (keys s))).
    { apply length_set_delete; [by apply NoDup_set_add|].
      by eapply head_Some_elem_of. }
    unfold set_add in Hlen at 2. rewrite decide_False in Hlen by done.
    rewrite length_app in Hlen. simpl in Hlen. lia.
Qed.

Lemma on_patterns_changed_within props s s' :
  within props s →
  on_patterns_changed props s = Ok s' →
  within props s'.
Proof.
  intros (Hsame & Hnd & Hndc & Hex) (ks & Hk & Hc)%on_patterns_changed_Ok.
  split; [|split; [|split]].
  - intros k. rewrite Hk, Hc. by apply delete_all_same_keys.
  - rewrite Hk. by apply delete_all_NoDup.
  - rewrite Hc, delete_all_fst. by apply delete_all_NoDup.
  - rewrite Hk. eapply exceeds_mono; [apply delete_all_length|done].
Qed.

(** *** A render of a cache-eligible child, with its hook *)

(** The two keep-alive flags are not the suspense flag. *)
Hypothesis KEPT_ALIVE_not_SUSPENSE : Z.land COMPONENT_KEPT_ALIVE SUSPENSE = 0%Z.
Hypothesis SHOULD_KEEP_ALIVE_not_SUSPENSE :
  Z.land COMPONENT_SHOULD_KEEP_ALIVE SUSPENSE = 0%Z.

(** A child that the render function takes to the cache, under the key [k]:
    a component (or the content of a suspense boundary) whose name passes
    [include] and [exclude]. *)
Definition cache_child (props : KeepAliveProps) (s : State) (t : VNodeTree)
    (k : CacheKey) : Prop :=
  ∃ ty k0 f,
    inner_node t = Some (ty, k0, f) ∧
    Z.land f SUSPENSE = 0%Z ∧
    ineligible props (child_name s ty) = false ∧
    k = default (KComponent ty) k0.

Lemma cache_child_components props s s' t k :
  components s' = components s →
  cache_child props s t k → cache_child props s' t k.
Proof.
  intros Hc (ty & k0 & f & ? & ? & Hn & ?). exists ty, k0, f.
  repeat split; try done. unfold child_name, getComponentName in *.
  by rewrite Hc.
Qed.

Lemma NoDup_touch m k ks : NoDup ks → NoDup (touch m k ks).
Proof.
  intros Hnd. unfold touch. case_decide as Hin.
  - apply NoDup_app. split; [by apply NoDup_set_delete|].
    split; [|apply NoDup_singleton].
    intros k' Hk' ->%list_elem_of_singleton.
    apply elem_of_set_delete in Hk'. tauto.
  - assert (NoDup (ks ++ [k])).
    { apply NoDup_app. split; [done|]. split; [|apply NoDup_singleton].
      by intros k' Hk' ->%list_elem_of_singleton. }
    case_match; [|done].
    destruct ks; simpl; [apply NoDup_nil_2|]. by apply NoDup_cons in H as [_ ?].
Qed.

Lemma render_and_cache_eligible props t s k :
  wf s → same_keys s →
  cache_child props s t k →
  exceeds (max props) 1 = false →
  ∃ vnode s',
    render_and_cache props (Some [Some t]) s =
      Ok (RChild (Some (CVNode vnode)), s') ∧
    wf s' ∧ same_keys s' ∧
    components s' = components s ∧
    keys s' = touch (max props) k (keys s) ∧
    map_get k (cache s') = Some vnode ∧
    vnodes s !! vnode = None ∧
    (∀ cached cn, map_get k (cache s) = Some cached →
                  vnodes s !! cached = Some cn →
                  ∃ n', vnodes s' !! vnode = Some n' ∧
                        el n' = el cn ∧ component n' = component cn).
Proof.
  intros Hwf Hsame (ty & k0 & f & Hinner & Hf & Hname & ->) Hmax.
  destruct (render_eligible _ _ _ _ _ _ Hwf Hsame Hinner Hname Hmax)
    as (vnode & s2 & n2 & Hr & Hp & Hcur & Hcomp & Hk & Hc & Hfresh & Hn2 & Hflag &
        Hvalid & Hhit).
  set (k := default (KComponent ty) k0) in *.
  assert (Hinnerchild :
    getInnerChild vnode (commit (RChild (Some (CVNode vnode))) s2) = Ok vnode).
  { unfold KeepAlive.getInnerChild, get_vnode. simpl. rewrite Hn2. simpl.
    rewrite Hflag, Z.land_lor_distr_l, SHOULD_KEEP_ALIVE_not_SUSPENSE.
    case_decide; rewrite ?Z.land_lor_distr_l, ?KEPT_ALIVE_not_SUSPENSE, Hf; done. }
  assert (Hrc : render_and_cache props (Some [Some t]) s =
    Ok (RChild (Some (CVNode vnode)),
        set_cache (map_set k vnode (cache s2))
          (commit (RChild (Some (CVNode vnode))) s2))).
  { unfold KeepAlive.render_and_cache. rewrite Hr. simpl.
    unfold KeepAlive.cacheSubtree. simpl. rewrite Hp. simpl.
    fold (commit (RChild (Some (CVNode vnode))) s2). by rewrite Hinnerchild. }
  eexists vnode, _. split; [exact Hrc|].
  assert (Hcached : ∀ k' v, map_get k' (cache s2) = Some v → valid s v).
  { intros k' v. rewrite Hc.
    destruct (decide (k ∈ keys s)); [apply (wf_cached _ Hwf)|].
    destruct (exceeds (max props) (S (length (keys s)))); [|apply (wf_cached _ Hwf)].
    destruct (head (keys s)); [|apply (wf_cached _ Hwf)].
    rewrite map_get_delete. case_decide; [done|]. apply (wf_cached _ Hwf). }
  split; [|split; [by eapply render_and_cache_same_keys|]].
  { split; simpl.
    - rewrite Hk. apply NoDup_touch, (wf_keys _ Hwf).
    - apply NoDup_map_set. rewrite Hc.
      destruct (decide (k ∈ keys s)); [apply (wf_cache _ Hwf)|].
      destruct (exceeds (max props) (S (length (keys s)))); [|apply (wf_cache _ Hwf)].
      destruct (head (keys s)); [|apply (wf_cache _ Hwf)].
      apply NoDup_map_delete, (wf_cache _ Hwf).
    - intros k' v Hv. rewrite map_get_set in Hv. case_decide.
      + injection Hv as <-. by exists n2.
      + apply Hcached in Hv. by apply Hvalid.
    - intros c. rewrite Hcur. intros [= <-]. by exists n2. }
  simpl. split; [done|]. split; [done|].
  split; [by rewrite map_get_set, decide_True|].
  split; [done|].
  intros cached cn Hcached' Hcn. exists n2. split; [done|]. by eapply Hhit.
Qed.

(** A sequence of renders, each followed by its hook, one child at a time. *)
Fixpoint renders (props : KeepAliveProps) (ts : list VNodeTree) (s : State) :
    result State :=
  match ts with
  | [] => Ok s
  | t :: ts' =>
      r ← render_and_cache props (Some [Some t]) s;
      renders props ts' r.2
  end.

Lemma wf_initial cs : wf (initial cs).
Proof.
  split; simpl; try apply NoDup_nil_2; try done.
Qed.

Lemma same_keys_initial cs : same_keys (initial cs).
Proof.
  intros k. simpl. split; [by intros ?%elem_of_nil|by intros [? ?]].
Qed.

Lemma exceeds_limit props m n :
  limit (max props) = Some m →
  exceeds (max props) n = bool_decide (m < Z.of_nat n)%Z.
Proof. unfold KeepAlive.exceeds. by intros ->. Qed.

(** C1, as the code has it.  With a maximum that the render function takes
    as a bound [m] of at least one ([max] is truthy and [parseInt(max, 10)]
    is [m]), and from a state of the component in which [keys] and [cache]
    hold the same keys: a render of a cache-eligible child followed by its
    hook returns and caches the child under its key; on a cache hit the key
    is promoted to the end of [keys] and the new node takes over the mounted
    state of the cached one; on a miss the key is appended, and when [keys]
    was full exactly its first key is dropped.  Any render and hook from a
    state within [m] keeps [keys] and [cache] within [m].  With [m = 2],
    after three children with distinct keys the first is gone; the second is
    then a hit and the first a miss. *)
Theorem keepalive_lru props m :
  limit (max props) = Some m → (1 ≤ m)%Z →
  (∀ s t k, wf s → same_keys s → cache_child props s t k →
     ∃ vnode s',
       render_and_cache props (Some [Some t]) s =
         Ok (RChild (Some (CVNode vnode)), s') ∧
       wf s' ∧ same_keys s' ∧ components s' = components s ∧
       map_get k (cache s') = Some vnode ∧
       (∀ cached cn,
          map_get k (cache s) = Some cached → vnodes s !! cached = Some cn →
          keys s' = set_delete k (keys s) ++ [k] ∧
          ∃ n', vnodes s' !! vnode = Some n' ∧
                el n' = el cn ∧ component n' = component cn) ∧
       (map_get k (cache s) = None → (Z.of_nat (length (keys s)) < m)%Z →
        keys s' = keys s ++ [k]) ∧
       (map_get k (cache s) = None → (m ≤ Z.of_nat (length (keys s)))%Z →
        keys s' = tail (keys s) ++ [k])) ∧
  (∀ slots s out s',
     within props s → render_and_cache props slots s = Ok (out, s') →
     within props s' ∧
     (Z.of_nat (length (keys s')) ≤ m)%Z ∧ (Z.of_nat (length (cache s')) ≤ m)%Z) ∧
  (m = 2%Z →
   ∀ cs tA tB tC kA kB kC,
     cache_child props (initial cs) tA kA →
     cache_child props (initial cs) tB kB →
     cache_child props (initial cs) tC kC →
     kA ≠ kB → kA ≠ kC → kB ≠ kC →
     ∃ s3, renders props [tA; tB; tC] (initial cs) = Ok s3 ∧
           keys s3 = [kB; kC] ∧
           is_Some (map_get kB (cache s3)) ∧ map_get kA (cache s3) = None ∧
           (∃ s4, renders props [tB] s3 = Ok s4 ∧ keys s4 = [kC; kB]) ∧
           (∃ s5, renders props [tA] s3 = Ok s5 ∧ keys s5 = [kC; kA])).
Proof.
  intros Hlimit Hm.
  assert (Hmax : exceeds (max props) 1 = false).
  { rewrite (exceeds_limit _ _ _ Hlimit). apply bool_decide_eq_false. lia. }
  assert (Hstep : ∀ s t k, wf s → same_keys s → cache_child props s t k →
     ∃ vnode s',
       render_and_cache props (Some [Some t]) s =
         Ok (RChild (Some (CVNode vnode)), s') ∧
       wf s' ∧ same_keys s' ∧ components s' = components s ∧
       map_get k (cache s') = Some vnode ∧
       (∀ cached cn,
          map_get k (cache s) = Some cached → vnodes s !! cached = Some cn →
          keys s' = set_delete k (keys s) ++ [k] ∧
          ∃ n', vnodes s' !! vnode = Some n' ∧
                el n' = el cn ∧ component n' = component cn) ∧
       (map_get k (cache s) = None → (Z.of_nat (length (keys s)) < m)%Z →
        keys s' = keys s ++ [k]) ∧
       (map_get k (cache s) = None → (m ≤ Z.of_nat (length (keys s)))%Z →
        keys s' = tail (keys s) ++ [k])).
  { intros s t k Hwf Hsame Hchild.
    destruct (render_and_cache_eligible _ _ _ _ Hwf Hsame Hchild Hmax)
      as (vnode & s' & Hr & Hwf' & Hsame' & Hc & Hk & Hget & _ & Hhit).
    exists vnode, s'. split; [done|]. split; [done|]. split; [done|].
    split; [done|]. split; [done|].
    assert (Hmiss : map_get k (cache s) = None → k ∉ keys s).
    { intros Hnone Hin%Hsame. rewrite Hnone in Hin. by destruct Hin. }
    rewrite Hk. unfold touch. rewrite (exceeds_limit _ _ _ Hlimit).
    split; [|split].
    - intros cached cn Hcached Hcn. split; [|by eapply Hhit].
      rewrite decide_True; [done|]. apply Hsame. by rewrite Hcached.
    - intros Hnin%Hmiss Hlen. rewrite decide_False by done.
      rewrite bool_decide_eq_false_2; [done|lia].
    - intros Hnin%Hmiss Hlen. rewrite decide_False by done.
      rewrite bool_decide_eq_true_2 by lia.
      destruct (keys s); [simpl in Hlen; lia|done]. }
  split; [exact Hstep|]. split.
  - intros slots s out s' Hwithin Hr.
    pose proof (render_and_cache_within _ _ _ _ _ Hwithin Hr) as Hwithin'.
    split; [done|].
    pose proof (within_cache_size _ _ Hwithin') as Hsize.
    destruct Hwithin' as (_ & _ & _ & Hex).
    rewrite (exceeds_limit _ _ _ Hlimit) in Hex.
    apply bool_decide_eq_false in Hex. lia.
  - intros -> cs tA tB tC kA kB kC HA HB HC HAB HAC HBC.
    assert (Hnone : ∀ s k, same_keys s → k ∉ keys s → map_get k (cache s) = None).
    { intros s k Hsame Hnin. destruct (map_get k (cache s)) eqn:Hg; [|done].
      destruct Hnin. apply Hsame. by rewrite Hg. }
    destruct (Hstep _ _ _ (wf_initial cs) (same_keys_initial cs) HA)
      as (vA & s1 & Hr1 & Hwf1 & Hsame1 & Hc1 & _ & _ & Hk1 & _).
    specialize (Hk1 eq_refl ltac:(simpl; lia)). simpl in Hk1.
    assert (HB1 : cache_child props s1 tB kB)
      by (by eapply cache_child_components).
    destruct (Hstep _ _ _ Hwf1 Hsame1 HB1)
      as (vB & s2 & Hr2 & Hwf2 & Hsame2 & Hc2 & _ & _ & Hk2 & _).
    rewrite Hk1 in Hk2.
    assert (HkB : kB ∉ keys s1).
    { rewrite Hk1, list_elem_of_singleton. congruence. }
    specialize (Hk2 (Hnone _ _ Hsame1 HkB) ltac:(simpl; lia)). simpl in Hk2.
    assert (HC2 : cache_child props s2 tC kC).
    { eapply cache_child_components; [|exact HC]. by rewrite Hc2, Hc1. }
    destruct (Hstep _ _ _ Hwf2 Hsame2 HC2)
      as (vC & s3 & Hr3 & Hwf3 & Hsame3 & Hc3 & _ & _ & _ & Hk3).
    rewrite Hk2 in Hk3.
    assert (HkC : kC ∉ keys s2).
    { rewrite Hk2, !not_elem_of_cons. repeat split; try congruence.
      apply not_elem_of_nil. }
    specialize (Hk3 (Hnone _ _ Hsame2 HkC) ltac:(simpl; lia)). simpl in Hk3.
    assert (HkA : kA ∉ keys s3).
    { rewrite Hk3, !not_elem_of_cons. repeat split; try congruence.
      apply not_elem_of_nil. }
    assert (HgB : is_Some (map_get kB (cache s3))).
    { apply Hsame3. rewrite Hk3. apply elem_of_cons. by left. }
    exists s3. split.
    { simpl. rewrite Hr1. simpl. rewrite Hr2. simpl. by rewrite Hr3. }
    split; [done|]. split; [done|]. split; [by apply Hnone|].
    split.
    + assert (HB3 : cache_child props s3 tB kB).
      { eapply cache_child_components; [|exact HB]. by rewrite Hc3, Hc2, Hc1. }
      destruct (Hstep _ _ _ Hwf3 Hsame3 HB3)
        as (vB' & s4 & Hr4 & _ & _ & _ & _ & Hk4 & _).
      destruct HgB as [cached Hcached].
      destruct (wf_cached _ Hwf3 _ _ Hcached) as [cn Hcn].
      destruct (Hk4 _ _ Hcached Hcn) as [Hk4' _].
      exists s4. split; [simpl; by rewrite Hr4|].
      rewrite Hk4', Hk3. unfold set_delete. rewrite !filter_cons, filter_nil.
      rewrite decide_False by tauto. by rewrite decide_True by congruence.
    + assert (HA3 : cache_child props s3 tA kA).
      { eapply cache_child_components; [|exact HA]. by rewrite Hc3, Hc2, Hc1. }
      destruct (Hstep _ _ _ Hwf3 Hsame3 HA3)
        as (vA' & s5 & Hr5 & _ & _ & _ & _ & _ & _ & Hk5).
      rewrite Hk3 in Hk5.
      specialize (Hk5 (Hnone _ _ Hsame3 HkA) ltac:(simpl; lia)).
      exists s5. split; [simpl; by rewrite Hr5|done].
Qed.

(** C2, as the code has it. From a state in which [keys] and [cache] hold
    the same keys: after a render alone [keys] holds the cached keys and
    the pending key; after the hook that follows the render, and after every
    prune, both hold the same keys again. *)
Theorem keys_cache_agree props s :
  same_keys s →
  (∀ slots out s1, render props slots s = Ok (out, s1) →
     ∀ k, k ∈ keys s1 ↔
          is_Some (map_get k (cache s1)) ∨ pendingCacheKey s1 = Some k) ∧
  (∀ slots out s', render_and_cache props slots s = Ok (out, s') → same_keys s') ∧
  (∀ s', on_patterns_changed props s = Ok s' → same_keys s') ∧
  (∀ filter s', pruneCache filter s = Ok s' → same_keys s') ∧
  (∀ k s', pruneCacheEntry k s = Ok s' → same_keys s').
Proof.
  intros Hsame. split; [|split; [|split; [|split]]].
  - intros slots out s1. by apply render_keeps_pending.
  - intros slots out s'. by apply render_and_cache_same_keys.
  - intros s' (ks & Hk & Hc)%on_patterns_changed_Ok k.
    rewrite Hk, Hc. by apply delete_all_same_keys.
  - intros filter s' (ks & Hk & Hc)%pruneCache_entries_Ok k.
    rewrite Hk, Hc. by apply delete_all_same_keys.
  - intros k s'. by apply pruneCacheEntry_same_keys.
Qed.

(** C9. A single child whose name fails the include/exclude test: the
    render function returns the very node the slot built, with the state
    the slot left except for [current]; [keys] and [cache] are as before,
    the node carries the flags the slot gave it, nothing is pending, and
    the hook that follows changes nothing. *)
Theorem ineligible_child_bypasses_cache props t s ty k0 f :
  inner_node t = Some (ty, k0, f) →
  ineligible props (child_name s ty) = true →
  ∃ raw vnode s1 rawn,
    alloc_children [Some t] (set_pendingCacheKey None s) = ([CVNode raw], s1) ∧
    render props (Some [Some t]) s =
      Ok (RChild (Some (CVNode raw)), set_current (Some vnode) s1) ∧
    keys s1 = keys s ∧ cache s1 = cache s ∧ pendingCacheKey s1 = None ∧
    vnodes s1 !! raw = Some rawn ∧ shapeFlag rawn = (root t).2 ∧
    cacheSubtree (commit (RChild (Some (CVNode raw))) (set_current (Some vnode) s1)) =
      Ok (commit (RChild (Some (CVNode raw))) (set_current (Some vnode) s1)).
Proof.
  intros Hinner Hname.
  destruct (alloc_child _ (set_pendingCacheKey None s) _ _ _ Hinner)
    as (raw & rawn & vnode & n & s1 & Halloc & He & Hraw & Hflags & Hinnerchild &
        Hn & Hfresh & Hty & Hk & Hf & Hel & Hcomp & Hroot).
  destruct He as (Hc1 & Hca1 & Hk1 & Hcur1 & Hp1 & Hu1 & Hsub). simpl in *.
  exists raw, vnode, s1, rawn. split; [done|].
  assert (Hnm : ineligible props
            (getComponentName s1
               (if isAsyncWrapper s1 n
                then components s1 !! type n ≫= asyncResolved
                else Some (type n))) = true).
  { unfold isAsyncWrapper, getComponentName. rewrite Hc1, Hty. exact Hname. }
  split.
  { unfold KeepAlive.render. rewrite Halloc.
    unfold KeepAlive.render_children. cbn [length head].
    rewrite bool_decide_eq_false_2 by lia.
    rewrite (get_vnode_lookup _ _ _ Hraw). simpl. rewrite Hflags.
    rewrite Hinnerchild. simpl. rewrite (get_vnode_lookup _ _ _ Hn). simpl.
    by rewrite Hnm. }
  split; [done|]. split; [done|]. split; [done|]. split; [done|].
  split; [by rewrite <-Hroot|].
  unfold KeepAlive.cacheSubtree. simpl. by rewrite Hp1.
Qed.

End Setup.

(** *** Concrete instances

    The values [@vue/shared] gives the four flags, and the [parseInt] of
    the language in radix 10.  On a string it skips leading white space,
    takes one sign, and reads the digits that follow, [NaN] when there is
    none.  On a number it reads what [Number::toString] writes: the digits
    of an integer below [10 ^ 21], the digits before the point of a
    fraction, and the first digit of a number written with an exponent. *)

(** The white space of the language among the characters of [ascii]. *)
Definition is_white_space (a : ascii) : bool :=
  let c := nat_of_ascii a in
  (c =? 9) || (c =? 10) || (c =? 11) || (c =? 12) || (c =? 13) || (c =? 32).

Fixpoint trim_start (s : string) : string :=
  match s with
  | EmptyString => s
  | String a s' => if is_white_space a then trim_start s' else s
  end.

Fixpoint decimal_digits (s : string) (acc : option Z) : option Z :=
  match s with
  | EmptyString => acc
  | String a s' =>
      let d := Z.of_nat (nat_of_ascii a) - 48 in
      if ((0 <=? d) && (d <=? 9))%Z then
        decimal_digits s' (Some (10 * default 0 acc + d))
      else acc
  end%Z.

Definition decimal_string (s : string) : option Z :=
  match trim_start s with
  | EmptyString => None
  | String a s' =>
      if nat_of_ascii a =? 45 then Z.opp <$> decimal_digits s' None
      else if nat_of_ascii a =? 43 then decimal_digits s' None
      else decimal_digits (String a s') None
  end.

Fixpoint count_digits (fuel : nat) (s : Z) : Z :=
  match fuel with
  | O => 0
  | S fuel' => if (s <? 10)%Z then 1 else 1 + count_digits fuel' (s / 10)
  end%Z.

(** The integer that the text of a number starts with. *)
Definition decimal_number (x : Number) : option Z :=
  match x with
  | NNaN | NInfinity _ => None
  | NZero => Some 0
  | NDecimal negative s n =>
      let k := count_digits (Pos.size_nat s) (Z.pos s) in
      let magnitude :=
        if (k <=? n) && (n <=? 21) then Z.pos s * 10 ^ (n - k)
        else if (0 <? n) && (n <=? 21) then Z.pos s / 10 ^ (k - n)
        else if (-6 <? n) && (n <=? 0) then 0
        else Z.pos s / 10 ^ (k - 1) in
      Some (if negative then - magnitude else magnitude)
  end%Z.

Definition decimal (v : MaxProp) : option Z :=
  match v with
  | MaxNumber x => decimal_number x
  | MaxString s => decimal_string s
  end.

Definition no_props : KeepAliveProps :=
  {| include := None; exclude := None; max := None |}.

Definition max_two : KeepAliveProps :=
  {| include := None; exclude := None; max := Some (MaxString "2") |}.

Definition include_Foo : KeepAliveProps :=
  {| include := Some (PString "Foo"); exclude := None; max := None |}.

Definition component_Bar : gmap nat ComponentOptions :=
  {[ 0 := {| name := Some "Bar"; asyncLoader := false; asyncResolved := None |} ]}.

Lemma keepalive_lru_witness :
  ∃ s3,
    renders 4 128 256 512 decimal true max_two
      [Node 0 None 4; Node 1 None 4; Node 2 None 4] (initial ∅) = Ok s3 ∧
    keys s3 = [KComponent 1; KComponent 2] ∧
    is_Some (map_get (KComponent 1) (cache s3)) ∧
    map_get (KComponent 0) (cache s3) = None.
Proof.
  destruct (keepalive_lru 4 128 256 512 decimal true eq_refl eq_refl max_two 2
              eq_refl ltac:(lia)) as (_ & _ & Hthree).
  destruct (Hthree eq_refl ∅ (Node 0 None 4) (Node 1 None 4) (Node 2 None 4)
              (KComponent 0) (KComponent 1) (KComponent 2))
    as (s3 & Hr & Hk & HB & HA & _).
  - exists 0, None, 4%Z. repeat split; reflexivity.
  - exists 1, None, 4%Z. repeat split; reflexivity.
  - exists 2, None, 4%Z. repeat split; reflexivity.
  - discriminate.
  - discriminate.
  - discriminate.
  - exists s3. repeat split; assumption.
Defined.

Definition max_number_zero : KeepAliveProps :=
  {| include := None; exclude := None; max := Some (MaxNumber NZero) |}.

Definition max_minus_one : KeepAliveProps :=
  {| include := None; exclude := None;
     max := Some (MaxNumber (NDecimal true 1 1)) |}.

Definition max_1e21 : KeepAliveProps :=
  {| include := None; exclude := None;
     max := Some (MaxNumber (NDecimal false 1 22)) |}.

(** C1 as stated fails for a maximum that the render function does not take
    as a bound of at least one.  With [max = 0] the test [max && ..] is
    false and nothing is evicted: three children leave three entries, more
    than [max].  With [max = -1] the first render of a cacheable child
    prunes the key it has just added, which has no cached node yet, and
    throws.  With [max = 1e21] the bound is [parseInt("1e+21", 10)], which
    is 1: the second child evicts the first, although two keys do not
    exceed [max]. *)
Lemma keepalive_lru_counterexample :
  (limit decimal (max max_number_zero) = None ∧
   ∃ s3, renders 4 128 256 512 decimal true max_number_zero
           [Node 0 None 4; Node 1 None 4; Node 2 None 4] (initial ∅) = Ok s3 ∧
         keys s3 = [KComponent 0; KComponent 1; KComponent 2] ∧
         length (cache s3) = 3) ∧
  (limit decimal (max max_minus_one) = Some (-1)%Z ∧
   render 4 128 256 512 decimal true max_minus_one
     (Some [Some (Node 0 None 4)]) (initial ∅) = TypeError) ∧
  (limit decimal (max max_1e21) = Some 1%Z ∧
   ∃ s2, renders 4 128 256 512 decimal true max_1e21
           [Node 0 None 4; Node 1 None 4] (initial ∅) = Ok s2 ∧
         keys s2 = [KComponent 1] ∧
         map_get (KComponent 0) (cache s2) = None).
Proof.
  split; [|split].
  - split; [reflexivity|]. eexists. split; [vm_compute; reflexivity|].
    split; reflexivity.
  - split; reflexivity.
  - split; [reflexivity|]. eexists. split; [vm_compute; reflexivity|].
    split; reflexivity.
Qed.

(** C2 as stated fails right after a render: the first render of a child
    puts its key into [keys], and [cache] receives it only in the hook. *)
Lemma keys_cache_agree_counterexample :
  ∃ out s1,
    render 4 128 256 512 decimal true no_props (Some [Some (Node 0 None 4)])
      (initial ∅) = Ok (out, s1) ∧
    same_keys (initial ∅) ∧
    keys s1 = [KComponent 0] ∧ cache s1 = [].
Proof.
  eexists _, _. split; [reflexivity|]. split; [|split; reflexivity].
  intros k. simpl. split; [by intros ?%elem_of_nil|by intros [? ?]].
Qed.

Lemma keys_cache_agree_witness :
  ∃ out s',
    render_and_cache 4 128 256 512 decimal true no_props
      (Some [Some (Node 0 None 4)]) (initial ∅) = Ok (out, s') ∧
    same_keys s'.
Proof.
  assert (Hsame : same_keys (initial ∅)).
  { intros k. simpl. split; [by intros ?%elem_of_nil|by intros [? ?]]. }
  destruct (keys_cache_agree 4 128 256 512 decimal true no_props (initial ∅) Hsame)
    as (_ & Hhook & _).
  destruct (render_and_cache 4 128 256 512 decimal true no_props
              (Some [Some (Node 0 None 4)]) (initial ∅))
    as [[out s']| |] eqn:Hr; [|vm_compute in Hr; discriminate..].
  exists out, s'. split; [reflexivity|]. eapply Hhook. exact Hr.
Defined.

Lemma ineligible_child_bypasses_cache_witness :
  ∃ s',
    render 4 128 256 512 decimal true include_Foo (Some [Some (Node 0 None 4)])
      (initial component_Bar) = Ok (RChild (Some (CVNode 0)), s') ∧
    keys s' = [] ∧ cache s' = [] ∧
    cacheSubtree 128 (commit (RChild (Some (CVNode 0))) s') =
      Ok (commit (RChild (Some (CVNode 0))) s').
Proof.
  destruct (ineligible_child_bypasses_cache 4 128 256 512 decimal true include_Foo
              (Node 0 None 4) (initial component_Bar) 0 None 4 eq_refl eq_refl)
    as (raw & vnode & s1 & rawn & Halloc & Hr & Hk & Hc & _ & _ & _ & Hhook).
  injection Halloc as <- <-.
  eexists. split; [exact Hr|]. split; [exact Hk|]. split; [exact Hc|exact Hhook].
Defined.

End KeepAliveTheory.

(** ** The proxy layer: further laws *)

Module ReactiveLaws.
Import Reactive ReactiveTheory.

(** The depth axis of the four kinds and of the four identity maps. *)
Definition kind_shallow (k : Kind) : bool :=
  match k with
  | KShallowReactive | KShallowReadonly => true
  | _ => false
  end.

Definition map_shallow (m : ProxyMap) : bool :=
  match m with
  | the_shallowReactiveMap | the_shallowReadonlyMap => true
  | _ => false
  end.

(** Every entry of an identity map is a proxy of the depth of that map. *)
Definition kinded (σ : State) : Prop :=
  ∀ m l p, proxyMap_of σ m !! l = Some (VRef p) →
    ∃ tl h, heap_lookup (heap σ) p = Some (OProxy tl h) ∧
            handler_shallow h = map_shallow m.

(** The target of a proxy was allocated before the proxy. *)
Definition ordered (σ : State) : Prop :=
  ∀ l tl h, heap_lookup (heap σ) l = Some (OProxy tl h) → tl < l.

Definition well_formed (σ : State) : Prop := inv σ ∧ kinded σ ∧ ordered σ.

(** The states that calls of the module's functions lead to, from a store
    of ordinary objects that answer none of the four hidden flags; the
    program may allocate such objects in between. *)
Inductive reachable (DEV : bool) : State → Prop :=
  | reach_initial objs :
      Forall unflagged objs → reachable DEV (initial objs)
  | reach_new σ t :
      reachable DEV σ → unflagged t →
      reachable DEV (set_heap σ (ORaw t :: heap σ))
  | reach_wrap σ k v r σ' :
      reachable DEV σ → wrap DEV k v σ = Ok (r, σ') → reachable DEV σ'
  | reach_markRaw σ v r σ' :
      reachable DEV σ → markRaw v σ = Ok (r, σ') → reachable DEV σ'
  | reach_toReactive σ v r σ' :
      reachable DEV σ → toReactive DEV v σ = Ok (r, σ') → reachable DEV σ'
  | reach_toReadonly σ v r σ' :
      reachable DEV σ → toReadonly DEV v σ = Ok (r, σ') → reachable DEV σ'.

(** The four type names with collection handlers. *)
Definition collectionType (s : string) : bool :=
  bool_decide (s ∈ ["Map"; "Set"; "WeakMap"; "WeakSet"]).

(** *** The invariants are kept *)

Lemma inv_new σ t : inv σ → unflagged t → inv (set_heap σ (ORaw t :: heap σ)).
Proof.
  intros [Hraw Hproxy Hmap] Ht. split; simpl.
  - intros l t'. case_decide; [by intros [= <-]|apply Hraw].
  - intros l tl h. case_decide; [done|]. intros Hl.
    specialize (Hproxy _ _ _ Hl).
    destruct (heap_lookup (heap σ) tl) as [o|] eqn:Htl; [|done].
    rewrite decide_False; [done|]. apply heap_lookup_lt in Htl. lia.
  - intros m l v. rewrite proxyMap_of_set_heap.
    intros (p & h & -> & Hp & Hh)%Hmap. exists p, h. split; [done|].
    split; [|done]. by apply heap_lookup_cons_old.
Qed.

Lemma kinded_initial objs : kinded (initial objs).
Proof. intros [] l p; simpl; by rewrite lookup_empty. Qed.

Lemma kinded_new σ o : kinded σ → kinded (set_heap σ (o :: heap σ)).
Proof.
  intros Hk m l p. rewrite proxyMap_of_set_heap.
  intros (tl0 & h & Hp & Hh)%Hk. exists tl0, h. split; [|done].
  by apply heap_lookup_cons_old.
Qed.

Lemma kind_handlers_readonly k b :
  handler_readonly (if b : bool then (kind_handlers k).2 else (kind_handlers k).1) =
  kind_readonly k.
Proof. by destruct k, b. Qed.

Lemma kind_handlers_shallow k b :
  handler_shallow (if b : bool then (kind_handlers k).2 else (kind_handlers k).1) =
  kind_shallow k.
Proof. by destruct k, b. Qed.

Lemma map_readonly_kind k : map_readonly (kind_map k) = kind_readonly k.
Proof. by destruct k. Qed.

Lemma map_shallow_kind k : map_shallow (kind_map k) = kind_shallow k.
Proof. by destruct k. Qed.

Lemma kinded_wrap DEV k x σ r σ' :
  kinded σ → wrap DEV k x σ = Ok (r, σ') → kinded σ'.
Proof.
  intros Hk [(_ & _ & ->)|[(_ & -> & _)|(l & h & -> & -> & _ & _ & _ & Hh & ->)]]%wrap_cases.
  - destruct DEV; [|done]. intros m l p. rewrite proxyMap_of_warn. apply Hk.
  - done.
  - intros m l' p. rewrite proxyMap_of_weakmap_set. cbn [heap weakmap_set set_heap].
    assert (Hold : proxyMap_of σ m !! l' = Some (VRef p) →
      ∃ tl0 h0, heap_lookup (OProxy l h :: heap σ) p = Some (OProxy tl0 h0) ∧
                handler_shallow h0 = map_shallow m).
    { intros (tl0 & h0 & Hp & Hh0)%Hk. exists tl0, h0. split; [|done].
      by apply heap_lookup_cons_old. }
    rewrite proxyMap_of_set_heap.
    destruct (decide (kind_map k = m)) as [<-|Hm]; [|done].
    destruct (decide (l = l')) as [<-|Hne]; [|by rewrite lookup_insert_ne].
    rewrite lookup_insert_eq. intros [= <-]. exists l, h.
    split; [apply heap_lookup_cons_new|].
    rewrite Hh, map_shallow_kind. by destruct k; case_decide.
Qed.

Lemma kinded_markRaw v σ r σ' :
  kinded σ → markRaw v σ = Ok (r, σ') → kinded σ'.
Proof.
  intros Hk. unfold markRaw. destruct v; try done.
  destruct (heap_define_skip (heap σ) l) as [hp|] eqn:E; [|done].
  intros [= _ <-] m l' p. rewrite proxyMap_of_set_heap.
  intros (tl0 & h & Hp & Hh)%Hk. simpl.
  pose proof (heap_define_skip_lookup _ _ _ p E) as Hsame. rewrite Hp in Hsame.
  destruct (heap_lookup hp p) as [[|tl1 h1]|]; simpl in Hsame; try done.
  destruct Hsame as [-> ->]. by exists tl0, h.
Qed.

Lemma ordered_initial objs : ordered (initial objs).
Proof.
  intros l tl0 h. simpl. induction objs as [|t objs IH]; simpl; [done|].
  case_decide; [done|apply IH].
Qed.

Lemma ordered_new σ t : ordered σ → ordered (set_heap σ (ORaw t :: heap σ)).
Proof. intros Ho l tl0 h. simpl. case_decide; [done|apply Ho]. Qed.

Lemma ordered_wrap DEV k x σ r σ' :
  ordered σ → wrap DEV k x σ = Ok (r, σ') → ordered σ'.
Proof.
  intros Ho [(_ & _ & ->)|[(_ & -> & _)|(l & h & -> & -> & _ & _ & Hty & _ & ->)]]%wrap_cases.
  - by destruct DEV.
  - done.
  - intros l' tl0 h'. cbn [heap weakmap_set set_heap]. simpl.
    case_decide; [|apply Ho]. intros [= <- <-]. subst l'.
    destruct (target_type_valid _ _ Hty) as [o Hl]. by eapply heap_lookup_lt.
Qed.

Lemma ordered_markRaw v σ r σ' :
  ordered σ → markRaw v σ = Ok (r, σ') → ordered σ'.
Proof.
  intros Ho. unfold markRaw. destruct v; try done.
  destruct (heap_define_skip (heap σ) l) as [hp|] eqn:E; [|done].
  intros [= _ <-] l' tl0 h Hl'. simpl in Hl'.
  pose proof (heap_define_skip_lookup _ _ _ l' E) as Hsame. rewrite Hl' in Hsame.
  destruct (heap_lookup (heap σ) l') as [[|tl1 h1]|] eqn:Hold; simpl in Hsame; try done.
  destruct Hsame as [-> ->]. by eapply Ho.
Qed.

Lemma toReactive_wrap DEV v σ :
  toReactive DEV v σ = if isObject v then wrap DEV KReactive v σ else Ok (v, σ).
Proof. done. Qed.

Lemma toReadonly_wrap DEV v σ :
  toReadonly DEV v σ = if isObject v then wrap DEV KReadonly v σ else Ok (v, σ).
Proof. done. Qed.

Lemma well_formed_wrap DEV k x σ r σ' :
  well_formed σ → wrap DEV k x σ = Ok (r, σ') → well_formed σ'.
Proof.
  intros (Hi & Hk & Ho) Hw.
  split; [by eapply wrap_inv|]. split; [by eapply kinded_wrap|by eapply ordered_wrap].
Qed.

Lemma well_formed_initial objs : Forall unflagged objs → well_formed (initial objs).
Proof.
  intros Hobjs.
  split; [by apply inv_initial|]. split; [apply kinded_initial|apply ordered_initial].
Qed.

(** *** The queries on a proxy of an ordinary object *)

Lemma isShallow_proxy σ l a h :
  heap_lookup (heap σ) l = Some (OProxy a h) →
  isShallow σ (VRef l) = Ok (handler_shallow h).
Proof. intros Hl. unfold isShallow, flag_query. simpl. by rewrite Hl. Qed.

Lemma isReactive_raw fuel σ l t :
  inv σ → heap_lookup (heap σ) l = Some (ORaw t) →
  isReactive (S fuel) σ (VRef l) = Ok false.
Proof.
  intros Hinv Hl. simpl. rewrite (isReadonly_raw _ _ _ Hinv Hl). simpl.
  unfold flag_query. simpl. rewrite Hl. simpl. f_equal.
  apply (inv_raw _ Hinv _ _ Hl IS_REACTIVE). done.
Qed.

Lemma isReactive_mutable_proxy fuel σ l a h :
  heap_lookup (heap σ) l = Some (OProxy a h) → handler_readonly h = false →
  isReactive (S fuel) σ (VRef l) = Ok true.
Proof.
  intros Hl Hh. simpl. rewrite (isReadonly_proxy _ _ _ _ Hl), Hh. simpl.
  unfold flag_query. simpl. by rewrite Hl, Hh.
Qed.

Lemma isReactive_readonly_proxy fuel σ l a h :
  heap_lookup (heap σ) l = Some (OProxy a h) → handler_readonly h = true →
  isReactive (S fuel) σ (VRef l) = isReactive fuel σ (VRef a).
Proof.
  intros Hl Hh. cbn [isReactive]. rewrite (isReadonly_proxy _ _ _ _ Hl), Hh. simpl.
  by rewrite Hl.
Qed.

Lemma get_prop_RAW_proxy hp l a h :
  heap_lookup hp l = Some (OProxy a h) → get_prop hp (VRef l) RAW = Ok (VRef a).
Proof. intros Hl. simpl. by rewrite Hl. Qed.

Lemma queries_proxy fuel σ p l h t :
  inv σ →
  heap_lookup (heap σ) p = Some (OProxy l h) →
  heap_lookup (heap σ) l = Some (ORaw t) →
  2 ≤ fuel →
  isReadonly σ (VRef p) = Ok (handler_readonly h) ∧
  isShallow σ (VRef p) = Ok (handler_shallow h) ∧
  isReactive fuel σ (VRef p) = Ok (negb (handler_readonly h)) ∧
  isProxy fuel σ (VRef p) = Ok true ∧
  get_prop (heap σ) (VRef p) RAW = Ok (VRef l).
Proof.
  intros Hinv Hp Hl Hfuel. destruct fuel as [|[|fuel]]; try lia.
  assert (Hre : isReactive (S (S fuel)) σ (VRef p) = Ok (negb (handler_readonly h))).
  { destruct (handler_readonly h) eqn:Hh.
    - rewrite (isReactive_readonly_proxy _ _ _ _ _ Hp Hh).
      by eapply isReactive_raw.
    - by eapply isReactive_mutable_proxy. }
  split; [by eapply isReadonly_proxy|]. split; [by eapply isShallow_proxy|].
  split; [done|]. split; [|by eapply get_prop_RAW_proxy].
  unfold isProxy. rewrite Hre. simpl.
  destruct (handler_readonly h) eqn:Hh; simpl; [|done].
  by rewrite (isReadonly_proxy _ _ _ _ Hp), Hh.
Qed.

(** An ordinary object that [getTargetType] accepts. *)
Definition wrappable (t : Target) : Prop :=
  extensible t = true ∧ v_skip t ≠ Some true ∧ allowedType (rawType t).

Lemma wrappable_valid hp l t :
  heap_lookup hp l = Some (ORaw t) → wrappable t →
  target_type hp l = targetTypeMap (rawType t) ∧ target_type hp l ≠ INVALID.
Proof.
  intros Hl (Hext & Hskip & Hty).
  assert (E : target_type hp l = targetTypeMap (rawType t)).
  { rewrite (target_type_raw _ _ _ Hl), Hext.
    replace (truthy (own_flag t SKIP)) with false; [done|].
    simpl. by destruct (v_skip t) as [[]|]. }
  split; [done|]. rewrite E. by apply allowedType_valid.
Qed.

(** The wrap of an ordinary wrappable object is a proxy of it, of the
    kind's mutability, registered in the kind's map; the objects of the
    store stay as they are. *)
Lemma wrap_wrappable DEV k σ l t r σ1 :
  inv σ →
  heap_lookup (heap σ) l = Some (ORaw t) → wrappable t →
  wrap DEV k (VRef l) σ = Ok (r, σ1) →
  ∃ p h, r = VRef p ∧
    heap_lookup (heap σ1) p = Some (OProxy l h) ∧
    handler_readonly h = kind_readonly k ∧
    proxyMap_of σ1 (kind_map k) !! l = Some (VRef p) ∧
    (kinded σ → handler_shallow h = kind_shallow k) ∧
    (proxyMap_of σ (kind_map k) !! l = None →
     p = length (heap σ) ∧
     h = (if decide (targetTypeMap (rawType t) = COLLECTION)
          then (kind_handlers k).2 else (kind_handlers k).1) ∧
     heap σ1 = OProxy l h :: heap σ).
Proof.
  intros Hinv Hl Hw. pose proof (inv_raw _ Hinv _ _ Hl) as Ht.
  destruct (wrappable_valid _ _ _ Hl Hw) as [Hty Hvalid].
  rewrite (wrap_raw _ _ _ _ _ Hl Ht).
  destruct (truthy (weakmap_get σ (kind_map k) (VRef l))) eqn:Hget.
  - destruct (weakmap_get_truthy _ _ _ Hinv Hget) as (p & h & Hwg & Hm & Hp & Hh).
    rewrite Hwg. intros [= <- <-]. exists p, h.
    split; [done|]. split; [done|]. split; [by rewrite Hh, map_readonly_kind|].
    split; [done|]. split.
    + intros Hk. destruct (Hk _ _ _ Hm) as (tl0 & h0 & Hp0 & Hh0).
      rewrite Hp in Hp0. injection Hp0 as <- <-. by rewrite Hh0, map_shallow_kind.
    + intros Hnone. by rewrite Hnone in Hm.
  - rewrite decide_False by done. intros [= <- <-].
    eexists _, _. split; [done|]. cbn [heap weakmap_set set_heap].
    split; [apply heap_lookup_cons_new|].
    split; [by destruct k; case_decide|].
    split; [by rewrite proxyMap_of_weakmap_set, decide_True, lookup_insert_eq|].
    split; [intros _; by destruct k; case_decide|].
    intros _. by rewrite Hty.
Qed.

(** A wrap leaves the objects of the store and the other maps alone. *)
Lemma wrap_frame_facts DEV k x σ r σ' :
  wrap DEV k x σ = Ok (r, σ') →
  (∀ l o, heap_lookup (heap σ) l = Some o → heap_lookup (heap σ') l = Some o) ∧
  (heap σ' = heap σ ∨
   ∃ l h, x = VRef l ∧ r = VRef (length (heap σ)) ∧ heap σ' = OProxy l h :: heap σ) ∧
  (∀ m, m ≠ kind_map k → proxyMap_of σ' m = proxyMap_of σ m) ∧
  (∀ l, x ≠ VRef l →
        proxyMap_of σ' (kind_map k) !! l = proxyMap_of σ (kind_map k) !! l) ∧
  (isObject x = true → console σ' = console σ).
Proof.
  intros [(Hx & _ & ->)|[(_ & -> & _)|(l & h & -> & -> & _ & _ & _ & _ & ->)]]%wrap_cases.
  - destruct DEV; [|by repeat split; auto].
    split; [done|]. split; [by left|]. split; [by intros; apply proxyMap_of_warn|].
    split; [by intros; rewrite proxyMap_of_warn|]. by rewrite Hx.
  - by repeat split; auto.
  - cbn [heap weakmap_set set_heap].
    split; [by intros; apply heap_lookup_cons_old|].
    split; [right; by eauto|].
    split.
    { intros m Hm. rewrite proxyMap_of_weakmap_set, decide_False by done.
      apply proxyMap_of_set_heap. }
    split; [|by destruct k].
    intros l' Hne. rewrite proxyMap_of_weakmap_set, decide_True by done.
    rewrite proxyMap_of_set_heap. apply lookup_insert_ne. congruence.
Qed.

Lemma backing_proxy hp p l h :
  heap_lookup hp p = Some (OProxy l h) → l < p → backing hp p = backing hp l.
Proof.
  induction hp as [|o hp IH]; simpl; [done|].
  case_decide as Hp.
  - intros [= ->] Hlt. rewrite decide_False by lia. done.
  - intros Hl Hlt. pose proof (heap_lookup_lt _ _ _ Hl).
    rewrite decide_False by lia. by apply IH.
Qed.

(** A proxy of a wrappable ordinary object is classified like the object. *)
Lemma target_type_proxy hp p l h t :
  heap_lookup hp p = Some (OProxy l h) → l < p →
  heap_lookup hp l = Some (ORaw t) →
  target_type hp p = target_type hp l.
Proof.
  intros Hp Hlt Hl. unfold target_type, getTargetType. simpl.
  by rewrite Hp, Hl, (backing_proxy _ _ _ _ Hp Hlt), (backing_raw _ _ _ Hl).
Qed.

(** *** The properties *)

(** X1. A wrap never touches what is there: every object of the store is
    afterwards what it was, the only object a wrap creates is a proxy of its
    argument (which it then returns), no identity map but the one of the
    wrap's kind changes, that one changes at the argument only, and nothing
    is logged for an object. *)
Theorem wrap_frame DEV k x σ r σ' :
  wrap DEV k x σ = Ok (r, σ') →
  (∀ l o, heap_lookup (heap σ) l = Some o → heap_lookup (heap σ') l = Some o) ∧
  (heap σ' = heap σ ∨
   ∃ l h, x = VRef l ∧ r = VRef (length (heap σ)) ∧ heap σ' = OProxy l h :: heap σ) ∧
  (∀ m, m ≠ kind_map k → proxyMap_of σ' m = proxyMap_of σ m) ∧
  (∀ l, x ≠ VRef l →
        proxyMap_of σ' (kind_map k) !! l = proxyMap_of σ (kind_map k) !! l) ∧
  (isObject x = true → console σ' = console σ).
Proof. apply wrap_frame_facts. Qed.

Lemma wrap_frame_witness :
  ∃ σ', wrap true KReadonly (VRef 0) (initial [plainObject]) = Ok (VRef 1, σ') ∧
        heap_lookup (heap σ') 0 = Some (ORaw plainObject) ∧
        proxyMap_of σ' the_reactiveMap = ∅ ∧
        console σ' = [].
Proof.
  eexists. split; [reflexivity|].
  destruct (wrap_frame true KReadonly (VRef 0) (initial [plainObject]) _ _ eq_refl)
    as (Hobj & _ & Hmaps & _ & Hlog).
  split; [by apply Hobj|]. split; [by apply (Hmaps the_reactiveMap)|by apply Hlog].
Defined.

(** X2. A program whose ordinary objects answer none of the four hidden
    flags, at the start and when it makes new ones, stays in well-formed
    states through all calls of [reactive], [shallowReactive], [readonly],
    [shallowReadonly], [markRaw], [toReactive] and [toReadonly]: the
    ordinary objects still answer none of the flags ([markRaw] marks
    [SKIP] only); the target of a proxy is older than the proxy and is an
    ordinary object or, under a readonly proxy only, a mutable proxy; and
    every identity map sends an object to a proxy of that very object, of
    the mutability and depth of the map. *)
Theorem reachable_well_formed DEV σ : reachable DEV σ → well_formed σ.
Proof.
  induction 1 as [objs Hobjs|σ t _ (Hi & Hk & Ho) Ht|σ k v r σ' _ IH Hw|
                  σ v r σ' _ (Hi & Hk & Ho) Hm|σ v r σ' _ IH Hw|σ v r σ' _ IH Hw].
  - by apply well_formed_initial.
  - split; [by apply inv_new|]. split; [by apply kinded_new|by apply ordered_new].
  - by eapply well_formed_wrap.
  - split; [by eapply markRaw_inv|].
    split; [by eapply kinded_markRaw|by eapply ordered_markRaw].
  - rewrite toReactive_wrap in Hw. destruct (isObject v).
    + by eapply well_formed_wrap.
    + by injection Hw as _ <-.
  - rewrite toReadonly_wrap in Hw. destruct (isObject v).
    + by eapply well_formed_wrap.
    + by injection Hw as _ <-.
Qed.

Lemma reachable_well_formed_witness :
  ∃ σ1 σ2,
    shallowReactive true (VRef 0) (initial [plainObject]) = Ok (VRef 1, σ1) ∧
    markRaw (VRef 0) σ1 = Ok (VRef 0, σ2) ∧
    well_formed σ2.
Proof.
  eexists _, _. split; [reflexivity|]. split; [reflexivity|].
  apply (reachable_well_formed true).
  eapply (reach_markRaw true _ (VRef 0));
    [eapply (reach_wrap true _ KShallowReactive (VRef 0));
       [apply (reach_initial true [plainObject]);
        constructor; [|constructor]; by intros []
       |reflexivity]
    |reflexivity].
Defined.

Lemma unflagged_plainObject : unflagged plainObject.
Proof. by intros []. Qed.

Lemma wrappable_plainObject : wrappable plainObject.
Proof.
  split; [done|]. split; [done|]. unfold allowedType. simpl.
  rewrite elem_of_cons. by left.
Qed.

Lemma well_formed_one : well_formed (initial [plainObject]).
Proof.
  apply well_formed_initial. constructor; [apply unflagged_plainObject|constructor].
Qed.

(** X3. The queries recognise what the wraps make.  In a well-formed
    state (the ordinary objects answer none of the four hidden flags, and
    proxies and identity maps are as the module leaves them), for an
    ordinary object that can be wrapped, the result of a wrap is a proxy
    whose raw back-reference is the object; [isReadonly] holds of it
    exactly for the two readonly kinds, [isShallow] exactly for the two
    shallow kinds, [isReactive] exactly for the two mutable kinds, and
    [isProxy] always. *)
Theorem queries_of_wrap DEV k σ l t r σ1 fuel :
  well_formed σ →
  heap_lookup (heap σ) l = Some (ORaw t) → wrappable t →
  wrap DEV k (VRef l) σ = Ok (r, σ1) →
  2 ≤ fuel →
  r ≠ VRef l ∧
  get_prop (heap σ1) r RAW = Ok (VRef l) ∧
  isReadonly σ1 r = Ok (kind_readonly k) ∧
  isShallow σ1 r = Ok (kind_shallow k) ∧
  isReactive fuel σ1 r = Ok (negb (kind_readonly k)) ∧
  isProxy fuel σ1 r = Ok true.
Proof.
  intros (Hinv & Hk & Ho) Hl Hw Hwrap Hfuel.
  pose proof (wrap_inv _ _ _ _ _ _ Hinv Hwrap) as Hinv1.
  destruct (wrap_frame_facts _ _ _ _ _ _ Hwrap) as (Hobj & _).
  destruct (wrap_wrappable _ _ _ _ _ _ _ Hinv Hl Hw Hwrap)
    as (p & h & -> & Hp & Hro & _ & Hsh & _).
  destruct (queries_proxy fuel _ _ _ _ _ Hinv1 Hp (Hobj _ _ Hl) Hfuel)
    as (Q1 & Q2 & Q3 & Q4 & Q5).
  rewrite Hro in Q1, Q3. rewrite (Hsh Hk) in Q2.
  split; [|done]. intros [= ->]. rewrite (Hobj _ _ Hl) in Hp. done.
Qed.

Lemma queries_of_wrap_witness :
  ∃ σ1,
    shallowReadonly true (VRef 0) (initial [plainObject]) = Ok (VRef 1, σ1) ∧
    isReadonly σ1 (VRef 1) = Ok true ∧ isShallow σ1 (VRef 1) = Ok true ∧
    isReactive 2 σ1 (VRef 1) = Ok false ∧ isProxy 2 σ1 (VRef 1) = Ok true.
Proof.
  eexists. split; [reflexivity|].
  destruct (queries_of_wrap true KShallowReadonly (initial [plainObject]) 0
              plainObject (VRef 1) _ 2 well_formed_one eq_refl
              wrappable_plainObject eq_refl ltac:(lia))
    as (_ & _ & Q1 & Q2 & Q3 & Q4).
  split; [exact Q1|]. split; [exact Q2|]. split; [exact Q3|exact Q4].
Defined.

(** X4. [readonly] of a reactive proxy.  In a well-formed state (the
    ordinary objects answer none of the four hidden flags, and proxies and
    identity maps are as the module leaves them), for an ordinary object
    [o] that can be wrapped, [p = reactive(o)] and [q = readonly(p)]: [q]
    is a proxy other
    than [p] whose raw back-reference is [p]; [q] is readonly and, through
    the recursion of [isReactive], also reactive; [p] stays reactive and not
    readonly; [toRaw(q)] is [o]; and [readonly(p)] again gives [q]. *)
Theorem readonly_of_reactive DEV σ l t p σ1 q σ2 fuel :
  well_formed σ →
  heap_lookup (heap σ) l = Some (ORaw t) → wrappable t →
  reactive DEV (VRef l) σ = Ok (p, σ1) →
  readonly DEV p σ1 = Ok (q, σ2) →
  3 ≤ fuel →
  q ≠ p ∧
  get_prop (heap σ2) q RAW = Ok p ∧
  get_prop (heap σ2) p RAW = Ok (VRef l) ∧
  isReadonly σ2 q = Ok true ∧ isReactive fuel σ2 q = Ok true ∧
  isReadonly σ2 p = Ok false ∧ isReactive fuel σ2 p = Ok true ∧
  toRaw fuel σ2 q = Ok (VRef l) ∧
  readonly DEV p σ2 = Ok (q, σ2).
Proof.
  intros Hwf Hl Hw Hre Hro Hfuel.
  change (wrap DEV KReactive (VRef l) σ = Ok (p, σ1)) in Hre.
  pose proof (well_formed_wrap _ _ _ _ _ _ Hwf Hre) as (Hinv1 & Hk1 & Ho1).
  destruct Hwf as (Hinv & Hk & Ho).
  destruct (wrap_frame_facts _ _ _ _ _ _ Hre) as (Hobj1 & _).
  destruct (wrap_wrappable _ _ _ _ _ _ _ Hinv Hl Hw Hre)
    as (pl & h & -> & Hp & Hh & _ & _ & _).
  simpl in Hh. pose proof (Hobj1 _ _ Hl) as Hl1.
  assert (Hty : target_type (heap σ1) pl ≠ INVALID).
  { rewrite (target_type_proxy _ _ _ _ _ Hp (Ho1 _ _ _ Hp) Hl1).
    by apply (wrappable_valid _ _ _ Hl1 Hw). }
  assert (Haw : already_wrapped (heap σ1) pl true = false).
  { unfold already_wrapped. by rewrite Hp, Hh. }
  change (wrap DEV KReadonly (VRef pl) σ1 = Ok (q, σ2)) in Hro.
  pose proof (wrap_inv _ _ _ _ _ _ Hinv1 Hro) as Hinv2.
  destruct (wrap_frame_facts _ _ _ _ _ _ Hro) as (Hobj2 & _).
  assert (∃ ql h', q = VRef ql ∧ heap_lookup (heap σ2) ql = Some (OProxy pl h') ∧
                   handler_readonly h' = true ∧
                   proxyMap_of σ2 the_readonlyMap !! pl = Some (VRef ql))
    as (ql & h' & -> & Hq & Hh' & Hmap).
  { rewrite wrap_ref in Hro. cbn [kind_readonly kind_map kind_handlers andb fst snd] in Hro.
    rewrite Haw in Hro.
    destruct (truthy (weakmap_get σ1 the_readonlyMap (VRef pl))) eqn:Hget.
    - destruct (weakmap_get_truthy _ _ _ Hinv1 Hget) as (ql & h' & Hwg & Hm & Hq & Hh').
      rewrite Hwg in Hro. injection Hro as <- <-. by exists ql, h'.
    - rewrite decide_False in Hro by done. injection Hro as <- <-.
      eexists _, _. split; [done|]. cbn [heap weakmap_set set_heap].
      split; [apply heap_lookup_cons_new|]. split; [by case_decide|].
      simpl. apply lookup_insert_eq. }
  pose proof (Hobj2 _ _ Hp) as Hp2. pose proof (Hobj2 _ _ Hl1) as Hl2.
  destruct fuel as [|[|[|fuel]]]; try lia.
  split; [intros [= ->]; rewrite Hp2 in Hq; injection Hq as -> _;
          pose proof (inv_proxy _ Hinv2 _ _ _ Hp2) as Hbad;
          rewrite Hp2 in Hbad; destruct Hbad; congruence|].
  split; [by eapply get_prop_RAW_proxy|]. split; [by eapply get_prop_RAW_proxy|].
  split; [by rewrite (isReadonly_proxy _ _ _ _ Hq), Hh'|].
  split.
  { rewrite (isReactive_readonly_proxy _ _ _ _ _ Hq Hh').
    by eapply isReactive_mutable_proxy. }
  split; [by rewrite (isReadonly_proxy _ _ _ _ Hp2), Hh|].
  split; [by eapply isReactive_mutable_proxy|].
  split.
  { rewrite toRaw_inv by (done || lia). simpl. by rewrite Hq, Hp2. }
  change (wrap DEV KReadonly (VRef pl) σ2 = Ok (VRef ql, σ2)).
  rewrite wrap_ref. cbn [kind_readonly kind_map kind_handlers andb fst snd].
  replace (already_wrapped (heap σ2) pl true) with false
    by (unfold already_wrapped; by rewrite Hp2, Hh).
  unfold weakmap_get. by rewrite Hmap.
Qed.

Lemma readonly_of_reactive_witness :
  ∃ σ1 σ2,
    reactive true (VRef 0) (initial [plainObject]) = Ok (VRef 1, σ1) ∧
    readonly true (VRef 1) σ1 = Ok (VRef 2, σ2) ∧
    isReadonly σ2 (VRef 2) = Ok true ∧ isReactive 3 σ2 (VRef 2) = Ok true ∧
    toRaw 3 σ2 (VRef 2) = Ok (VRef 0).
Proof.
  eexists _, _. split; [reflexivity|]. split; [reflexivity|].
  destruct (readonly_of_reactive true (initial [plainObject]) 0 plainObject
              (VRef 1) _ (VRef 2) _ 3 well_formed_one eq_refl
              wrappable_plainObject eq_refl eq_refl ltac:(lia))
    as (_ & _ & _ & Q1 & Q2 & _ & _ & Q3 & _).
  split; [exact Q1|]. split; [exact Q2|exact Q3].
Defined.

(** X5. Wrapping what is already a proxy.  Every wrap of a proxy returns the
    proxy itself and changes nothing, with one exception: a readonly kind
    applied to a mutable proxy. *)
Theorem wrap_of_proxy DEV k σ l tl0 h :
  heap_lookup (heap σ) l = Some (OProxy tl0 h) →
  kind_readonly k = false ∨ handler_readonly h = true →
  wrap DEV k (VRef l) σ = Ok (VRef l, σ).
Proof.
  intros Hl Hcase. rewrite wrap_ref, Hl. unfold already_wrapped. rewrite Hl.
  destruct Hcase as [Hk|Hh]; rewrite ?Hk, ?Hh; simpl.
  - by case_match.
  - rewrite andb_false_r. simpl. by case_match.
Qed.

Lemma wrap_of_proxy_witness :
  ∃ σ1,
    readonly true (VRef 0) (initial [plainObject]) = Ok (VRef 1, σ1) ∧
    reactive true (VRef 1) σ1 = Ok (VRef 1, σ1) ∧
    shallowReadonly true (VRef 1) σ1 = Ok (VRef 1, σ1).
Proof.
  eexists. split; [reflexivity|].
  split.
  - apply (wrap_of_proxy true KReactive _ 1 0 readonlyHandlers);
      [reflexivity|by right].
  - apply (wrap_of_proxy true KShallowReadonly _ 1 0 readonlyHandlers);
      [reflexivity|by right].
Defined.

Lemma kind_flags_inj k k' :
  kind_readonly k = kind_readonly k' → kind_shallow k = kind_shallow k' → k = k'.
Proof. by destruct k, k'. Qed.

Lemma kind_map_inj k k' : kind_map k = kind_map k' → k = k'.
Proof. by destruct k, k'. Qed.

(** X6. The four identity maps are independent.  In a well-formed state
    (the ordinary objects answer none of the four hidden flags, and proxies
    and identity maps are as the module leaves them), two different kinds
    give two different proxies of the same ordinary object that can be
    wrapped, each with the object as its raw back-reference, and afterwards
    each kind keeps returning its own proxy. *)
Theorem kinds_have_own_proxies DEV k k' σ l t r σ1 r' σ2 :
  well_formed σ →
  heap_lookup (heap σ) l = Some (ORaw t) → wrappable t →
  k ≠ k' →
  wrap DEV k (VRef l) σ = Ok (r, σ1) →
  wrap DEV k' (VRef l) σ1 = Ok (r', σ2) →
  r ≠ r' ∧
  get_prop (heap σ2) r RAW = Ok (VRef l) ∧
  get_prop (heap σ2) r' RAW = Ok (VRef l) ∧
  wrap DEV k (VRef l) σ2 = Ok (r, σ2) ∧
  wrap DEV k' (VRef l) σ2 = Ok (r', σ2).
Proof.
  intros Hwf Hl Hw Hne H1 H2.
  pose proof (well_formed_wrap _ _ _ _ _ _ Hwf H1) as Hwf1.
  destruct Hwf as (Hinv & Hk & _). destruct Hwf1 as (Hinv1 & Hk1 & _).
  pose proof (wrap_inv _ _ _ _ _ _ Hinv1 H2) as Hinv2.
  destruct (wrap_frame_facts _ _ _ _ _ _ H1) as (Hobj1 & _).
  destruct (wrap_frame_facts _ _ _ _ _ _ H2) as (Hobj2 & _ & Hmaps2 & _).
  pose proof (Hobj1 _ _ Hl) as Hl1. pose proof (Hobj2 _ _ Hl1) as Hl2.
  destruct (wrap_wrappable _ _ _ _ _ _ _ Hinv Hl Hw H1)
    as (p & h & -> & Hp & Hro & Hm & Hsh & _).
  destruct (wrap_wrappable _ _ _ _ _ _ _ Hinv1 Hl1 Hw H2)
    as (p' & h' & -> & Hp' & Hro' & Hm' & Hsh' & _).
  specialize (Hsh Hk). specialize (Hsh' Hk1).
  pose proof (Hobj2 _ _ Hp) as Hp2.
  assert (Hhit : ∀ k0 p0, proxyMap_of σ2 (kind_map k0) !! l = Some (VRef p0) →
                          wrap DEV k0 (VRef l) σ2 = Ok (VRef p0, σ2)).
  { intros k0 p0 Hm0.
    rewrite (wrap_raw _ _ _ _ _ Hl2 (inv_raw _ Hinv2 _ _ Hl2)).
    unfold weakmap_get. by rewrite Hm0. }
  split.
  { intros [= ->]. rewrite Hp2 in Hp'. injection Hp' as ->.
    apply Hne, kind_flags_inj; congruence. }
  split; [by eapply get_prop_RAW_proxy|]. split; [by eapply get_prop_RAW_proxy|].
  split; [|by apply Hhit].
  apply Hhit. rewrite Hmaps2; [done|]. intros ?%kind_map_inj. done.
Qed.

Lemma kinds_have_own_proxies_witness :
  ∃ σ1 σ2,
    reactive true (VRef 0) (initial [plainObject]) = Ok (VRef 1, σ1) ∧
    shallowReactive true (VRef 0) σ1 = Ok (VRef 2, σ2) ∧
    reactive true (VRef 0) σ2 = Ok (VRef 1, σ2) ∧
    shallowReactive true (VRef 0) σ2 = Ok (VRef 2, σ2).
Proof.
  eexists _, _. split; [reflexivity|]. split; [reflexivity|].
  destruct (kinds_have_own_proxies true KReactive KShallowReactive
              (initial [plainObject]) 0 plainObject (VRef 1) _ (VRef 2) _
              well_formed_one eq_refl wrappable_plainObject
              ltac:(discriminate) eq_refl eq_refl)
    as (_ & _ & _ & Q1 & Q2).
  split; [exact Q1|exact Q2].
Defined.

(** Whether a value is a proxy of the store. *)
Definition proxyb (hp : Heap) (v : value) : bool :=
  match v with
  | VRef l =>
      match heap_lookup hp l with
      | Some (OProxy _ _) => true
      | _ => false
      end
  | _ => false
  end.

Lemma isProxy_proxyb σ fuel v :
  inv σ → 3 ≤ fuel → isProxy fuel σ v = Ok (proxyb (heap σ) v).
Proof.
  intros Hinv Hfuel. destruct fuel as [|fuel]; [lia|].
  destruct (isObject v) eqn:Hv; last first.
  { assert (Hre : isReactive (S fuel) σ v = Ok false).
    { cbn [isReactive]. rewrite isReadonly_prim by done. simpl.
      by apply flag_query_prim. }
    unfold isProxy. rewrite Hre. simpl. rewrite isReadonly_prim by done.
    by destruct v. }
  destruct v; try done. cbn [proxyb].
  destruct (heap_lookup (heap σ) l) as [[t|a h]|] eqn:Hl.
  - unfold isProxy. rewrite (isReactive_raw _ _ _ _ Hinv Hl). simpl.
    by eapply isReadonly_raw.
  - destruct (isReactive_total σ (S fuel) (VRef l) Hinv Hfuel) as [b Hb].
    unfold isProxy. rewrite Hb. simpl. destruct b; [done|].
    rewrite (isReadonly_proxy _ _ _ _ Hl).
    destruct (handler_readonly h) eqn:Hh; [done|].
    rewrite (isReactive_mutable_proxy _ _ _ _ _ Hl Hh) in Hb. done.
  - assert (Hro : isReadonly σ (VRef l) = Ok false) by (by rewrite isReadonly_ref, Hl).
    unfold isProxy. cbn [isReactive]. rewrite Hro. simpl.
    unfold flag_query. simpl. by rewrite Hl.
Qed.

Lemma raw_of_proxyb σ v :
  inv σ → proxyb (heap σ) (raw_of (heap σ) v) = false.
Proof.
  intros Hinv. pose proof (raw_of_not_proxy σ v Hinv) as Hn.
  destruct (raw_of (heap σ) v) as [| | | | | | |l] eqn:E; try done. simpl.
  destruct (heap_lookup (heap σ) l) as [[t|a h]|] eqn:Hl; try done.
  destruct Hn. by exists l, a, h.
Qed.

(** X7. [toRaw] and [isProxy] agree.  In a well-formed state, what [toRaw]
    returns is never a proxy: [isProxy] is false of it and [toRaw] maps it
    to itself; and [toRaw] returns its argument exactly when [isProxy] is
    false of the argument. *)
Theorem toRaw_fixed_point σ x fuel :
  inv σ → 3 ≤ fuel →
  ∃ y, toRaw fuel σ x = Ok y ∧
       toRaw fuel σ y = Ok y ∧
       isProxy fuel σ y = Ok false ∧
       (isProxy fuel σ x = Ok false → y = x) ∧
       (isProxy fuel σ x = Ok true → y ≠ x).
Proof.
  intros Hinv Hfuel. exists (raw_of (heap σ) x).
  pose proof (raw_of_proxyb σ x Hinv) as Hy.
  split; [by apply toRaw_inv|].
  split.
  { rewrite toRaw_inv by done. f_equal. apply raw_of_id.
    intros (l & a & h & E & Hl). rewrite E in Hy. simpl in Hy. by rewrite Hl in Hy. }
  rewrite !isProxy_proxyb by done.
  split; [by f_equal|]. split.
  - intros [= Hx]. apply raw_of_id. intros (l & a & h & -> & Hl).
    simpl in Hx. by rewrite Hl in Hx.
  - intros [= Hx] E. rewrite E in Hy. congruence.
Qed.

Lemma toRaw_fixed_point_witness :
  ∃ y, toRaw 3 (initial [plainObject]) (VRef 0) = Ok y ∧
       toRaw 3 (initial [plainObject]) y = Ok y ∧
       isProxy 3 (initial [plainObject]) y = Ok false.
Proof.
  destruct (toRaw_fixed_point (initial [plainObject]) (VRef 0) 3)
    as (y & Q1 & Q2 & Q3 & _).
  - apply inv_initial. constructor; [by intros []|constructor].
  - lia.
  - exists y. split; [exact Q1|]. split; [exact Q2|exact Q3].
Defined.

(** X8. [toReactive] and [toReadonly] never warn.  On an object they are
    [reactive] and [readonly]; a value that is not an object comes back
    with the state untouched, where [reactive] and [readonly] would log a
    warning in a development build. *)
Theorem toReactive_toReadonly_quiet DEV v σ :
  (∃ r σ', toReactive DEV v σ = Ok (r, σ') ∧ console σ' = console σ ∧
           (isObject v = true → reactive DEV v σ = Ok (r, σ')) ∧
           (isObject v = false →
            r = v ∧ σ' = σ ∧
            reactive DEV v σ = Ok (v, if DEV then warn σ v else σ))) ∧
  (∃ r σ', toReadonly DEV v σ = Ok (r, σ') ∧ console σ' = console σ ∧
           (isObject v = true → readonly DEV v σ = Ok (r, σ')) ∧
           (isObject v = false →
            r = v ∧ σ' = σ ∧
            readonly DEV v σ = Ok (v, if DEV then warn σ v else σ))).
Proof.
  assert (H : ∀ k, ∃ r σ',
    (if isObject v then wrap DEV k v σ else Ok (v, σ)) = Ok (r, σ') ∧
    console σ' = console σ ∧
    (isObject v = true → wrap DEV k v σ = Ok (r, σ')) ∧
    (isObject v = false →
     r = v ∧ σ' = σ ∧ wrap DEV k v σ = Ok (v, if DEV then warn σ v else σ))).
  { intros k. destruct (isObject v) eqn:Hv.
    - destruct (wrap_total DEV k v σ) as (r & σ' & Hw). exists r, σ'.
      split; [done|]. split; [|by split].
      destruct (wrap_frame_facts _ _ _ _ _ _ Hw) as (_ & _ & _ & _ & Hlog). auto.
    - exists v, σ. split; [done|]. split; [done|]. split; [done|].
      intros _. split; [done|]. split; [done|]. by apply wrap_prim. }
  split; [apply (H KReactive)|apply (H KReadonly)].
Qed.

(** Once [heap_define_skip] has gone through, the object reads [SKIP] as
    true, directly or through its proxies. *)
Lemma heap_define_skip_marks hp l hp' :
  heap_define_skip hp l = Some hp' →
  get_prop hp' (VRef l) SKIP = Ok (VBool true) ∧
  ∃ t', backing hp' l = Some t' ∧ v_skip t' = Some true.
Proof.
  revert l hp'. induction hp as [|o hp IH]; intros l hp'; [done|].
  cbn [heap_define_skip]. case_decide as Hlen.
  - destruct o as [t|tl0 h].
    + destruct (define_skip t) as [t'|] eqn:Ed; simpl; [|done].
      intros [= <-]. simpl. rewrite !decide_True by done.
      unfold define_skip in Ed. case_match; [|done]. injection Ed as <-.
      split; [done|]. by eexists.
    + destruct (heap_define_skip hp tl0) as [hp''|] eqn:E; simpl; [|done].
      intros [= <-].
      destruct (IH _ _ E) as (_ & t' & Hb & Hs).
      pose proof (heap_define_skip_length _ _ _ E) as Hlen'.
      pose proof (backing_lt _ _ _ Hb) as Hlt.
      simpl. destruct (decide (l = length hp'')) as [_|Hn]; [|congruence].
      rewrite decide_False by lia. rewrite Hb, Hs.
      split; [done|]. by eexists.
  - destruct (heap_define_skip hp l) as [hp''|] eqn:E; simpl; [|done].
    intros [= <-].
    destruct (IH _ _ E) as (Hg & t' & Hb & Hs).
    pose proof (heap_define_skip_length _ _ _ E) as Hlen'.
    simpl. destruct (decide (l = length hp'')) as [?|_]; [congruence|].
    split; [|by eexists].
    simpl in Hg. destruct (heap_lookup hp'' l) as [[t|tl0 h]|]; [done| |done].
    simpl in *. destruct (backing hp'' tl0) as [t0|] eqn:Hb0; [|done].
    pose proof (backing_lt _ _ _ Hb0). by rewrite decide_False by lia.
Qed.

(** X9. [markRaw] and the wraps.  [markRaw] returns its argument and touches no
    identity map and no log; afterwards every wrap returns the object
    itself, whatever its kind, unless the identity map of the kind held a
    proxy for it before the call. *)
Theorem markRaw_then_wrap DEV k v σ r σ' :
  markRaw v σ = Ok (r, σ') →
  r = v ∧
  (∀ m, proxyMap_of σ' m = proxyMap_of σ m) ∧ console σ' = console σ ∧
  getTargetType (heap σ') v = Ok INVALID ∧
  (truthy (weakmap_get σ (kind_map k) v) = false →
   wrap DEV k v σ' = Ok (v, σ')).
Proof.
  unfold markRaw. destruct v; try done.
  destruct (heap_define_skip (heap σ) l) as [hp|] eqn:E; [|done].
  intros [= <- <-].
  destruct (heap_define_skip_marks _ _ _ E) as (Hskip & _).
  assert (Hty : target_type (set_heap σ hp).(heap) l = INVALID).
  { unfold target_type, getTargetType. cbn [heap set_heap]. by rewrite Hskip. }
  split; [done|]. split; [by intros []|]. split; [done|].
  split; [by rewrite getTargetType_ref, Hty|].
  intros Hget. rewrite wrap_ref.
  replace (weakmap_get (set_heap σ hp) (kind_map k) (VRef l))
    with (weakmap_get σ (kind_map k) (VRef l)) by (by destruct k).
  rewrite Hget, Hty. by repeat case_match.
Qed.

Lemma markRaw_then_wrap_witness :
  ∃ σ',
    markRaw (VRef 0) (initial [plainObject]) = Ok (VRef 0, σ') ∧
    reactive true (VRef 0) σ' = Ok (VRef 0, σ').
Proof.
  eexists. split; [reflexivity|].
  destruct (markRaw_then_wrap true KReactive (VRef 0) (initial [plainObject])
              _ _ eq_refl) as (_ & _ & _ & _ & Hwrap).
  exact (Hwrap eq_refl).
Defined.

(** X10. The handler table of a new proxy.  The first wrap, under a kind,
    of an ordinary object that answers none of the four hidden flags and
    can be wrapped allocates one proxy of it and registers it in the
    identity map of the kind; the proxy gets the kind's collection handlers
    when the object is a [Map], [Set], [WeakMap] or [WeakSet], and the
    kind's base handlers when it is an [Object] or an [Array]. *)
Theorem wrap_picks_handlers DEV k σ l t :
  heap_lookup (heap σ) l = Some (ORaw t) → unflagged t → wrappable t →
  proxyMap_of σ (kind_map k) !! l = None →
  ∃ σ1,
    wrap DEV k (VRef l) σ = Ok (VRef (length (heap σ)), σ1) ∧
    heap σ1 =
      OProxy l (if collectionType (rawType t) then (kind_handlers k).2
                else (kind_handlers k).1) :: heap σ ∧
    proxyMap_of σ1 (kind_map k) =
      <[l := VRef (length (heap σ))]> (proxyMap_of σ (kind_map k)) ∧
    (collectionType (rawType t) = false → rawType t = "Object" ∨ rawType t = "Array").
Proof.
  intros Hl Ht Hw Hnone.
  destruct (wrappable_valid _ _ _ Hl Hw) as [Hty Hvalid].
  assert (Hcoll : (if decide (targetTypeMap (rawType t) = COLLECTION)
                   then (kind_handlers k).2 else (kind_handlers k).1) =
                  (if collectionType (rawType t) then (kind_handlers k).2
                   else (kind_handlers k).1) ∧
                  (collectionType (rawType t) = false →
                   rawType t = "Object" ∨ rawType t = "Array")).
  { destruct Hw as (_ & _ & Hall). unfold allowedType in Hall.
    rewrite !elem_of_cons, elem_of_nil in Hall.
    destruct Hall as [->|[->|[->|[->|[->|[->|[]]]]]]]; split; auto; done. }
  destruct Hcoll as [Hc1 Hc2].
  rewrite (wrap_raw _ _ _ _ _ Hl Ht).
  unfold weakmap_get. rewrite Hnone. cbn [default truthy].
  rewrite decide_False by done. rewrite Hty, Hc1.
  eexists. split; [reflexivity|]. cbn [heap weakmap_set set_heap].
  split; [done|]. split; [|done].
  by rewrite proxyMap_of_weakmap_set, decide_True, proxyMap_of_set_heap.
Qed.

(** A [Map] object. *)
Definition mapObject : Target :=
  {| v_skip := None; v_isReactive := None; v_isReadonly := None;
     v_isShallow := None; v_raw := None; rawType := "Map";
     extensible := true |}.

Lemma wrap_picks_handlers_witness :
  ∃ σ1,
    readonly true (VRef 0) (initial [mapObject]) = Ok (VRef 1, σ1) ∧
    heap σ1 = [OProxy 0 readonlyCollectionHandlers; ORaw mapObject].
Proof.
  destruct (wrap_picks_handlers true KReadonly (initial [mapObject]) 0 mapObject)
    as (σ1 & Hw & Hh & _).
  - reflexivity.
  - by intros [].
  - split; [done|]. split; [done|]. unfold allowedType. simpl.
    rewrite !elem_of_cons. right. right. by left.
  - reflexivity.
  - exists σ1. split; [exact Hw|exact Hh].
Defined.

End ReactiveLaws.

(** ** The async component wrapper: further laws *)

Module AsyncComponentLaws.
Import AsyncComponent AsyncComponentTheory.

Section Wrapper.

Variable source : AsyncComponentOptions.
Variable DEV : bool.

Local Abbreviation loader_catch := (loader_catch source).
Local Abbreviation setup := (setup source).
Local Abbreviation timeout_callback := (timeout_callback source DEV).
Local Abbreviation instance_catch := (instance_catch source DEV).
Local Abbreviation instance_onError := (instance_onError source).
Local Abbreviation onError_throws := (onError_throws source DEV).
Local Abbreviation render := (render source).
Local Abbreviation step := (step source DEV).
Local Abbreviation reachable := (reachable source DEV).

Lemma update_instance_instances i f s j :
  i ≠ j → instances (update_instance i f s) !! j = instances s !! j.
Proof.
  intros Hne. unfold update_instance.
  destruct (instances s !! i) as [[|t]|]; try done.
  simpl. by apply list_lookup_insert_ne.
Qed.

Lemma update_instance_Resolved i f s j :
  instances s !! j = Some Resolved →
  instances (update_instance i f s) !! j = Some Resolved.
Proof.
  intros Hj. destruct (decide (i = j)) as [->|Hne].
  - unfold update_instance. by rewrite Hj.
  - by rewrite update_instance_instances.
Qed.

(** An instance after [update_instance]: itself, or with [f] applied. *)
Lemma update_instance_Tracked i f s j t' :
  instances (update_instance i f s) !! j = Some (Tracked t') →
  instances s !! j = Some (Tracked t') ∨
  ∃ t, i = j ∧ instances s !! j = Some (Tracked t) ∧ t' = f t.
Proof.
  destruct (decide (i = j)) as [->|Hne].
  - unfold update_instance. destruct (instances s !! j) as [[|t]|] eqn:Hj.
    + by rewrite Hj.
    + cbn [instances set_instances].
      rewrite list_lookup_insert_eq by (by eapply lookup_lt_Some).
      intros [= <-]. right. by exists t.
    + by rewrite Hj.
  - rewrite update_instance_instances by done. auto.
Qed.

Lemma update_instance_loaderCalls i f s :
  loaderCalls (update_instance i f s) = loaderCalls s.
Proof. unfold update_instance. by repeat case_match. Qed.

Lemma load_requests s :
  requests (load s).2 = requests s ∨ requests (load s).2 = requests s ++ [Loading].
Proof. unfold load. destruct (pendingRequest s); simpl; auto. Qed.

Lemma load_resolvedComp s : resolvedComp (load s).2 = resolvedComp s.
Proof. unfold load. by destruct (pendingRequest s). Qed.

Lemma load_instances s : instances (load s).2 = instances s.
Proof. unfold load. by destruct (pendingRequest s). Qed.

Lemma retry_spec s :
  ∃ s1, retry s = (length (requests s), s1) ∧
        requests s1 = requests s ++ [Loading] ∧
        pendingRequest s1 = Some (length (requests s)) ∧
        retries s1 = S (retries s) ∧
        loaderCalls s1 = S (loaderCalls s) ∧
        resolvedComp s1 = resolvedComp s ∧
        instances s1 = instances s ∧
        userOnErrorCalls s1 = userOnErrorCalls s ∧
        reported s1 = reported s.
Proof. unfold retry, load. simpl. eexists. by repeat split. Qed.

Lemma lookup_insert_Fulfilled (rs : list Phase) p q x c :
  (∀ c', x ≠ Fulfilled c') →
  <[p := x]> rs !! q = Some (Fulfilled c) → rs !! q = Some (Fulfilled c).
Proof.
  intros Hx [(_ & -> & _)|[_ ?]]%list_lookup_insert_Some; [|done].
  by destruct (Hx c).
Qed.

Lemma lookup_app_Fulfilled (rs : list Phase) q c :
  (rs ++ [Loading]) !! q = Some (Fulfilled c) → rs !! q = Some (Fulfilled c).
Proof.
  intros [?|[_ H]]%lookup_app_Some; [done|].
  destruct (q - length rs) as [|n]; simpl in H; [done|by destruct n].
Qed.

Lemma load_Fulfilled s q c :
  requests (load s).2 !! q = Some (Fulfilled c) → requests s !! q = Some (Fulfilled c).
Proof.
  destruct (load_requests s) as [->| ->]; [done|apply lookup_app_Fulfilled].
Qed.

Lemma timeout_callback_requests i s : requests (timeout_callback i s) = requests s.
Proof.
  unfold AsyncComponent.timeout_callback. repeat case_match; try done.
  by rewrite update_instance_requests.
Qed.

Lemma instance_catch_requests i e s : requests (instance_catch i e s) = requests s.
Proof.
  unfold AsyncComponent.instance_catch. case_match; [done|].
  by rewrite update_instance_requests.
Qed.

Lemma instance_catch_resolvedComp i e s :
  resolvedComp (instance_catch i e s) = resolvedComp s.
Proof.
  unfold AsyncComponent.instance_catch. case_match; [done|].
  by rewrite update_instance_resolvedComp.
Qed.

Lemma timeout_callback_resolvedComp i s :
  resolvedComp (timeout_callback i s) = resolvedComp s.
Proof.
  unfold AsyncComponent.timeout_callback. repeat case_match; try done.
  by rewrite update_instance_resolvedComp.
Qed.

Lemma instance_then_requests i s : requests (instance_then i s) = requests s.
Proof.
  unfold instance_then. repeat case_match; simpl;
    by rewrite ?update_instance_requests.
Qed.

Lemma instance_then_resolvedComp i s :
  resolvedComp (instance_then i s) = resolvedComp s.
Proof.
  unfold instance_then. repeat case_match; simpl;
    by rewrite ?update_instance_resolvedComp.
Qed.

Lemma setup_requests ka s :
  requests (setup ka s) = requests s ∨ requests (setup ka s) = requests s ++ [Loading].
Proof.
  unfold AsyncComponent.setup. destruct (resolvedComp s); [by left|].
  pose proof (load_requests s). by destruct (load s).
Qed.

Lemma setup_resolvedComp ka s : resolvedComp (setup ka s) = resolvedComp s.
Proof.
  unfold AsyncComponent.setup. destruct (resolvedComp s) eqn:E; [done|].
  pose proof (load_resolvedComp s) as H. destruct (load s). simpl in *. congruence.
Qed.

Lemma userRetry_facts p s :
  ∃ s1, retry s = (length (requests s), s1) ∧
        (userRetry p s = s1 ∨
         (∃ e, requests s1 !! p = Some (AwaitingUser e)) ∧
         userRetry p s =
           set_requests (<[p := Forwarded (length (requests s))]> (requests s1)) s1).
Proof.
  destruct (retry_spec s) as (s1 & Hr & _). exists s1. split; [done|].
  unfold userRetry. rewrite Hr.
  destruct (requests s1 !! p) as [[]|]; eauto.
Qed.

(** What a step does to the requests that are fulfilled, and to the
    resolved component. *)
Lemma step_resolved s s' :
  step s s' →
  (is_Some (resolvedComp s) → is_Some (resolvedComp s')) ∧
  (∀ q c, requests s' !! q = Some (Fulfilled c) →
          requests s !! q = Some (Fulfilled c) ∨ is_Some (resolvedComp s')).
Proof.
  destruct 1.
  - rewrite load_resolvedComp. split; [done|]. intros q c0 ?%load_Fulfilled. auto.
  - rewrite setup_resolvedComp. split; [done|]. intros q c0.
    destruct (setup_requests ka s) as [->| ->]; [auto|].
    intros ?%lookup_app_Fulfilled. auto.
  - simpl. split; [by eauto|]. intros; right; by eauto.
  - split.
    + unfold AsyncComponent.loader_catch. by case_match.
    + intros q c0 Hq. left. unfold AsyncComponent.loader_catch in Hq.
      case_match; simpl in Hq; by eapply lookup_insert_Fulfilled in Hq.
  - destruct (retry_spec s) as (s1 & Hr & Hreq & _ & _ & _ & Hres & _).
    destruct (userRetry_facts p s) as (s1' & Hr' & Hu).
    rewrite Hr in Hr'. injection Hr' as <-.
    destruct Hu as [->|[_ ->]]; simpl; rewrite Hres; (split; [done|]);
      intros q c0 Hq; left.
    + rewrite Hreq in Hq. by apply lookup_app_Fulfilled in Hq.
    + apply lookup_insert_Fulfilled in Hq; [|done].
      rewrite Hreq in Hq. by apply lookup_app_Fulfilled in Hq.
  - unfold userFail. destruct (requests s !! p) as [[]|]; simpl; try by auto.
    split; [done|]. intros q c0 Hq. left. by eapply lookup_insert_Fulfilled in Hq.
  - simpl. split; [by eauto|]. intros; right; by eauto.
  - simpl. split; [done|]. intros q c0 Hq. left.
    by eapply lookup_insert_Fulfilled in Hq.
  - unfold delay_callback.
    rewrite !update_instance_resolvedComp, !update_instance_requests. auto.
  - rewrite timeout_callback_resolvedComp, timeout_callback_requests.
    rewrite !update_instance_resolvedComp, !update_instance_requests. auto.
  - rewrite instance_then_resolvedComp, instance_then_requests.
    rewrite !update_instance_resolvedComp, !update_instance_requests. auto.
  - rewrite instance_catch_resolvedComp, instance_catch_requests.
    rewrite !update_instance_resolvedComp, !update_instance_requests. auto.
Qed.

Lemma steps_resolved s s' :
  rtc step s s' → is_Some (resolvedComp s) → is_Some (resolvedComp s').
Proof.
  induction 1 as [|s1 s2 s3 Hstep _ IH]; [done|].
  intros H. apply IH. by apply (step_resolved _ _ Hstep).
Qed.

(** In a reachable state a fulfilled request has left a resolved
    component behind. *)
Lemma reachable_Fulfilled s q c :
  reachable s → requests s !! q = Some (Fulfilled c) → is_Some (resolvedComp s).
Proof.
  unfold AsyncComponent.reachable. intros H. revert q c.
  apply rtc_ind_r with (x := initial) (P := λ s,
    ∀ q c, requests s !! q = Some (Fulfilled c) → is_Some (resolvedComp s))
    in H; [done|intros q c; simpl; by rewrite lookup_nil|].
  intros s1 s2 _ Hstep IH q c Hq.
  destruct (step_resolved _ _ Hstep) as [Hmono Hful].
  destruct (Hful _ _ Hq) as [Hold|?]; [|done]. apply Hmono. by eapply IH.
Qed.

(** What the model keeps of every tracked instance: [loaded] is set only
    beside a resolved component, the delay timer clears [delayed] when it
    fires, and [delayed] starts out true only under a non-zero delay. *)
Definition tracking_ok (s : State) (t : Tracking) : Prop :=
  (loaded t = true → is_Some (resolvedComp s)) ∧
  (delayTimer t = true → delayed t = true) ∧
  (delayed t = true → the_delay source ≠ 0).

Definition instances_ok (s : State) : Prop :=
  ∀ i t, instances s !! i = Some (Tracked t) → tracking_ok s t.

Lemma update_instance_compose i f g s :
  update_instance i f (update_instance i g s) = update_instance i (λ t, f (g t)) s.
Proof.
  unfold update_instance at 2 3.
  destruct (instances s !! i) as [[|t]|] eqn:Hi.
  - unfold update_instance. by rewrite Hi.
  - unfold update_instance. cbn [instances set_instances].
    rewrite list_lookup_insert_eq by (by eapply lookup_lt_Some).
    unfold set_instances. simpl. by rewrite list_insert_insert_eq.
  - unfold update_instance. by rewrite Hi.
Qed.

Lemma update_instance_ok i f s s0 :
  resolvedComp s0 = resolvedComp s →
  (∀ t, tracking_ok s t → tracking_ok s (f t)) →
  instances_ok s →
  instances s0 = instances (update_instance i f s) →
  instances_ok s0.
Proof.
  intros Hres Hf Hok Hinst j t'. rewrite Hinst.
  assert (Heq : ∀ t, tracking_ok s t → tracking_ok s0 t).
  { intros t. unfold tracking_ok. by rewrite Hres. }
  intros [Hj|(t & -> & Hj & ->)]%update_instance_Tracked; apply Heq; eauto.
Qed.

Lemma instances_ok_same s s0 :
  instances s0 = instances s →
  (is_Some (resolvedComp s) → is_Some (resolvedComp s0)) →
  instances_ok s → instances_ok s0.
Proof.
  intros Hi Hres Hok j t. rewrite Hi. intros (H1 & H2 & H3)%Hok.
  split; [|done]. auto.
Qed.

Lemma instance_onError_instances i e s :
  instances (instance_onError i e s) = instances s.
Proof. done. Qed.

Lemma step_instances_ok s s' :
  reachable s → step s s' → instances_ok s → instances_ok s'.
Proof.
  intros Hreach Hstep Hok.
  pose proof (proj1 (step_resolved _ _ Hstep)) as Hmono.
  destruct Hstep.
  - apply (instances_ok_same s); [apply load_instances|exact Hmono|done].
  - intros j t'. unfold AsyncComponent.setup in *.
    destruct (resolvedComp s) as [c|] eqn:Hres.
    + cbn [instances set_instances].
      intros [Hj|[_ Hj]]%lookup_app_Some.
      * destruct (Hok _ _ Hj) as (H1 & H2 & H3). split; [|done]. simpl.
        rewrite Hres. eauto.
      * destruct (j - length (instances s)) as [|[|n]]; simpl in Hj; done.
    + pose proof (load_instances s) as Hli. pose proof (load_resolvedComp s) as Hlr.
      destruct (load s) as [p s1]. simpl in Hli, Hlr.
      cbn [instances set_instances]. rewrite Hli.
      intros [Hj|[_ Hj]]%lookup_app_Some.
      * destruct (Hok _ _ Hj) as (H1 & H2 & H3). split; [|done]. simpl.
        by rewrite Hlr.
      * destruct (j - length (instances s)) as [|[|n]]; simpl in Hj; try done.
        injection Hj as <-. split; [done|]. simpl. split; [done|].
        intros Hd E. by rewrite E in Hd.
  - apply (instances_ok_same s); [done|exact Hmono|done].
  - apply (instances_ok_same s); [|exact Hmono|done].
    unfold AsyncComponent.loader_catch. by case_match.
  - apply (instances_ok_same s); [|exact Hmono|done].
    destruct (retry_spec s) as (s1 & Hr & _ & _ & _ & _ & _ & Hinst & _).
    destruct (userRetry_facts p s) as (s1' & Hr' & Hu).
    rewrite Hr in Hr'. injection Hr' as <-.
    by destruct Hu as [->|[_ ->]].
  - apply (instances_ok_same s); [|exact Hmono|done].
    unfold userFail. by repeat case_match.
  - apply (instances_ok_same s); [done|exact Hmono|done].
  - apply (instances_ok_same s); [done|exact Hmono|done].
  - unfold delay_callback. rewrite update_instance_compose.
    eapply update_instance_ok; [|..|done|reflexivity].
    + by rewrite update_instance_resolvedComp.
    + intros t0 (H1 & H2 & H3). split; [done|]. by split.
  - set (s0 := update_instance i (set_timeoutTimer false) s).
    assert (Hok0 : instances_ok s0).
    { eapply update_instance_ok; [..|done|reflexivity].
      - apply update_instance_resolvedComp.
      - by intros t0 (H1 & H2 & H3). }
    assert (Hres0 : resolvedComp s0 = resolvedComp s)
      by apply update_instance_resolvedComp.
    unfold AsyncComponent.timeout_callback.
    destruct (instances s0 !! i) as [[|t0]|]; try done.
    destruct (timeout source) as [ms|]; [|done].
    case_match; [|done].
    assert (Hok1 : instances_ok (instance_onError i (TimeoutError ms) s0)).
    { apply (instances_ok_same s0); [done|done|done]. }
    destruct (AsyncComponent.onError_throws source DEV); [done|].
    eapply (update_instance_ok i _ (instance_onError i (TimeoutError ms) s0));
      [..|reflexivity].
    + by rewrite update_instance_resolvedComp.
    + by intros t1 (H1' & H2' & H3').
    + done.
  - destruct (reachable_Fulfilled _ _ _ Hreach H1) as [c' Hc'].
    set (s0 := update_instance i (set_notified true) s).
    assert (Hres0 : resolvedComp s0 = resolvedComp s)
      by apply update_instance_resolvedComp.
    assert (Hok0 : instances_ok s0).
    { eapply update_instance_ok; [..|done|reflexivity]; [done|].
      by intros t0 (H1' & H2' & H3'). }
    assert (Hok1 : instances_ok (update_instance i (set_loaded true) s0)).
    { eapply update_instance_ok; [..|exact Hok0|reflexivity].
      - apply update_instance_resolvedComp.
      - intros t0 (H1' & H2' & H3'). split; [|done]. intros _.
        rewrite Hres0, Hc'. eauto. }
    unfold instance_then. destruct (instances s0 !! i) as [[|t0]|]; try done.
    destruct (parentKeepAlive t0); [|done].
    apply (instances_ok_same (update_instance i (set_loaded true) s0)); [done|done|done].
  - unfold AsyncComponent.instance_catch.
    set (s0 := update_instance i (set_notified true) s).
    assert (Hok0 : instances_ok s0).
    { eapply update_instance_ok; [..|done|reflexivity].
      - apply update_instance_resolvedComp.
      - by intros t0 (H1' & H2' & H3'). }
    assert (Hok1 : instances_ok (instance_onError i e s0)).
    { apply (instances_ok_same s0); [done|done|done]. }
    destruct (AsyncComponent.onError_throws source DEV); [done|].
    eapply (update_instance_ok i _ (instance_onError i e s0)); [..|reflexivity].
    + by rewrite update_instance_resolvedComp.
    + by intros t1 (H1' & H2' & H3').
    + done.
Qed.

Lemma reachable_instances_ok s : reachable s → instances_ok s.
Proof.
  unfold AsyncComponent.reachable. intros H.
  apply rtc_ind_r with (x := initial)
    (P := λ s, rtc step initial s ∧ instances_ok s) in H; [by destruct H| |].
  - split; [done|]. intros i t. simpl. by rewrite lookup_nil.
  - intros s1 s2 _ Hstep [Hr Hok]. split; [by eapply rtc_r|].
    by eapply step_instances_ok.
Qed.

Lemma timeout_callback_Resolved i s j :
  instances s !! j = Some Resolved →
  instances (timeout_callback i s) !! j = Some Resolved.
Proof.
  intros Hj. unfold AsyncComponent.timeout_callback. repeat case_match; try done.
  by apply update_instance_Resolved.
Qed.

Lemma instance_then_Resolved i s j :
  instances s !! j = Some Resolved →
  instances (instance_then i s) !! j = Some Resolved.
Proof.
  intros Hj. unfold instance_then.
  destruct (instances s !! i) as [[|t]|]; try done.
  destruct (parentKeepAlive t); simpl; by apply update_instance_Resolved.
Qed.

Lemma step_Resolved s s' j :
  step s s' → instances s !! j = Some Resolved → instances s' !! j = Some Resolved.
Proof.
  intros Hstep Hj. destruct Hstep.
  - by rewrite load_instances.
  - unfold AsyncComponent.setup. destruct (resolvedComp s).
    + cbn [instances set_instances]. by apply lookup_app_l_Some.
    + pose proof (load_instances s) as Hli. destruct (load s) as [p s1].
      cbn [instances set_instances]. simpl in Hli. rewrite Hli.
      by apply lookup_app_l_Some.
  - done.
  - unfold AsyncComponent.loader_catch. by case_match.
  - destruct (retry_spec s) as (s1 & Hr & _ & _ & _ & _ & _ & Hinst & _).
    destruct (userRetry_facts p s) as (s1' & Hr' & Hu).
    rewrite Hr in Hr'. injection Hr' as <-.
    destruct Hu as [->|[_ ->]]; simpl; by rewrite Hinst.
  - unfold userFail. by repeat case_match.
  - done.
  - done.
  - unfold delay_callback. by do 2 apply update_instance_Resolved.
  - by apply timeout_callback_Resolved, update_instance_Resolved.
  - apply instance_then_Resolved. by apply update_instance_Resolved.
  - unfold AsyncComponent.instance_catch.
    destruct (AsyncComponent.onError_throws source DEV).
    + simpl. by apply update_instance_Resolved.
    + apply update_instance_Resolved. simpl. by apply update_instance_Resolved.
Qed.

Lemma userFail_settled p s x :
  requests s !! p = Some x → (∀ e, x ≠ AwaitingUser e) → userFail p s = s.
Proof.
  intros Hp Hx. unfold userFail. rewrite Hp. destruct x; try done. by destruct (Hx e).
Qed.

Lemma steps_Resolved s s' j :
  rtc step s s' → instances s !! j = Some Resolved → instances s' !! j = Some Resolved.
Proof.
  induction 1 as [|s1 s2 s3 Hstep _ IH]; [done|].
  intros Hj. apply IH. by eapply step_Resolved.
Qed.

(** After a rejection handed to [userOnError], and after [userRetry]. *)
Lemma userOnError_facts p r s :
  onError source = true →
  requests s !! p = Some Loading →
  loader_catch p r s =
    set_userOnErrorCalls ((toError r, p, retries s + 1) :: userOnErrorCalls s)
      (set_requests (<[p := AwaitingUser (toError r)]> (requests s)) s) ∧
  requests (loader_catch p r s) !! p = Some (AwaitingUser (toError r)) ∧
  (∃ sr, retry (loader_catch p r s) = (length (requests s), sr) ∧
         userRetry p (loader_catch p r s) =
           set_requests (<[p := Forwarded (length (requests s))]> (requests sr)) sr) ∧
  requests (userRetry p (loader_catch p r s)) !! p =
    Some (Forwarded (length (requests s))).
Proof.
  unfold Promise in *.
  intros Hon Hp. pose proof (lookup_lt_Some _ _ _ Hp) as Hlt.
  assert (Hs1 : loader_catch p r s =
    set_userOnErrorCalls ((toError r, p, retries s + 1) :: userOnErrorCalls s)
      (set_requests (<[p := AwaitingUser (toError r)]> (requests s)) s)).
  { unfold AsyncComponent.loader_catch. by rewrite Hon. }
  set (s1 := loader_catch p r s) in *.
  assert (Hlen1 : length (requests s1) = length (requests s)).
  { rewrite Hs1. simpl. apply length_insert. }
  assert (Hp1 : requests s1 !! p = Some (AwaitingUser (toError r))).
  { rewrite Hs1. simpl. by apply list_lookup_insert_eq. }
  destruct (retry_spec s1) as (sr & Hr & Hreq & _).
  assert (Hs2 : userRetry p s1 =
                set_requests (<[p := Forwarded (length (requests s))]> (requests sr)) sr).
  { unfold userRetry. rewrite Hr, Hreq, lookup_app_l by lia.
    by rewrite Hp1, Hlen1. }
  split; [done|]. split; [done|]. split.
  - exists sr. split; [by rewrite <-Hlen1|done].
  - rewrite Hs2. simpl. apply list_lookup_insert_eq.
    rewrite Hreq, length_app. simpl. lia.
Qed.

(** *** The properties *)

(** X11. A retry that succeeds.  With a user [onError] configured, a loader
    rejection hands [userOnError] the normalised error and the attempt
    number [retries + 1], and calls no loader; [userRetry] then counts one
    retry, calls the loader once and makes the new request the pending one;
    when that request resolves with a component, the original request
    resolves with the same component, which becomes [resolvedComp]. *)
Theorem retry_resolves_original p r c s :
  onError source = true →
  requests s !! p = Some Loading →
  ∃ s1 s2 s3 s4 p',
    s1 = loader_catch p r s ∧ s2 = userRetry p s1 ∧ p' = length (requests s) ∧
    s3 = loader_then p' c s2 ∧ s4 = loader_then p c s3 ∧
    step s s1 ∧ step s1 s2 ∧ step s2 s3 ∧ step s3 s4 ∧
    userOnErrorCalls s1 = (toError r, p, retries s + 1) :: userOnErrorCalls s ∧
    requests s1 !! p = Some (AwaitingUser (toError r)) ∧
    loaderCalls s1 = loaderCalls s ∧
    retries s2 = S (retries s) ∧ loaderCalls s2 = S (loaderCalls s) ∧
    pendingRequest s2 = Some p' ∧ p' ≠ p ∧
    requests s2 !! p' = Some Loading ∧
    requests s2 !! p = Some (Forwarded p') ∧
    requests s4 !! p = Some (Fulfilled c) ∧ resolvedComp s4 = Some c.
Proof.
  unfold Promise in *.
  intros Hon Hp. pose proof (lookup_lt_Some _ _ _ Hp) as Hlt.
  set (s1 := loader_catch p r s).
  assert (Hs1 : s1 = set_userOnErrorCalls
                       ((toError r, p, retries s + 1) :: userOnErrorCalls s)
                       (set_requests (<[p := AwaitingUser (toError r)]> (requests s)) s)).
  { unfold s1, AsyncComponent.loader_catch. by rewrite Hon. }
  assert (Hlen1 : length (requests s1) = length (requests s)).
  { rewrite Hs1. simpl. apply length_insert. }
  assert (Hp1 : requests s1 !! p = Some (AwaitingUser (toError r))).
  { rewrite Hs1. simpl. by apply list_lookup_insert_eq. }
  destruct (retry_spec s1) as (sr & Hr & Hreq & Hpend & Hret & Hcalls & _).
  assert (Hs2 : userRetry p s1 =
                set_requests (<[p := Forwarded (length (requests s))]> (requests sr)) sr).
  { unfold userRetry. rewrite Hr, Hreq, lookup_app_l by lia.
    by rewrite Hp1, Hlen1. }
  set (s2 := userRetry p s1) in *.
  set (p' := length (requests s)).
  assert (Hne : p' ≠ p) by (unfold p'; lia).
  assert (Hp'2 : requests s2 !! p' = Some Loading).
  { rewrite Hs2. simpl. rewrite list_lookup_insert_ne by lia.
    rewrite Hreq, lookup_app_r by lia. by rewrite Hlen1, Nat.sub_diag. }
  assert (Hp2 : requests s2 !! p = Some (Forwarded p')).
  { rewrite Hs2. simpl. apply list_lookup_insert_eq.
    rewrite Hreq, length_app. simpl. lia. }
  exists s1, s2, (loader_then p' c s2), (loader_then p c (loader_then p' c s2)), p'.
  split; [done|]. split; [done|]. split; [done|]. split; [done|]. split; [done|].
  split; [by apply step_loader_rejects|].
  split.
  { apply (step_userRetry source DEV p (toError r)). rewrite Hs1. simpl.
    rewrite elem_of_cons. by left. }
  split; [by apply step_loader_resolves|].
  split.
  { eapply step_forward_fulfil.
    - simpl. rewrite list_lookup_insert_ne by done. exact Hp2.
    - simpl. apply list_lookup_insert_eq. by eapply lookup_lt_Some. }
  split; [by rewrite Hs1|]. split; [done|]. split; [by rewrite Hs1|].
  split; [rewrite Hs2; simpl; by rewrite Hret, Hs1|].
  split; [rewrite Hs2; simpl; by rewrite Hcalls, Hs1|].
  split; [rewrite Hs2; simpl; by rewrite Hpend, Hlen1|].
  split; [done|]. split; [done|]. split; [done|].
  split; [|done].
  simpl. apply list_lookup_insert_eq. rewrite length_insert.
  by eapply lookup_lt_Some.
Qed.

(** X12. A load that fails, with no user [onError].  The request is rejected
    with the normalised error; the [.catch] of the instance clears the
    pending request and reports the error, allowing a throw in development
    only when no error component is configured.  The report throws exactly
    in a development build with no error component: then the error is not
    stored, and the instance is left as it was but for the callback having
    run.  Otherwise the error is stored in the instance.  With an error
    component configured the report never throws, and the render function
    returns the error component with that error.  In every case the next
    [setup], when nothing was resolved, calls the loader again. *)
Theorem failed_load_is_reported i t r s :
  onError source = false →
  instances s !! i = Some (Tracked t) →
  requests s !! request t = Some Loading →
  notified t = false → loaded t = false →
  ∃ s1 s2,
    s1 = loader_catch (request t) r s ∧
    s2 = instance_catch i (toError r) (update_instance i (set_notified true) s1) ∧
    step s s1 ∧ step s1 s2 ∧
    requests s2 !! request t = Some (Rejected (toError r)) ∧
    reported s2 =
      (toError r, i, negb (bool_decide (is_Some (errorComponent source))))
        :: reported s ∧
    pendingRequest s2 = None ∧
    (onError_throws = true ↔ DEV = true ∧ errorComponent source = None) ∧
    (onError_throws = true →
     instances s2 !! i = Some (Tracked (set_notified true t))) ∧
    (onError_throws = false →
     instances s2 !! i =
       Some (Tracked (set_error (Some (toError r)) (set_notified true t)))) ∧
    (∀ ec, errorComponent source = Some ec →
           onError_throws = false ∧ render i s2 = ErrorVNode ec (toError r)) ∧
    (resolvedComp s = None →
     ∀ ka, loaderCalls (setup ka s2) = S (loaderCalls s) ∧
           pendingRequest (setup ka s2) = Some (length (requests s))).
Proof.
  unfold Promise in *.
  intros Hon Hi Hp Hnot Hload.
  set (s1 := loader_catch (request t) r s).
  assert (Hs1 : s1 = set_requests (<[request t := Rejected (toError r)]> (requests s)) s).
  { unfold s1, AsyncComponent.loader_catch. by rewrite Hon. }
  assert (Hi1 : instances s1 !! i = Some (Tracked t)) by (by rewrite Hs1).
  assert (Hp1 : requests s1 !! request t = Some (Rejected (toError r))).
  { rewrite Hs1. simpl. apply list_lookup_insert_eq. by eapply lookup_lt_Some. }
  set (s0 := update_instance i (set_notified true) s1).
  assert (Hi0 : instances s0 !! i = Some (Tracked (set_notified true t)))
    by (by apply lookup_update_instance).
  set (s2 := instance_catch i (toError r) s0).
  assert (Hthrow : onError_throws = true ↔ DEV = true ∧ errorComponent source = None).
  { unfold AsyncComponent.onError_throws, handleError_throws.
    destruct DEV, (errorComponent source); simpl; split; try done.
    - by intros [_ ?].
    - by intros [? _].
    - by intros [? _]. }
  assert (Hi2t : onError_throws = true →
                 instances s2 !! i = Some (Tracked (set_notified true t))).
  { intros Ht. unfold s2, AsyncComponent.instance_catch. by rewrite Ht. }
  assert (Hi2 : onError_throws = false →
                instances s2 !! i =
                Some (Tracked (set_error (Some (toError r)) (set_notified true t)))).
  { intros Ht. unfold s2, AsyncComponent.instance_catch. rewrite Ht.
    by apply lookup_update_instance. }
  assert (Hreq2 : requests s2 = requests s1).
  { unfold s2. rewrite instance_catch_requests. apply update_instance_requests. }
  assert (Hpend2 : pendingRequest s2 = None).
  { unfold s2, AsyncComponent.instance_catch.
    destruct (AsyncComponent.onError_throws source DEV); [done|].
    by rewrite update_instance_pendingRequest. }
  assert (Hres2 : resolvedComp s2 = resolvedComp s).
  { unfold s2. rewrite instance_catch_resolvedComp.
    unfold s0. rewrite update_instance_resolvedComp. by rewrite Hs1. }
  assert (Hcalls2 : loaderCalls s2 = loaderCalls s).
  { unfold s2, AsyncComponent.instance_catch.
    destruct (AsyncComponent.onError_throws source DEV);
      [|rewrite update_instance_loaderCalls];
      simpl; unfold s0; rewrite update_instance_loaderCalls; by rewrite Hs1. }
  exists s1, s2. split; [done|]. split; [done|].
  split; [by apply step_loader_rejects|].
  split; [by eapply step_instance_catch|].
  split; [by rewrite Hreq2|].
  split.
  { unfold s2, AsyncComponent.instance_catch.
    destruct (AsyncComponent.onError_throws source DEV);
      [|rewrite update_instance_reported];
      simpl; unfold s0; rewrite update_instance_reported; by rewrite Hs1. }
  split; [done|]. split; [done|]. split; [done|]. split; [done|]. split.
  - intros ec Hec.
    assert (Hno : onError_throws = false).
    { unfold AsyncComponent.onError_throws, handleError_throws. rewrite Hec.
      simpl. by rewrite andb_false_r. }
    split; [done|].
    unfold AsyncComponent.render. rewrite (Hi2 Hno). simpl.
    by rewrite Hload, Hec.
  - intros Hres ka. unfold AsyncComponent.setup. rewrite Hres2, Hres.
    unfold load. rewrite Hpend2. simpl. rewrite Hcalls2, Hreq2, Hs1. simpl.
    by rewrite length_insert.
Qed.

(** X13. The user's callbacks settle a request once.  After a rejection handed
    to [userOnError]: [userFail] rejects the request with the normalised
    error, and a second [userFail], or a [userFail] after [userRetry],
    changes nothing; a [userRetry] after [userFail] leaves the request
    rejected, yet it still counts a retry and calls the loader. *)
Theorem user_callbacks_settle_once p r s :
  onError source = true →
  requests s !! p = Some Loading →
  requests (userFail p (loader_catch p r s)) !! p = Some (Rejected (toError r)) ∧
  userFail p (userFail p (loader_catch p r s)) = userFail p (loader_catch p r s) ∧
  userFail p (userRetry p (loader_catch p r s)) = userRetry p (loader_catch p r s) ∧
  requests (userRetry p (userFail p (loader_catch p r s))) !! p =
    Some (Rejected (toError r)) ∧
  retries (userRetry p (userFail p (loader_catch p r s))) = S (retries s) ∧
  loaderCalls (userRetry p (userFail p (loader_catch p r s))) = S (loaderCalls s).
Proof.
  unfold Promise in *.
  intros Hon Hp. pose proof (lookup_lt_Some _ _ _ Hp) as Hlt.
  destruct (userOnError_facts p r s Hon Hp) as (Hs1 & Hp1 & Hs2 & Hp2).
  set (s1 := loader_catch p r s) in *.
  assert (Hf : userFail p s1 =
               set_requests (<[p := Rejected (toError r)]> (requests s1)) s1).
  { unfold userFail. by rewrite Hp1. }
  assert (Hpf : requests (userFail p s1) !! p = Some (Rejected (toError r))).
  { rewrite Hf. simpl. apply list_lookup_insert_eq. by eapply lookup_lt_Some. }
  split; [done|]. split; [by eapply userFail_settled|].
  split; [by eapply userFail_settled|].
  destruct (retry_spec (userFail p s1)) as (sr & Hr & Hreq & _ & Hret & Hcalls & _).
  assert (Hu : userRetry p (userFail p s1) = sr).
  { unfold userRetry. rewrite Hr, Hreq.
    rewrite lookup_app_l by (by eapply lookup_lt_Some). by rewrite Hpf. }
  rewrite Hu, Hreq, Hret, Hcalls.
  split; [rewrite lookup_app_l by (by eapply lookup_lt_Some); done|].
  rewrite Hf, Hs1. done.
Qed.

(** X14. A [setup] after the component has resolved.  It calls no loader,
    makes no request and leaves the pending request as it is; the render
    function of the new instance returns the resolved component at once,
    and goes on returning a resolved component whatever happens next. *)
Theorem setup_after_resolution ka c s s' :
  resolvedComp s = Some c →
  rtc step (setup ka s) s' →
  loaderCalls (setup ka s) = loaderCalls s ∧
  requests (setup ka s) = requests s ∧
  pendingRequest (setup ka s) = pendingRequest s ∧
  render (length (instances s)) (setup ka s) = InnerComp c ∧
  ∃ c', resolvedComp s' = Some c' ∧ render (length (instances s)) s' = InnerComp c'.
Proof.
  intros Hres Hsteps.
  assert (Hsetup : setup ka s = set_instances (instances s ++ [Resolved]) s).
  { unfold AsyncComponent.setup. by rewrite Hres. }
  assert (Hi : instances (setup ka s) !! length (instances s) = Some Resolved).
  { rewrite Hsetup. simpl. rewrite lookup_app_r by done. by rewrite Nat.sub_diag. }
  split; [by rewrite Hsetup|]. split; [by rewrite Hsetup|].
  split; [by rewrite Hsetup|]. split.
  { unfold AsyncComponent.render. rewrite Hi. by rewrite Hsetup; simpl; rewrite Hres. }
  assert (Hres' : is_Some (resolvedComp s')).
  { eapply steps_resolved; [done|]. rewrite Hsetup. simpl. rewrite Hres. eauto. }
  assert (Hi' : instances s' !! length (instances s) = Some Resolved).
  { by eapply steps_Resolved. }
  destruct Hres' as [c' Hc']. exists c'. split; [done|].
  unfold AsyncComponent.render. by rewrite Hi', Hc'.
Qed.

(** X15. Once an instance is loaded it shows the component.  In every reachable
    state, an instance whose [loaded] flag is set has a resolved component
    beside it, and its render function returns that component: neither the
    error component nor the loading component, whatever [error] and
    [delayed] hold. *)
Theorem loaded_renders_inner i t s :
  reachable s →
  instances s !! i = Some (Tracked t) →
  loaded t = true →
  ∃ c, resolvedComp s = Some c ∧ render i s = InnerComp c.
Proof.
  intros Hreach Hi Hl.
  destruct (reachable_instances_ok _ Hreach _ _ Hi) as ([c Hc] & _); [done|].
  exists c. split; [done|]. by eapply render_loaded.
Qed.

(** X16. The loading component waits for the delay.  In every reachable state,
    while the delay timer of an instance has not fired, [delayed] is still
    set and the render function does not return the loading component;
    under a delay of zero no timer is set and [delayed] is clear from the
    start, so an instance that is neither loaded nor errored shows the
    loading component at once. *)
Theorem loading_waits_for_delay i t s :
  reachable s →
  instances s !! i = Some (Tracked t) →
  (delayTimer t = true →
   delayed t = true ∧ ∀ lc, render i s ≠ LoadingVNode lc) ∧
  (the_delay source = 0 →
   delayed t = false ∧
   ∀ lc, loadingComponent source = Some lc → loaded t = false → error t = None →
         render i s = LoadingVNode lc).
Proof.
  intros Hreach Hi.
  destruct (reachable_instances_ok _ Hreach _ _ Hi) as (_ & Htimer & Hdelay).
  split.
  - intros Hd%Htimer. split; [done|]. intros lc.
    unfold AsyncComponent.render. rewrite Hi, Hd. by repeat case_match.
  - intros H0. assert (Hd : delayed t = false).
    { destruct (delayed t); [|done]. by destruct Hdelay. }
    split; [done|]. intros lc Hlc Hl He.
    unfold AsyncComponent.render. by rewrite Hi, Hl, He, Hlc, Hd.
Qed.

End Wrapper.

(** A wrapper with a user [onError], both components and no delay. *)
Definition with_onError : AsyncComponentOptions :=
  {| loadingComponent := Some 8; errorComponent := Some 7; delay := Some 0;
     timeout := None; onError := true |}.

Lemma retry_resolves_original_witness :
  ∃ s4,
    rtc (AsyncComponent.step with_onError true) (setup with_onError false initial) s4 ∧
    requests s4 !! 0 = Some (Fulfilled 5) ∧ resolvedComp s4 = Some 5 ∧
    loaderCalls s4 = 2.
Proof.
  destruct (retry_resolves_original with_onError true 0 (RValue "offline") 5
              (setup with_onError false initial) eq_refl eq_refl)
    as (s1 & s2 & s3 & s4 & p' & -> & -> & -> & -> & -> & H1 & H2 & H3 & H4 & Hrest).
  eexists. split.
  - eapply rtc_l; [exact H1|]. eapply rtc_l; [exact H2|].
    eapply rtc_l; [exact H3|]. eapply rtc_l; [exact H4|]. apply rtc_refl.
  - repeat split; reflexivity.
Defined.

Lemma failed_load_is_reported_witness :
  ∃ s2,
    reported s2 = [(StringError "offline", 0, false)] ∧
    pendingRequest s2 = None ∧
    AsyncComponent.render with_timeout 0 s2 = ErrorVNode 7 (StringError "offline") ∧
    loaderCalls (AsyncComponent.setup with_timeout false s2) = 2.
Proof.
  destruct (failed_load_is_reported with_timeout true 0 _ (RValue "offline")
              (AsyncComponent.setup with_timeout false initial)
              eq_refl eq_refl eq_refl eq_refl eq_refl)
    as (s1 & s2 & -> & -> & _ & _ & _ & Hrep & Hpend & _ & _ & _ & Hrender & Hnext).
  eexists. split; [exact Hrep|]. split; [exact Hpend|].
  split; [exact (proj2 (Hrender 7 eq_refl))|]. exact (proj1 (Hnext eq_refl false)).
Defined.

Lemma user_callbacks_settle_once_witness :
  requests (userFail 0 (AsyncComponent.loader_catch with_onError 0 (RValue "offline")
                          (AsyncComponent.setup with_onError false initial))) !! 0 =
    Some (Rejected (StringError "offline")) ∧
  loaderCalls
    (userRetry 0
       (userFail 0 (AsyncComponent.loader_catch with_onError 0 (RValue "offline")
                      (AsyncComponent.setup with_onError false initial)))) = 2.
Proof.
  destruct (user_callbacks_settle_once with_onError 0 (RValue "offline")
              (AsyncComponent.setup with_onError false initial) eq_refl eq_refl)
    as (H1 & _ & _ & _ & _ & H2).
  split; [exact H1|exact H2].
Defined.

Lemma setup_after_resolution_witness :
  AsyncComponent.render with_timeout 1
    (AsyncComponent.setup with_timeout true
       (loader_then 0 5 (AsyncComponent.setup with_timeout false initial))) =
  InnerComp 5.
Proof.
  destruct (setup_after_resolution with_timeout true true 5
              (loader_then 0 5 (AsyncComponent.setup with_timeout false initial))
              _ eq_refl (rtc_refl _ _))
    as (_ & _ & _ & H & _).
  exact H.
Defined.

Lemma loaded_renders_inner_witness :
  ∃ s, AsyncComponent.reachable with_timeout true s ∧
       AsyncComponent.render with_timeout 0 s = InnerComp 5.
Proof.
  set (s1 := AsyncComponent.setup with_timeout false initial).
  set (s2 := loader_then 0 5 s1).
  set (s3 := instance_then 0 (update_instance 0 (set_notified true) s2)).
  assert (Hreach : AsyncComponent.reachable with_timeout true s3).
  { unfold AsyncComponent.reachable.
    eapply rtc_l; [apply (step_setup with_timeout true false)|].
    eapply rtc_l; [apply (step_loader_resolves with_timeout true 0 5); reflexivity|].
    eapply rtc_l; [|apply rtc_refl].
    eapply (step_instance_then with_timeout true 0); reflexivity. }
  exists s3. split; [exact Hreach|].
  destruct (loaded_renders_inner with_timeout true 0 _ s3 Hreach eq_refl eq_refl)
    as (c & Hc & Hr).
  injection Hc as <-. exact Hr.
Defined.

Lemma loading_waits_for_delay_witness :
  AsyncComponent.render with_onError 0
    (AsyncComponent.setup with_onError false initial) = LoadingVNode 8.
Proof.
  assert (Hreach : AsyncComponent.reachable with_onError true
                     (AsyncComponent.setup with_onError false initial)).
  { unfold AsyncComponent.reachable.
    eapply rtc_l; [apply (step_setup with_onError true false)|apply rtc_refl]. }
  destruct (loading_waits_for_delay with_onError true 0 _ _ Hreach eq_refl) as [_ H].
  exact (proj2 (H eq_refl) 8 eq_refl eq_refl eq_refl).
Defined.

End AsyncComponentLaws.

(** ** The keep-alive component: further laws *)

Module KeepAliveLaws.
Import KeepAlive KeepAliveTheory.

(** *** Patterns *)

(** A name without a comma. *)
Fixpoint comma_free (s : string) : bool :=
  match s with
  | EmptyString => true
  | String a s' => negb (Ascii.eqb a ","%char) && comma_free s'
  end.

(** [names.join(',')]. *)
Fixpoint join_comma (names : list string) : string :=
  match names with
  | [] => EmptyString
  | [n] => n
  | n :: names' => n +:+ String ","%char (join_comma names')
  end.

Lemma append_cons c s1 s2 : String c s1 +:+ s2 = String c (s1 +:+ s2).
Proof. reflexivity. Qed.

Lemma append_nil s : EmptyString +:+ s = s.
Proof. reflexivity. Qed.

Lemma append_String_assoc cur a s :
  (cur +:+ String a EmptyString) +:+ s = cur +:+ String a s.
Proof.
  induction cur as [|c cur IH]; [done|]. by rewrite !append_cons, IH.
Qed.

Lemma append_empty_r s : s +:+ EmptyString = s.
Proof. induction s as [|c s IH]; [done|]. by rewrite append_cons, IH. Qed.

Lemma split_comma_free cur s :
  comma_free s = true → split_comma cur s = [cur +:+ s].
Proof.
  revert cur. induction s as [|a s IH]; intros cur; simpl.
  - by rewrite append_empty_r.
  - intros [Ha Hs]%andb_true_iff. apply negb_true_iff in Ha. rewrite Ha.
    by rewrite IH, append_String_assoc.
Qed.

Lemma split_comma_app cur s rest :
  comma_free s = true →
  split_comma cur (s +:+ String ","%char rest) =
  (cur +:+ s) :: split_comma EmptyString rest.
Proof.
  revert cur. induction s as [|a s IH]; intros cur.
  - intros _. rewrite append_nil, append_empty_r. simpl. done.
  - cbn [comma_free]. intros [Ha Hs]%andb_true_iff. apply negb_true_iff in Ha.
    change (String a s +:+ String ","%char rest)
      with (String a (s +:+ String ","%char rest)).
    cbn [split_comma]. rewrite Ha.
    by rewrite IH, append_String_assoc.
Qed.

Lemma split_join names :
  names ≠ [] → Forall (λ n, comma_free n = true) names →
  split_comma EmptyString (join_comma names) = names.
Proof.
  induction names as [|n names IH]; [done|]. intros _ [Hn Hnames]%Forall_cons.
  destruct names as [|n' names].
  - simpl. by rewrite split_comma_free.
  - cbn [join_comma]. rewrite split_comma_app by done. rewrite append_nil.
    f_equal. by apply IH.
Qed.

Lemma comma_free_app cur a :
  comma_free cur = true → Ascii.eqb a ","%char = false →
  comma_free (cur +:+ String a EmptyString) = true.
Proof.
  intros Hcur Ha. induction cur as [|c cur IH].
  - rewrite append_nil. simpl. by rewrite Ha.
  - rewrite append_cons. simpl in *.
    apply andb_true_iff in Hcur as [Hc Hcur]. rewrite Hc. simpl. by apply IH.
Qed.

Lemma split_comma_pieces cur s x :
  comma_free cur = true → x ∈ split_comma cur s → comma_free x = true.
Proof.
  revert cur. induction s as [|a s IH]; intros cur Hcur; simpl.
  - by intros ->%list_elem_of_singleton.
  - destruct (Ascii.eqb a ","%char) eqn:Ha.
    + intros [->|Hx]%elem_of_cons; [done|]. by apply (IH EmptyString).
    + apply IH. by apply comma_free_app.
Qed.

(** X17. A string pattern is a list of names joined by commas: it matches
    exactly the names of the list, as they are written; no name with a
    comma matches a string pattern; an array pattern matches what one of
    its members matches, an empty array nothing. *)
Theorem matches_names :
  (∀ names name,
     names ≠ [] → Forall (λ n, comma_free n = true) names →
     matches (PString (join_comma names)) name = bool_decide (name ∈ names)) ∧
  (∀ s name, matches (PString s) name = true → comma_free name = true) ∧
  (∀ ps name, matches (PArray ps) name = true ↔
              ∃ p, p ∈ ps ∧ matches p name = true) ∧
  (∀ name, matches (PArray []) name = false).
Proof.
  split; [|split; [|split]].
  - intros names name Hne Hnames. simpl. by rewrite split_join.
  - intros s name. simpl. intros H%bool_decide_eq_true.
    by apply (split_comma_pieces EmptyString s).
  - intros ps name. simpl. rewrite existsb_exists. split.
    + intros (p & Hp%list_elem_of_In & Hm). eauto.
    + intros (p & Hp%list_elem_of_In & Hm). eauto.
  - done.
Qed.

(** *** Flags as bits *)

Lemma land_pow2 x a :
  (0 ≤ a)%Z → Z.land x (2 ^ a) = if Z.testbit x a then (2 ^ a)%Z else 0%Z.
Proof.
  intros Ha. apply Z.bits_inj'. intros i Hi.
  rewrite Z.land_spec, Z.pow2_bits_eqb by done.
  destruct (Z.eqb_spec a i) as [->|Hne].
  - destruct (Z.testbit x i) eqn:E; simpl.
    + by rewrite Z.pow2_bits_true.
    + by rewrite Z.bits_0.
  - rewrite andb_false_r. destruct (Z.testbit x a).
    + rewrite Z.pow2_bits_false; done.
    + by rewrite Z.bits_0.
Qed.

Lemma pow2_nonzero a : (0 ≤ a)%Z → (2 ^ a)%Z ≠ 0%Z.
Proof. intros Ha. apply Z.pow_nonzero; lia. Qed.

(** Subtracting a flag that is set clears its bit. *)
Lemma sub_flag x a :
  (0 ≤ a)%Z →
  (if negb (Z.land x (2 ^ a) =? 0)%Z then (x - 2 ^ a)%Z else x) = Z.ldiff x (2 ^ a).
Proof.
  intros Ha. rewrite land_pow2 by done.
  destruct (Z.testbit x a) eqn:E.
  - rewrite (proj2 (Z.eqb_neq _ _)) by (by apply pow2_nonzero). simpl.
    apply Z.sub_nocarry_ldiff. apply Z.bits_inj'. intros i Hi.
    rewrite Z.ldiff_spec, Z.pow2_bits_eqb, Z.bits_0 by done.
    destruct (Z.eqb_spec a i) as [->|Hne]; [by rewrite E|done].
  - simpl. apply Z.bits_inj'. intros i Hi.
    rewrite Z.ldiff_spec, Z.pow2_bits_eqb by done.
    destruct (Z.eqb_spec a i) as [->|Hne]; [by rewrite E|by rewrite andb_true_r].
Qed.

Lemma ldiff_ldiff_lor x y z : Z.ldiff (Z.ldiff x y) z = Z.ldiff x (Z.lor y z).
Proof.
  apply Z.bits_inj'. intros i Hi.
  rewrite !Z.ldiff_spec, Z.lor_spec.
  by destruct (Z.testbit x i), (Z.testbit y i), (Z.testbit z i).
Qed.

Lemma ldiff_lor_absorb f m m' :
  Z.land f m' = 0%Z → Z.land m m' = m →
  Z.ldiff (Z.lor f m) m' = f.
Proof.
  intros Hf Hm. apply Z.bits_inj'. intros i Hi.
  rewrite Z.ldiff_spec, Z.lor_spec.
  apply (f_equal (λ z, Z.testbit z i)) in Hf, Hm.
  rewrite Z.land_spec in Hf, Hm. rewrite Z.bits_0 in Hf.
  destruct (Z.testbit f i), (Z.testbit m i), (Z.testbit m' i); simpl in *; congruence.
Qed.

Section Setup.

Variable STATEFUL_COMPONENT SUSPENSE : Z.
Variable COMPONENT_SHOULD_KEEP_ALIVE COMPONENT_KEPT_ALIVE : Z.
Variable parseInt : MaxProp → option Z.
Variable DEV : bool.

Local Abbreviation resetShapeFlag :=
  (resetShapeFlag COMPONENT_SHOULD_KEEP_ALIVE COMPONENT_KEPT_ALIVE).
Local Abbreviation unmount := (unmount COMPONENT_SHOULD_KEEP_ALIVE COMPONENT_KEPT_ALIVE).
Local Abbreviation pruneCacheEntry :=
  (pruneCacheEntry COMPONENT_SHOULD_KEEP_ALIVE COMPONENT_KEPT_ALIVE).
Local Abbreviation pruneCache_entries :=
  (pruneCache_entries COMPONENT_SHOULD_KEEP_ALIVE COMPONENT_KEPT_ALIVE).
Local Abbreviation pruneCache :=
  (pruneCache COMPONENT_SHOULD_KEEP_ALIVE COMPONENT_KEPT_ALIVE).
Local Abbreviation on_patterns_changed :=
  (on_patterns_changed COMPONENT_SHOULD_KEEP_ALIVE COMPONENT_KEPT_ALIVE).
Local Abbreviation getInnerChild := (getInnerChild SUSPENSE).
Local Abbreviation cacheSubtree := (cacheSubtree SUSPENSE).
Local Abbreviation exceeds := (exceeds parseInt).
Local Abbreviation limit := (limit parseInt).
Local Abbreviation render_children :=
  (render_children STATEFUL_COMPONENT SUSPENSE COMPONENT_SHOULD_KEEP_ALIVE
     COMPONENT_KEPT_ALIVE parseInt DEV).
Local Abbreviation render :=
  (render STATEFUL_COMPONENT SUSPENSE COMPONENT_SHOULD_KEEP_ALIVE
     COMPONENT_KEPT_ALIVE parseInt DEV).
Local Abbreviation render_and_cache :=
  (render_and_cache STATEFUL_COMPONENT SUSPENSE COMPONENT_SHOULD_KEEP_ALIVE
     COMPONENT_KEPT_ALIVE parseInt DEV).
Local Abbreviation inner_node := (inner_node STATEFUL_COMPONENT SUSPENSE).
Local Abbreviation cache_child := (cache_child STATEFUL_COMPONENT SUSPENSE).

(** The two keep-alive flags, as a mask. *)
Definition keepAliveFlags : Z :=
  Z.lor COMPONENT_SHOULD_KEEP_ALIVE COMPONENT_KEPT_ALIVE.

(** [ShapeFlags] are single bits. *)
Definition single_bits : Prop :=
  ∃ a b, (0 ≤ a)%Z ∧ (0 ≤ b)%Z ∧
         COMPONENT_SHOULD_KEEP_ALIVE = (2 ^ a)%Z ∧ COMPONENT_KEPT_ALIVE = (2 ^ b)%Z.

Lemma resetShapeFlag_ldiff v n s :
  single_bits →
  vnodes s !! v = Some n →
  resetShapeFlag v s =
  Ok (set_vnodes (<[v := set_shapeFlag (Z.ldiff (shapeFlag n) keepAliveFlags) n]>
                    (vnodes s)) s).
Proof.
  intros (a & b & Ha & Hb & Hs & Hk) Hn.
  unfold KeepAlive.resetShapeFlag, get_vnode. rewrite Hn. simpl.
  do 3 f_equal. unfold set_shapeFlag. f_equal.
  unfold keepAliveFlags. rewrite Hs, Hk.
  rewrite (sub_flag (shapeFlag n) a Ha), (sub_flag _ b Hb).
  apply ldiff_ldiff_lor.
Qed.

Lemma cleared_back f :
  Z.land f keepAliveFlags = 0%Z →
  Z.ldiff (Z.lor f COMPONENT_SHOULD_KEEP_ALIVE) keepAliveFlags = f ∧
  Z.ldiff (Z.lor (Z.lor f COMPONENT_KEPT_ALIVE) COMPONENT_SHOULD_KEEP_ALIVE)
    keepAliveFlags = f.
Proof.
  intros Hf.
  assert (Hsub1 : Z.land COMPONENT_SHOULD_KEEP_ALIVE keepAliveFlags =
                  COMPONENT_SHOULD_KEEP_ALIVE).
  { unfold keepAliveFlags. apply Z.bits_inj'. intros i Hi.
    rewrite Z.land_spec, Z.lor_spec.
    by destruct (Z.testbit COMPONENT_SHOULD_KEEP_ALIVE i),
         (Z.testbit COMPONENT_KEPT_ALIVE i). }
  split.
  - by apply ldiff_lor_absorb.
  - rewrite <-Z.lor_assoc, (Z.lor_comm COMPONENT_KEPT_ALIVE).
    apply ldiff_lor_absorb; [done|]. apply Z.land_diag.
Qed.

(** X18. [resetShapeFlag] undoes the marks of the render function.  With the
    two flags being single bits, it clears both bits of the node and
    changes no other bit, no other field of the node and nothing else of
    the state; so a node whose flags had neither bit before the render
    function set one or both of them gets its flags back, and a second
    reset changes nothing. *)
Theorem resetShapeFlag_clears v n s :
  single_bits →
  vnodes s !! v = Some n →
  ∃ n' s',
    resetShapeFlag v s = Ok s' ∧
    s' = set_vnodes (<[v := n']> (vnodes s)) s ∧
    n' = set_shapeFlag (Z.ldiff (shapeFlag n) keepAliveFlags) n ∧
    Z.land (shapeFlag n') COMPONENT_SHOULD_KEEP_ALIVE = 0%Z ∧
    Z.land (shapeFlag n') COMPONENT_KEPT_ALIVE = 0%Z ∧
    (∀ f, Z.land f keepAliveFlags = 0%Z →
          shapeFlag n = Z.lor f COMPONENT_SHOULD_KEEP_ALIVE ∨
          shapeFlag n = Z.lor (Z.lor f COMPONENT_KEPT_ALIVE)
                          COMPONENT_SHOULD_KEEP_ALIVE →
          shapeFlag n' = f) ∧
    resetShapeFlag v s' = Ok s'.
Proof.
  intros Hbits Hn.
  set (n' := set_shapeFlag (Z.ldiff (shapeFlag n) keepAliveFlags) n).
  exists n', (set_vnodes (<[v := n']> (vnodes s)) s).
  split; [by apply resetShapeFlag_ldiff|]. split; [done|]. split; [done|].
  assert (Hclear : ∀ m, Z.land m keepAliveFlags = m →
                        Z.land (shapeFlag n') m = 0%Z).
  { intros m Hm. simpl. apply Z.bits_inj'. intros i Hi.
    apply (f_equal (λ z, Z.testbit z i)) in Hm.
    rewrite Z.land_spec in Hm.
    rewrite Z.land_spec, Z.ldiff_spec, Z.bits_0.
    destruct (Z.testbit (shapeFlag n) i), (Z.testbit keepAliveFlags i),
      (Z.testbit m i); simpl in *; congruence. }
  assert (Hsub1 : Z.land COMPONENT_SHOULD_KEEP_ALIVE keepAliveFlags =
                  COMPONENT_SHOULD_KEEP_ALIVE).
  { unfold keepAliveFlags. apply Z.bits_inj'. intros i Hi.
    rewrite Z.land_spec, Z.lor_spec.
    by destruct (Z.testbit COMPONENT_SHOULD_KEEP_ALIVE i),
         (Z.testbit COMPONENT_KEPT_ALIVE i). }
  assert (Hsub2 : Z.land COMPONENT_KEPT_ALIVE keepAliveFlags = COMPONENT_KEPT_ALIVE).
  { unfold keepAliveFlags. apply Z.bits_inj'. intros i Hi.
    rewrite Z.land_spec, Z.lor_spec.
    by destruct (Z.testbit COMPONENT_SHOULD_KEEP_ALIVE i),
         (Z.testbit COMPONENT_KEPT_ALIVE i). }
  split; [by apply Hclear|]. split; [by apply Hclear|]. split.
  - intros f Hf [E|E]; simpl; rewrite E.
    + by apply ldiff_lor_absorb.
    + rewrite <-Z.lor_assoc, (Z.lor_comm COMPONENT_KEPT_ALIVE).
      apply ldiff_lor_absorb; [done|]. apply Z.land_diag.
  - rewrite (resetShapeFlag_ldiff v n'); [|done|by simpl; rewrite lookup_insert_eq].
    f_equal. unfold set_vnodes. simpl. f_equal. rewrite insert_insert_eq.
    f_equal. unfold n', set_shapeFlag. simpl. f_equal.
    apply Z.bits_inj'. intros i Hi. rewrite !Z.ldiff_spec.
    by destruct (Z.testbit (shapeFlag n) i), (Z.testbit keepAliveFlags i).
Qed.

(** *** Nodes up to their flags *)

(** Two stores hold the same nodes, with possibly other flags. *)
Definition same_nodes (s s' : State) : Prop :=
  ∀ v, match vnodes s !! v, vnodes s' !! v with
       | Some n, Some n' =>
           type n' = type n ∧ key n' = key n ∧ el n' = el n ∧
           component n' = component n ∧ ssContent n' = ssContent n
       | None, None => True
       | _, _ => False
       end.

Lemma same_nodes_refl s : same_nodes s s.
Proof. intros v. by destruct (vnodes s !! v). Qed.

Lemma same_nodes_trans s1 s2 s3 :
  same_nodes s1 s2 → same_nodes s2 s3 → same_nodes s1 s3.
Proof.
  intros H12 H23 v. specialize (H12 v). specialize (H23 v).
  destruct (vnodes s1 !! v), (vnodes s2 !! v), (vnodes s3 !! v); try done.
  destruct H12 as (?&?&?&?&?), H23 as (?&?&?&?&?). repeat split; congruence.
Qed.

Lemma same_nodes_valid s s' v : same_nodes s s' → valid s v → valid s' v.
Proof.
  intros H [n Hn]. specialize (H v). rewrite Hn in H. unfold valid.
  by destruct (vnodes s' !! v).
Qed.

Lemma resetShapeFlag_nodes v s s' :
  resetShapeFlag v s = Ok s' →
  same_nodes s s' ∧ current s' = current s ∧ subTree s' = subTree s ∧
  unmounted s' = unmounted s ∧ warnings s' = warnings s.
Proof.
  unfold KeepAlive.resetShapeFlag, get_vnode.
  destruct (vnodes s !! v) as [n|] eqn:Hn; simpl; [|done].
  intros [= <-]. split; [|done]. intros v'. simpl.
  destruct (decide (v = v')) as [<-|Hne].
  - by rewrite lookup_insert_eq, Hn.
  - rewrite lookup_insert_ne by done. by destruct (vnodes s !! v').
Qed.

Lemma unmount_nodes v s s' :
  unmount v s = Ok s' →
  same_nodes s s' ∧ current s' = current s ∧ subTree s' = subTree s ∧
  unmounted s' = v :: unmounted s ∧ warnings s' = warnings s.
Proof.
  unfold KeepAlive.unmount.
  destruct (resetShapeFlag v s) as [s1| |] eqn:Hr; simpl; [|done..].
  intros [= <-]. apply resetShapeFlag_nodes in Hr as (? & ? & ? & Hu & ?).
  simpl. by rewrite Hu.
Qed.

Lemma pruneCacheEntry_nodes k s s' :
  pruneCacheEntry k s = Ok s' →
  same_nodes s s' ∧ current s' = current s ∧ subTree s' = subTree s ∧
  warnings s' = warnings s.
Proof.
  unfold KeepAlive.pruneCacheEntry.
  destruct (map_get k (cache s)) as [cached|]; [|done].
  destruct (get_vnode s cached) as [cn| |]; simpl; [|done..].
  intros Hs'.
  assert (∃ s1, Ok s' = Ok (set_keys (set_delete k (keys s1))
                              (set_cache (map_delete k (cache s1)) s1)) ∧
                same_nodes s s1 ∧ current s1 = current s ∧
                subTree s1 = subTree s ∧ warnings s1 = warnings s)
    as (s1 & [= ->] & Hn & Hc & Hst & Hw).
  { destruct (current s) as [cur|] eqn:Hcurr.
    - destruct (get_vnode s cur) as [curn| |]; simpl in Hs'; [|done..].
      case_decide.
      + destruct (unmount cached s) as [s1| |] eqn:Hu; simpl in Hs'; [|done..].
        exists s1. split; [done|].
        apply unmount_nodes in Hu as (?&?&?&?&?); split_and!; try done; congruence.
      + destruct (resetShapeFlag cur s) as [s1| |] eqn:Hu; simpl in Hs'; [|done..].
        exists s1. split; [done|].
        apply resetShapeFlag_nodes in Hu as (?&?&?&?&?);
          split_and!; try done; congruence.
    - destruct (unmount cached s) as [s1| |] eqn:Hu; simpl in Hs'; [|done..].
      exists s1. split; [done|].
      apply unmount_nodes in Hu as (?&?&?&?&?); split_and!; try done; congruence. }
  done.
Qed.

(** *** Pruning by name *)

(** Whether [pruneCache(filter)] prunes the entry of a cached node: its
    component has a name, and there is no filter or the filter rejects the
    name. *)
Definition prunes (flt : option (string → bool)) (s : State) (v : nat) : bool :=
  match vnodes s !! v with
  | Some n =>
      match name_truthy (getComponentName s (Some (type n))) with
      | Some nm =>
          match flt with
          | None => true
          | Some f => negb (f nm)
          end
      | None => false
      end
  | None => false
  end.

Lemma prunes_same flt s s' v :
  same_nodes s s' → components s' = components s →
  prunes flt s' v = prunes flt s v.
Proof.
  intros Hn Hc. unfold prunes, getComponentName. specialize (Hn v). rewrite Hc.
  destruct (vnodes s !! v), (vnodes s' !! v); try done.
  by destruct Hn as (-> & _).
Qed.

Lemma map_get_NoDup k v (m : list (CacheKey * nat)) :
  NoDup m.*1 → (k, v) ∈ m → map_get k m = Some v.
Proof.
  induction m as [|[k0 v0] m IH]; [by intros _ ?%elem_of_nil|].
  rewrite fmap_cons. intros [Hnin Hnd]%NoDup_cons. simpl.
  intros [[= <- <-]|Hin]%elem_of_cons; [by rewrite decide_True|].
  rewrite decide_False; [by apply IH|].
  intros ->. apply Hnin. apply list_elem_of_fmap. by exists (k, v).
Qed.

Lemma map_get_elem k v (m : list (CacheKey * nat)) :
  map_get k m = Some v → (k, v) ∈ m.
Proof.
  induction m as [|[k0 v0] m IH]; simpl; [done|].
  case_decide as E; simpl in E.
  - intros [= <-]. subst. apply elem_of_cons. by left.
  - intros H. apply elem_of_cons. right. by apply IH.
Qed.

Lemma map_delete_middle k v (m1 m2 : list (CacheKey * nat)) :
  NoDup (m1 ++ (k, v) :: m2).*1 → map_delete k (m1 ++ (k, v) :: m2) = m1 ++ m2.
Proof.
  rewrite fmap_app, fmap_cons. simpl.
  intros (Hnd1 & Hdisj & [Hnin Hnd2]%NoDup_cons)%NoDup_app.
  unfold map_delete. rewrite filter_app, filter_cons. simpl.
  rewrite decide_False by tauto.
  assert (Hkeep : ∀ m : list (CacheKey * nat), k ∉ m.*1 → filter (λ e, e.1 ≠ k) m = m).
  { intros m Hm. induction m as [|[k0 v0] m IH]; [done|].
    rewrite fmap_cons, not_elem_of_cons in Hm. destruct Hm as [Hne Hm]. simpl in Hne.
    rewrite filter_cons. simpl. rewrite decide_True by congruence. by rewrite IH. }
  rewrite !Hkeep; [done|done|].
  intros Hin. apply (Hdisj k Hin). apply elem_of_cons. by left.
Qed.

Lemma delete_all_filter (ks l : list CacheKey) :
  foldl (λ acc k, set_delete k acc) l ks = filter (λ x, x ∉ ks) l.
Proof.
  revert l. induction ks as [|k ks IH]; intros l; simpl.
  - induction l as [|x l IHl]; [done|].
    rewrite filter_cons, decide_True by apply not_elem_of_nil. by rewrite <-IHl.
  - rewrite IH. unfold set_delete. rewrite list_filter_filter.
    apply list_filter_iff. intros x. rewrite not_elem_of_cons. tauto.
Qed.

(** The loop of [pruneCache], from any point of the iteration. *)
Lemma pruneCache_entries_exact flt s0 rest :
  ∀ done0 s,
    cache s = done0 ++ rest → NoDup (cache s).*1 →
    (∀ k v, (k, v) ∈ rest → valid s v) →
    (∀ c, current s = Some c → valid s c) →
    same_nodes s0 s → components s = components s0 →
    ∃ s', pruneCache_entries flt rest s = Ok s' ∧
          cache s' = done0 ++ filter (λ e, prunes flt s0 e.2 = false) rest ∧
          keys s' = foldl (λ acc k, set_delete k acc) (keys s)
                      (filter (λ e, prunes flt s0 e.2 = true) rest).*1 ∧
          same_nodes s0 s' ∧ components s' = components s0 ∧
          current s' = current s ∧ pendingCacheKey s' = pendingCacheKey s ∧
          subTree s' = subTree s ∧ warnings s' = warnings s.
Proof.
  induction rest as [|[k v] rest IH]; intros done0 s Hcache Hnd Hvalid Hcur Hnodes Hcomp.
  - exists s. simpl. by rewrite filter_nil.
  - cbn [KeepAlive.pruneCache_entries].
    destruct (get_vnode_valid s v) as (n & Hg & Hn).
    { apply (Hvalid k). apply elem_of_cons. by left. }
    rewrite Hg. cbn [mbind result_bind].
    assert (Hpr : prunes flt s v = prunes flt s0 v) by (by apply prunes_same).
    assert (Hname : match name_truthy (getComponentName s (Some (type n))) with
                    | Some nm => match flt with None => true | Some f => negb (f nm) end
                    | None => false
                    end = prunes flt s v).
    { unfold prunes. by rewrite Hn. }
    rewrite !filter_cons. cbn [snd].
    destruct (prunes flt s0 v) eqn:Hp.
    + (* pruned *)
      rewrite decide_False by done. rewrite decide_True by done.
      assert (Hget : map_get k (cache s) = Some v).
      { apply map_get_NoDup; [done|]. rewrite Hcache, elem_of_app, elem_of_cons. auto. }
      destruct (pruneCacheEntry_valid COMPONENT_SHOULD_KEEP_ALIVE COMPONENT_KEPT_ALIVE
                  k s v Hget) as (s1 & Hprune & Hclo & _).
      { apply (Hvalid k). apply elem_of_cons. by left. }
      { done. }
      pose proof (pruneCacheEntry_nodes _ _ _ Hprune) as (Hn1 & Hc1 & Hst1 & Hw1).
      pose proof (pruneCacheEntry_Ok _ _ _ _ _ Hprune) as (_ & Hk1 & Hca1 & Hco1 & Hp1).
      set (s2 := set_keys (set_delete k (keys s1))
                   (set_cache (map_delete k (cache s1)) s1)) in *.
      assert (Hcache2 : cache s2 = done0 ++ rest).
      { rewrite Hca1, Hcache. apply map_delete_middle. by rewrite <-Hcache. }
      assert (Hstep : (match name_truthy (getComponentName s (Some (type n))) with
               | Some nm =>
                   if match flt with None => true | Some f => negb (f nm) end
                   then pruneCacheEntry k s else mret s
               | None => mret s
               end) = Ok s2).
      { rewrite Hpr in Hname.
        destruct (name_truthy (getComponentName s (Some (type n)))) as [nm|]; [|done].
        by rewrite Hname. }
      rewrite Hstep. cbn [mbind result_bind].
      destruct (IH done0 s2) as (s' & Hrun & Hca' & Hk' & Hn' & Hco' & Hc' & Hp' & Hst' & Hw').
      { done. }
      { rewrite Hcache2. rewrite Hcache in Hnd.
        rewrite fmap_app, fmap_cons in Hnd. rewrite fmap_app.
        apply NoDup_app in Hnd as (? & Hdisj & [_ ?]%NoDup_cons).
        apply NoDup_app. split; [done|]. split; [|done].
        intros x Hx Hx'. apply (Hdisj x Hx). apply elem_of_cons. by right. }
      { intros k' v' Hin. eapply same_nodes_valid; [exact Hn1|].
        apply (Hvalid k'). apply elem_of_cons. by right. }
      { rewrite Hc1. intros c Hc. eapply same_nodes_valid; [exact Hn1|]. by apply Hcur. }
      { by eapply same_nodes_trans. }
      { by rewrite Hco1. }
      exists s'. split; [done|]. split; [done|].
      split; [by rewrite Hk', Hk1|].
      split; [done|]. split; [done|]. split; [by rewrite Hc'|].
      split; [by rewrite Hp'|]. split; [by rewrite Hst'|by rewrite Hw'].
    + (* kept *)
      rewrite decide_True by done. rewrite decide_False by done.
      assert (Hstep : (match name_truthy (getComponentName s (Some (type n))) with
               | Some nm =>
                   if match flt with None => true | Some f => negb (f nm) end
                   then pruneCacheEntry k s else mret s
               | None => mret s
               end) = Ok s).
      { rewrite Hpr in Hname.
        destruct (name_truthy (getComponentName s (Some (type n)))) as [nm|]; [|done].
        by rewrite Hname. }
      rewrite Hstep. cbn [mbind result_bind].
      destruct (IH (done0 ++ [(k, v)]) s) as (s' & Hrun & Hca' & Hrest).
      { by rewrite <-app_assoc. }
      { done. }
      { intros k' v' Hin. apply (Hvalid k'). apply elem_of_cons. by right. }
      { done. }
      { done. }
      { done. }
      exists s'. split; [done|]. split; [by rewrite Hca', <-app_assoc|done].
Qed.

Lemma filter_all {A} (P : A → Prop) `{!∀ x, Decision (P x)} (l : list A) :
  (∀ x, P x) → filter P l = l.
Proof.
  intros HP. induction l as [|x l IH]; [done|].
  by rewrite filter_cons, decide_True, IH.
Qed.

Lemma NoDup_filter_fst (P : CacheKey * nat → Prop) `{!∀ e, Decision (P e)}
    (m : list (CacheKey * nat)) :
  NoDup m.*1 → NoDup (filter P m).*1.
Proof.
  intros Hnd. eapply sublist_NoDup; [exact Hnd|].
  apply fmap_sublist, sublist_filter.
Qed.

Lemma map_get_filter (P : CacheKey * nat → Prop) `{!∀ e, Decision (P e)}
    k (m : list (CacheKey * nat)) :
  NoDup m.*1 →
  map_get k (filter P m) =
  match map_get k m with
  | Some v => if decide (P (k, v)) then Some v else None
  | None => None
  end.
Proof.
  intros Hnd. destruct (map_get k m) as [v|] eqn:Hg.
  - apply map_get_elem in Hg as Hin. case_decide as HP.
    + apply map_get_NoDup; [by apply NoDup_filter_fst|].
      by apply list_elem_of_filter.
    + apply map_get_None. intros (e & He & Hin')%list_elem_of_fmap.
      apply list_elem_of_filter in Hin' as [HPe Hin'].
      destruct e as [k' v']. simpl in He. subst k'.
      pose proof (map_get_NoDup _ _ _ Hnd Hin') as Hg'. congruence.
  - apply map_get_None. apply map_get_None in Hg.
    intros (e & He & Hin')%list_elem_of_fmap.
    apply list_elem_of_filter in Hin' as [_ Hin']. apply Hg.
    apply list_elem_of_fmap. by exists e.
Qed.

(** [pruneCache] removes exactly the entries it is to prune, from both
    collections, and keeps the order of the others. *)
Lemma pruneCache_exact flt s :
  wf s →
  ∃ s', pruneCache flt s = Ok s' ∧
        cache s' = filter (λ e, prunes flt s e.2 = false) (cache s) ∧
        keys s' =
          filter (λ k, default true ((λ v, negb (prunes flt s v)) <$>
                                       map_get k (cache s)) = true) (keys s) ∧
        wf s' ∧ same_nodes s s' ∧ components s' = components s ∧
        current s' = current s ∧ pendingCacheKey s' = pendingCacheKey s ∧
        subTree s' = subTree s ∧ warnings s' = warnings s.
Proof.
  intros [Hndk Hndc Hcached Hcur].
  destruct (pruneCache_entries_exact flt s (cache s) [] s)
    as (s' & Hrun & Hca & Hk & Hn & Hco & Hc & Hp & Hst & Hw); try done.
  { intros k v Hin. apply (Hcached k). by apply map_get_NoDup. }
  { apply same_nodes_refl. }
  simpl in Hca.
  exists s'. split; [done|]. split; [done|].
  assert (Hkeys : keys s' =
    filter (λ k, default true ((λ v, negb (prunes flt s v)) <$>
                                 map_get k (cache s)) = true) (keys s)).
  { rewrite Hk, delete_all_filter. apply list_filter_iff. intros k.
    destruct (map_get k (cache s)) as [v|] eqn:Hg; simpl.
    - apply map_get_elem in Hg as Hin. split.
      + intros Hnin. destruct (prunes flt s v) eqn:E; [|done].
        destruct Hnin. apply list_elem_of_fmap. exists (k, v).
        split; [done|]. by apply list_elem_of_filter.
      + intros Hv (e & He & [HPe Hin']%list_elem_of_filter)%list_elem_of_fmap.
        destruct e as [k' v']. simpl in *. subst k'.
        pose proof (map_get_NoDup _ _ _ Hndc Hin') as Hg'.
        rewrite Hg in Hg'. injection Hg' as <-. by rewrite HPe in Hv.
    - split; [done|]. intros _ (e & He & [_ Hin']%list_elem_of_filter)%list_elem_of_fmap.
      apply map_get_None in Hg. apply Hg. apply list_elem_of_fmap. by exists e. }
  split; [done|]. split; [|by rewrite Hc, Hp, Hst, Hw].
  split.
  - rewrite Hkeys. by apply NoDup_filter.
  - rewrite Hca. by apply NoDup_filter_fst.
  - intros k v. rewrite Hca, map_get_filter by done.
    destruct (map_get k (cache s)) as [v'|] eqn:Hg; [|done].
    case_decide; [|done]. intros [= <-].
    eapply same_nodes_valid; [exact Hn|]. by eapply Hcached.
  - rewrite Hc. intros c Hcc. eapply same_nodes_valid; [exact Hn|]. by apply Hcur.
Qed.

(** Whether the entry of a cached node survives a change of [include] and
    [exclude]: its component has no name, or a name that the new [include]
    matches (when there is one) and the new [exclude] does not. *)
Definition survives (props : KeepAliveProps) (s : State) (v : nat) : bool :=
  match vnodes s !! v with
  | Some n =>
      match name_truthy (getComponentName s (Some (type n))) with
      | Some nm =>
          match pattern_truthy (include props) with
          | Some inc => matches inc nm
          | None => true
          end &&
          match pattern_truthy (exclude props) with
          | Some exc => negb (matches exc nm)
          | None => true
          end
      | None => true
      end
  | None => true
  end.

(** X19. The watcher of [include] and [exclude].  In a well-formed state it
    returns; the cache keeps exactly the entries of the components that
    have no name or whose name passes the new patterns, in their order, and
    [keys] loses exactly the keys of the pruned entries; the nodes stay the
    same up to their flags, and [current] and the pending key are
    untouched. *)
Theorem on_patterns_changed_exact props s :
  wf s →
  ∃ s', on_patterns_changed props s = Ok s' ∧
        cache s' = filter (λ e, survives props s e.2 = true) (cache s) ∧
        keys s' =
          filter (λ k, default true (survives props s <$> map_get k (cache s)) = true)
            (keys s) ∧
        wf s' ∧ same_nodes s s' ∧ components s' = components s ∧
        current s' = current s ∧ pendingCacheKey s' = pendingCacheKey s.
Proof.
  intros Hwf.
  set (f1 := match pattern_truthy (include props) with
             | Some inc => Some (matches inc)
             | None => None
             end).
  set (p1 := λ v, match pattern_truthy (include props) with
                  | Some inc => prunes (Some (matches inc)) s v
                  | None => false
                  end).
  set (p2 := λ v, match pattern_truthy (exclude props) with
                  | Some exc => prunes (Some (λ nm, negb (matches exc nm))) s v
                  | None => false
                  end).
  assert (Hsurv : ∀ v, survives props s v = negb (p1 v) && negb (p2 v)).
  { intros v. unfold survives, p1, p2, prunes.
    destruct (vnodes s !! v) as [n|]; [|by repeat case_match].
    destruct (name_truthy _) as [nm|]; [|by repeat case_match].
    destruct (pattern_truthy (include props)), (pattern_truthy (exclude props));
      simpl; rewrite ?negb_involutive, ?andb_true_r; done. }
  assert (H1 : ∃ s1,
    match pattern_truthy (include props) with
    | Some inc => pruneCache (Some (matches inc)) s
    | None => mret s
    end = Ok s1 ∧
    cache s1 = filter (λ e, p1 e.2 = false) (cache s) ∧
    keys s1 = filter (λ k, default true ((λ v, negb (p1 v)) <$>
                                           map_get k (cache s)) = true) (keys s) ∧
    wf s1 ∧ same_nodes s s1 ∧ components s1 = components s ∧
    current s1 = current s ∧ pendingCacheKey s1 = pendingCacheKey s).
  { unfold p1. destruct (pattern_truthy (include props)) as [inc|].
    - destruct (pruneCache_exact (Some (matches inc)) s Hwf)
        as (s1 & ? & ? & ? & ? & ? & ? & ? & ? & _).
      exists s1. by split_and!.
    - exists s. split; [done|]. split.
      { symmetry. by apply filter_all. }
      split.
      { symmetry. apply filter_all. intros k. by destruct (map_get k (cache s)). }
      split; [done|]. split; [apply same_nodes_refl|done]. }
  destruct H1 as (s1 & Hr1 & Hca1 & Hk1 & Hwf1 & Hn1 & Hco1 & Hc1 & Hp1).
  assert (H2 : ∃ s2,
    match pattern_truthy (exclude props) with
    | Some exc => pruneCache (Some (λ nm, negb (matches exc nm))) s1
    | None => mret s1
    end = Ok s2 ∧
    cache s2 = filter (λ e, p2 e.2 = false) (cache s1) ∧
    keys s2 = filter (λ k, default true ((λ v, negb (p2 v)) <$>
                                           map_get k (cache s1)) = true) (keys s1) ∧
    wf s2 ∧ same_nodes s1 s2 ∧ components s2 = components s1 ∧
    current s2 = current s1 ∧ pendingCacheKey s2 = pendingCacheKey s1).
  { unfold p2. destruct (pattern_truthy (exclude props)) as [exc|].
    - destruct (pruneCache_exact (Some (λ nm, negb (matches exc nm))) s1 Hwf1)
        as (s2 & ? & Hca2 & Hk2 & ? & ? & ? & ? & ? & _).
      exists s2. split; [done|].
      assert (Hsame : ∀ v, prunes (Some (λ nm, negb (matches exc nm))) s1 v =
                           prunes (Some (λ nm, negb (matches exc nm))) s v)
        by (intros v; by apply prunes_same).
      split.
      { rewrite Hca2. apply list_filter_iff. intros e. by rewrite Hsame. }
      split.
      { rewrite Hk2. apply list_filter_iff. intros k.
        destruct (map_get k (cache s1)); simpl; [|done]. by rewrite Hsame. }
      by split_and!.
    - exists s1. split; [done|]. split.
      { symmetry. by apply filter_all. }
      split.
      { symmetry. apply filter_all. intros k. by destruct (map_get k (cache s1)). }
      split; [done|]. split; [apply same_nodes_refl|done]. }
  destruct H2 as (s2 & Hr2 & Hca2 & Hk2 & Hwf2 & Hn2 & Hco2 & Hc2 & Hp2).
  exists s2. split.
  { unfold KeepAlive.on_patterns_changed. fold pruneCache. rewrite Hr1. exact Hr2. }
  split.
  { rewrite Hca2, Hca1, list_filter_filter. apply list_filter_iff. intros e.
    rewrite Hsurv. destruct (p1 e.2), (p2 e.2); simpl; intuition congruence. }
  split.
  { rewrite Hk2, Hk1, list_filter_filter. apply list_filter_iff. intros k.
    rewrite Hca1, map_get_filter by apply (wf_cache _ Hwf).
    destruct (map_get k (cache s)) as [v|]; simpl; [|tauto].
    rewrite Hsurv. case_decide as E; simpl in E; simpl.
    - rewrite E. simpl. tauto.
    - destruct (p1 v); [|done]. simpl. intuition congruence. }
  split; [done|]. split; [by eapply same_nodes_trans|].
  split; [congruence|]. split; congruence.
Qed.

(** *** One eviction *)

(** The node with the two keep-alive flags cleared. *)
Definition cleared (n : VNode) : VNode :=
  set_shapeFlag (Z.ldiff (shapeFlag n) keepAliveFlags) n.

(** X20. [pruneCacheEntry] on a cached key.  The key leaves both collections.
    When there is no current child, or the cached node is of another
    component type than the current child, the cached node has its
    keep-alive flags cleared and is unmounted; when it is of the type of
    the current child, nothing is unmounted and it is the current child
    that has its flags cleared. *)
Theorem pruneCacheEntry_spec k s cached cn :
  single_bits →
  map_get k (cache s) = Some cached →
  vnodes s !! cached = Some cn →
  (∀ c, current s = Some c → valid s c) →
  ∃ s', pruneCacheEntry k s = Ok s' ∧
        keys s' = set_delete k (keys s) ∧
        cache s' = map_delete k (cache s) ∧
        current s' = current s ∧
        match current s with
        | None =>
            unmounted s' = cached :: unmounted s ∧
            vnodes s' = <[cached := cleared cn]> (vnodes s)
        | Some cur =>
            ∀ curn, vnodes s !! cur = Some curn →
              if decide (type cn = type curn) then
                unmounted s' = unmounted s ∧
                vnodes s' = <[cur := cleared curn]> (vnodes s)
              else
                unmounted s' = cached :: unmounted s ∧
                vnodes s' = <[cached := cleared cn]> (vnodes s)
        end.
Proof.
  intros Hbits Hget Hcn Hcur.
  unfold KeepAlive.pruneCacheEntry. rewrite Hget.
  rewrite (get_vnode_lookup _ _ _ Hcn). cbn [mbind result_bind].
  assert (Hun : unmount cached s =
                Ok (set_unmounted (cached :: unmounted s)
                      (set_vnodes (<[cached := cleared cn]> (vnodes s)) s))).
  { unfold KeepAlive.unmount. by rewrite (resetShapeFlag_ldiff _ _ _ Hbits Hcn). }
  destruct (current s) as [cur|] eqn:Hc.
  - destruct (Hcur cur eq_refl) as [curn Hcurn].
    rewrite (get_vnode_lookup _ _ _ Hcurn). cbn [mbind result_bind].
    destruct (decide (type cn ≠ type curn)) as [Hne|Heq].
    + rewrite Hun. eexists. split; [reflexivity|]. simpl.
      split; [done|]. split; [done|]. split; [done|].
      intros curn' Hcurn'. rewrite Hcurn in Hcurn'. injection Hcurn' as <-.
      by rewrite decide_False.
    + apply dec_stable in Heq.
      rewrite (resetShapeFlag_ldiff _ _ _ Hbits Hcurn).
      eexists. split; [reflexivity|]. simpl.
      split; [done|]. split; [done|]. split; [done|].
      intros curn' Hcurn'. rewrite Hcurn in Hcurn'. injection Hcurn' as <-.
      by rewrite decide_True.
  - rewrite Hun. eexists. split; [reflexivity|]. by simpl.
Qed.

(** *** The render function *)

(** The two keep-alive flags are not the suspense flag. *)
Hypothesis KEPT_ALIVE_not_SUSPENSE : Z.land COMPONENT_KEPT_ALIVE SUSPENSE = 0%Z.
Hypothesis SHOULD_KEEP_ALIVE_not_SUSPENSE :
  Z.land COMPONENT_SHOULD_KEEP_ALIVE SUSPENSE = 0%Z.

(** What the slot returned is not one component: no child, several
    children, something that is not a node, or a node that is neither a
    stateful component nor a suspense boundary. *)
Definition not_one_component (ts : list (option VNodeTree)) : Prop :=
  match ts with
  | [Some t] =>
      Z.land (root t).2 STATEFUL_COMPONENT = 0%Z ∧ Z.land (root t).2 SUSPENSE = 0%Z
  | _ => True
  end.

Lemma alloc_children_length ts s : length (alloc_children ts s).1 = length ts.
Proof.
  revert s. induction ts as [|t ts IH]; intros s0; [done|].
  cbn [alloc_children]. destruct t as [t|].
  - destruct (alloc_tree t s0) as [v s1]. specialize (IH s1).
    destruct (alloc_children ts s1) as [cs s2]. simpl in *. by rewrite IH.
  - specialize (IH s0). destruct (alloc_children ts s0) as [cs s2].
    simpl in *. by rewrite IH.
Qed.

(** X21. The render function off the cache.  When the slot returns anything but
    one component, the render function returns what the slot returned,
    unchanged (all the children when there are several, with a warning in
    a development build), leaves [keys] and [cache] alone, and clears
    [current] and the pending key, so that the hook that follows caches
    nothing; the same holds, with [null] returned, when there is no slot. *)
Theorem render_bypasses props ts s :
  not_one_component ts →
  render props None s = Ok (RNull, set_pendingCacheKey None s) ∧
  ∃ children s1 out s',
    alloc_children ts (set_pendingCacheKey None s) = (children, s1) ∧
    render props (Some ts) s = Ok (out, s') ∧
    out = (if bool_decide (1 < length ts) then RChildren children
           else RChild (head children)) ∧
    s' = set_current None
           (if DEV && bool_decide (1 < length ts)
            then set_warnings
                   ("KeepAlive should contain exactly one component child."
                      :: warnings s1) s1
            else s1) ∧
    length children = length ts ∧
    keys s' = keys s ∧ cache s' = cache s ∧
    pendingCacheKey s' = None ∧ current s' = None ∧
    cacheSubtree (commit out s') = Ok (commit out s').
Proof.
  intros Hts. split; [done|].
  pose proof (alloc_children_extends ts (set_pendingCacheKey None s)) as He.
  pose proof (alloc_children_length ts (set_pendingCacheKey None s)) as Hlen.
  destruct (alloc_children ts (set_pendingCacheKey None s)) as [children s1] eqn:Ha.
  simpl in He, Hlen. destruct He as (_ & Hc & Hk & _ & Hp & _ & _). simpl in Hp.
  assert (Hhook : ∀ out s', pendingCacheKey s' = None →
            cacheSubtree (commit out s') = Ok (commit out s')).
  { intros out s' Hp'. unfold KeepAlive.cacheSubtree. simpl. by rewrite Hp'. }
  assert (Hr : render props (Some ts) s = render_children props children s1).
  { unfold KeepAlive.render. by rewrite Ha. }
  exists children, s1.
  unfold KeepAlive.render_children in Hr. rewrite Hlen in Hr.
  destruct (bool_decide (1 < length ts)) eqn:Hmany.
  - eexists _, _. split; [done|]. split; [exact Hr|]. split; [done|].
    rewrite andb_true_r. split; [done|]. split; [done|].
    destruct DEV; simpl; split_and!; try done; by apply Hhook.
  - rewrite andb_false_r.
    assert (Hone : render_children props children s1 =
                   Ok (RChild (head children), set_current None s1) ∧
                   render props (Some ts) s =
                   Ok (RChild (head children), set_current None s1)).
    { rewrite Hr. apply bool_decide_eq_false in Hmany.
      destruct ts as [|[t|] [|]]; simpl in Hmany; try lia.
      - injection Ha as <- <-. unfold KeepAlive.render_children.
        by rewrite bool_decide_eq_false_2 by (simpl; lia).
      - cbn [alloc_children] in Ha.
        pose proof (alloc_tree_spec t (set_pendingCacheKey None s))
          as (_ & _ & n & Hn & Hroot & _).
        destruct (alloc_tree t (set_pendingCacheKey None s)) as [v s2].
        injection Ha as <- <-. simpl in Hn.
        unfold KeepAlive.render_children. cbn [head length].
        rewrite bool_decide_eq_false_2 by lia.
        rewrite (get_vnode_lookup _ _ _ Hn). cbn [mbind result_bind].
        destruct Hts as [Hst Hsu]. rewrite <-Hroot in Hst, Hsu. simpl in Hst, Hsu.
        by rewrite Hst, Hsu.
      - injection Ha as <- <-. unfold KeepAlive.render_children.
        by rewrite bool_decide_eq_false_2 by (simpl; lia). }
    destruct Hone as [_ Hone].
    eexists _, _. split; [done|]. split; [exact Hone|]. split; [done|].
    split; [done|]. split; [done|]. simpl. split_and!; try done. by apply Hhook.
Qed.

(** X22. A maximum below one.  When [max] is taken as a bound and the bound is
    below one (the string ["0"], or a negative number), the first render of
    a cacheable child into an empty cache throws: the key just added is
    the oldest one, and [pruneCacheEntry] finds no node cached under it. *)
Theorem max_below_one_throws props m t k s :
  limit (max props) = Some m → (m < 1)%Z →
  keys s = [] → cache s = [] →
  cache_child props s t k →
  pruneCacheEntry k (set_keys [k] s) = TypeError ∧
  render props (Some [Some t]) s = TypeError.
Proof.
  intros Hlimit Hm Hkeys Hcache (ty & k0 & f & Hinner & _ & Hname & ->).
  split.
  { unfold KeepAlive.pruneCacheEntry. simpl. by rewrite Hcache. }
  set (k := default (KComponent ty) k0).
  destruct (alloc_child _ _ _ (set_pendingCacheKey None s) _ _ _ Hinner)
    as (raw & rawn & vnode & n & s1 & Halloc & He & Hraw & Hflags & Hinnerchild &
        Hn & Hfresh & Hty & Hk & Hf & Hel & Hcomp & _).
  destruct He as (Hc1 & Hca1 & Hk1 & Hcur1 & Hp1 & Hu1 & Hsub). simpl in *.
  assert (Hkey : match key n with Some k => k | None => KComponent (type n) end = k).
  { rewrite Hk, Hty. unfold k. by destruct k0. }
  assert (Hnm : ineligible props
            (getComponentName s1
               (if isAsyncWrapper s1 n
                then components s1 !! type n ≫= asyncResolved
                else Some (type n))) = false).
  { unfold isAsyncWrapper, getComponentName. rewrite Hc1, Hty. exact Hname. }
  unfold KeepAlive.render. rewrite Halloc.
  unfold KeepAlive.render_children. cbn [length head].
  rewrite bool_decide_eq_false_2 by lia.
  rewrite (get_vnode_lookup _ _ _ Hraw). simpl. rewrite Hflags.
  rewrite Hinnerchild. simpl. rewrite (get_vnode_lookup _ _ _ Hn). simpl.
  rewrite Hnm, Hkey, Hca1, Hk1, Hcache, Hkeys. simpl.
  rewrite (exceeds_limit _ _ _ _ Hlimit).
  rewrite bool_decide_eq_true_2 by (simpl; lia). simpl.
  unfold KeepAlive.pruneCacheEntry. simpl. by rewrite Hca1, Hcache.
Qed.

(** X23. No maximum.  When [max] is absent, zero, empty or not a number, a
    render of a cacheable child with its hook evicts nothing: the key
    moves or is added to the end of [keys], every key that was in [keys]
    is still there, and every one of them is still cached. *)
Theorem no_max_never_evicts props t k s :
  limit (max props) = None →
  wf s → same_keys s →
  cache_child props s t k →
  ∃ vnode s',
    render_and_cache props (Some [Some t]) s =
      Ok (RChild (Some (CVNode vnode)), s') ∧
    keys s' = set_delete k (keys s) ++ [k] ∧
    map_get k (cache s') = Some vnode ∧
    (∀ k', k' ∈ keys s → k' ∈ keys s' ∧ is_Some (map_get k' (cache s'))) ∧
    wf s' ∧ same_keys s'.
Proof.
  intros Hlimit Hwf Hsame Hchild.
  assert (Hex : ∀ n, exceeds (max props) n = false).
  { intros n. unfold KeepAlive.exceeds. fold limit. by rewrite Hlimit. }
  destruct (render_and_cache_eligible STATEFUL_COMPONENT SUSPENSE
              COMPONENT_SHOULD_KEEP_ALIVE COMPONENT_KEPT_ALIVE parseInt DEV
              KEPT_ALIVE_not_SUSPENSE SHOULD_KEEP_ALIVE_not_SUSPENSE
              props t s k Hwf Hsame Hchild (Hex 1))
    as (vnode & s' & Hr & Hwf' & Hsame' & _ & Hk & Hget & _).
  assert (Hkeys : keys s' = set_delete k (keys s) ++ [k]).
  { rewrite Hk. unfold touch. fold exceeds. rewrite Hex.
    case_decide; [done|]. by rewrite set_delete_not_in. }
  exists vnode, s'. split; [done|]. split; [done|]. split; [done|].
  split; [|done].
  intros k' Hk'.
  assert (Hin : k' ∈ keys s').
  { rewrite Hkeys, elem_of_app, elem_of_set_delete, list_elem_of_singleton.
    destruct (decide (k' = k)); [by right|by left]. }
  split; [done|]. by apply Hsame'.
Qed.

(** X24. The marks of the render function.  The node returned for a cacheable
    child is a new node that becomes [current] and carries
    [COMPONENT_SHOULD_KEEP_ALIVE]; on a cache hit it carries
    [COMPONENT_KEPT_ALIVE] as well, on a miss its flags are otherwise those
    the slot gave it; and when the slot gave it neither flag,
    [resetShapeFlag] gives it back the flags of the slot. *)
Theorem render_marks_child props t s ty k0 f :
  wf s → same_keys s →
  inner_node t = Some (ty, k0, f) →
  ineligible props (child_name s ty) = false →
  exceeds (max props) 1 = false →
  ∃ vnode s2 n2,
    render props (Some [Some t]) s = Ok (RChild (Some (CVNode vnode)), s2) ∧
    vnodes s !! vnode = None ∧ vnodes s2 !! vnode = Some n2 ∧
    current s2 = Some vnode ∧
    Z.land (shapeFlag n2) COMPONENT_SHOULD_KEEP_ALIVE = COMPONENT_SHOULD_KEEP_ALIVE ∧
    (is_Some (map_get (default (KComponent ty) k0) (cache s)) →
     shapeFlag n2 = Z.lor (Z.lor f COMPONENT_KEPT_ALIVE) COMPONENT_SHOULD_KEEP_ALIVE) ∧
    (map_get (default (KComponent ty) k0) (cache s) = None →
     shapeFlag n2 = Z.lor f COMPONENT_SHOULD_KEEP_ALIVE) ∧
    (single_bits → Z.land f keepAliveFlags = 0%Z →
     ∃ s3 n3, resetShapeFlag vnode s2 = Ok s3 ∧
              vnodes s3 !! vnode = Some n3 ∧ shapeFlag n3 = f).
Proof.
  intros Hwf Hsame Hinner Hname Hmax.
  destruct (render_eligible STATEFUL_COMPONENT SUSPENSE COMPONENT_SHOULD_KEEP_ALIVE
              COMPONENT_KEPT_ALIVE parseInt DEV props t s ty k0 f
              Hwf Hsame Hinner Hname Hmax)
    as (vnode & s2 & n2 & Hr & _ & Hcur & _ & _ & _ & Hfresh & Hn2 & Hflag & _).
  set (k := default (KComponent ty) k0) in *.
  exists vnode, s2, n2. split; [done|]. split; [done|]. split; [done|].
  split; [done|].
  assert (Hhit : is_Some (map_get k (cache s)) →
    shapeFlag n2 = Z.lor (Z.lor f COMPONENT_KEPT_ALIVE) COMPONENT_SHOULD_KEEP_ALIVE).
  { intros Hin%Hsame. by rewrite Hflag, decide_True. }
  assert (Hmiss : map_get k (cache s) = None →
    shapeFlag n2 = Z.lor f COMPONENT_SHOULD_KEEP_ALIVE).
  { intros Hnone. rewrite Hflag, decide_False; [done|].
    intros Hin%Hsame. rewrite Hnone in Hin. by destruct Hin. }
  split.
  { rewrite Hflag. apply Z.bits_inj'. intros i Hi.
    rewrite Z.land_spec, Z.lor_spec.
    destruct (Z.testbit COMPONENT_SHOULD_KEEP_ALIVE i);
      by rewrite ?orb_true_r, ?andb_false_r. }
  split; [done|]. split; [done|].
  intros Hbits Hf.
  eexists _, _. split; [by apply resetShapeFlag_ldiff|].
  split; [by simpl; rewrite lookup_insert_eq|]. simpl.
  destruct (cleared_back f Hf) as [Hb1 Hb2].
  destruct (map_get k (cache s)) eqn:Hg.
  - by rewrite Hhit.
  - by rewrite Hmiss.
Qed.

End Setup.

(** *** A keep-alive with two cached components *)

Definition two_components : gmap nat ComponentOptions :=
  {[ 0 := {| name := Some "Foo"; asyncLoader := false; asyncResolved := None |};
     1 := {| name := Some "Bar"; asyncLoader := false; asyncResolved := None |} ]}.

(** The state after [Foo] and then [Bar] have been rendered and mounted
    under the flags [STATEFUL_COMPONENT = 4] and
    [COMPONENT_SHOULD_KEEP_ALIVE = 256]. *)
Definition two_cached : State :=
  {| components := two_components;
     vnodes :=
       {[ 0 := {| type := 0; key := None; shapeFlag := 260; el := Some 0;
                  component := Some 0; ssContent := None |};
          1 := {| type := 1; key := None; shapeFlag := 260; el := Some 1;
                  component := Some 1; ssContent := None |} ]};
     cache := [(KComponent 0, 0); (KComponent 1, 1)];
     keys := [KComponent 0; KComponent 1];
     current := Some 1;
     pendingCacheKey := None;
     subTree := Some 1;
     unmounted := [];
     warnings := [] |}.

Definition max_zero : KeepAliveProps :=
  {| include := None; exclude := None; max := Some (MaxString "0") |}.

Lemma two_cached_wf : wf two_cached.
Proof.
  split; simpl.
  - apply NoDup_cons. split; [|apply NoDup_singleton].
    by intros [=]%list_elem_of_singleton.
  - apply NoDup_cons. split; [|apply NoDup_singleton].
    by intros [=]%list_elem_of_singleton.
  - intros k v. repeat case_decide; intros [= <-]; by eexists.
  - intros c [= <-]. by eexists.
Qed.

Lemma two_cached_same_keys : same_keys two_cached.
Proof.
  intros k. simpl. split.
  - intros [->|[->|?%elem_of_nil]%elem_of_cons]%elem_of_cons; [by eexists..|done].
  - intros [v Hv]. repeat case_decide; simplify_eq/=.
    + apply elem_of_cons. by left.
    + apply elem_of_cons. right. apply elem_of_cons. by left.
Qed.

Lemma flags_single_bits : single_bits 256 512.
Proof. exists 8%Z, 9%Z. repeat split; lia. Qed.

Lemma resetShapeFlag_clears_witness :
  ∃ s', resetShapeFlag 256 512 1 two_cached = Ok s' ∧
        shapeFlag <$> vnodes s' !! 1 = Some 4%Z.
Proof.
  destruct (resetShapeFlag_clears 256 512 1 _ two_cached flags_single_bits eq_refl)
    as (n' & s' & Hr & Hs & _ & _ & _ & Hf & _).
  exists s'. split; [exact Hr|].
  rewrite Hs. simpl. rewrite lookup_insert_eq. simpl. f_equal.
  apply (Hf 4%Z); [reflexivity|left; reflexivity].
Defined.

Lemma on_patterns_changed_exact_witness :
  ∃ s', on_patterns_changed 256 512 include_Foo two_cached = Ok s' ∧
        cache s' = [(KComponent 0, 0)] ∧ keys s' = [KComponent 0].
Proof.
  destruct (on_patterns_changed_exact 256 512 include_Foo two_cached two_cached_wf)
    as (s' & Hr & Hc & Hk & _).
  exists s'. split; [exact Hr|]. split; [exact Hc|exact Hk].
Defined.

Lemma pruneCacheEntry_spec_witness :
  ∃ s', pruneCacheEntry 256 512 (KComponent 0) two_cached = Ok s' ∧
        keys s' = [KComponent 1] ∧ cache s' = [(KComponent 1, 1)] ∧
        unmounted s' = [0].
Proof.
  destruct (pruneCacheEntry_spec 256 512 (KComponent 0) two_cached 0 _
              flags_single_bits eq_refl eq_refl (wf_current _ two_cached_wf))
    as (s' & Hr & Hk & Hc & _ & Hm).
  exists s'. split; [exact Hr|]. split; [exact Hk|]. split; [exact Hc|].
  exact (proj1 (Hm _ eq_refl)).
Defined.

Lemma render_bypasses_witness :
  ∃ out s',
    render 4 128 256 512 decimal true no_props
      (Some [Some (Node 0 None 4); Some (Node 1 None 4)]) two_cached =
      Ok (out, s') ∧
    keys s' = keys two_cached ∧ cache s' = cache two_cached ∧ current s' = None.
Proof.
  destruct (render_bypasses 4 128 256 512 decimal true no_props
              [Some (Node 0 None 4); Some (Node 1 None 4)] two_cached I)
    as (_ & children & s1 & out & s' & _ & Hr & _ & _ & _ & Hk & Hc & _ & Hcur & _).
  exists out, s'. split; [exact Hr|]. split; [exact Hk|]. split; [exact Hc|exact Hcur].
Defined.

Lemma max_below_one_throws_witness :
  render 4 128 256 512 decimal true max_zero (Some [Some (Node 0 None 4)])
    (initial ∅) = TypeError.
Proof.
  refine (proj2 (max_below_one_throws 4 128 256 512 decimal true max_zero 0
                   (Node 0 None 4) (KComponent 0) (initial ∅)
                   eq_refl _ eq_refl eq_refl _)).
  - lia.
  - exists 0, None, 4%Z. repeat split; reflexivity.
Defined.

Lemma no_max_never_evicts_witness :
  ∃ vnode s',
    render_and_cache 4 128 256 512 decimal true no_props
      (Some [Some (Node 0 None 4)]) two_cached =
      Ok (RChild (Some (CVNode vnode)), s') ∧
    keys s' = [KComponent 1; KComponent 0] ∧
    is_Some (map_get (KComponent 1) (cache s')).
Proof.
  destruct (no_max_never_evicts 4 128 256 512 decimal true eq_refl eq_refl no_props
              (Node 0 None 4) (KComponent 0) two_cached eq_refl two_cached_wf
              two_cached_same_keys)
    as (vnode & s' & Hr & Hk & _ & Hall & _).
  - exists 0, None, 4%Z. repeat split; reflexivity.
  - exists vnode, s'. split; [exact Hr|]. split; [exact Hk|].
    apply (Hall (KComponent 1)). apply elem_of_cons. right.
    apply elem_of_cons. by left.
Defined.

Lemma render_marks_child_witness :
  ∃ vnode s2 n2,
    render 4 128 256 512 decimal true no_props (Some [Some (Node 0 None 4)])
      (initial ∅) = Ok (RChild (Some (CVNode vnode)), s2) ∧
    vnodes s2 !! vnode = Some n2 ∧ shapeFlag n2 = 260%Z.
Proof.
  destruct (render_marks_child 4 128 256 512 decimal true no_props (Node 0 None 4)
              (initial ∅) 0 None 4 (wf_initial ∅) (same_keys_initial ∅)
              eq_refl eq_refl eq_refl)
    as (vnode & s2 & n2 & Hr & _ & Hn & _ & _ & _ & Hmiss & _).
  exists vnode, s2, n2. split; [exact Hr|]. split; [exact Hn|].
  exact (Hmiss eq_refl).
Defined.

End KeepAliveLaws.

(** ** Keep-alive: laws of unmounting and of the activation hooks *)

Module KeepAliveLifecycleLaws.
Import KeepAlive KeepAliveTheory KeepAliveLaws KeepAliveLifecycle.

Section Unmount.

Variable SUSPENSE : Z.
Variable COMPONENT_SHOULD_KEEP_ALIVE COMPONENT_KEPT_ALIVE : Z.
Variable da : nat → option (list nat).

Local Abbreviation keepAliveFlags :=
  (keepAliveFlags COMPONENT_SHOULD_KEEP_ALIVE COMPONENT_KEPT_ALIVE).
Local Abbreviation single_bits :=
  (single_bits COMPONENT_SHOULD_KEEP_ALIVE COMPONENT_KEPT_ALIVE).
Local Abbreviation cleared :=
  (cleared COMPONENT_SHOULD_KEEP_ALIVE COMPONENT_KEPT_ALIVE).
Local Abbreviation resetShapeFlag :=
  (resetShapeFlag COMPONENT_SHOULD_KEEP_ALIVE COMPONENT_KEPT_ALIVE).
Local Abbreviation unmount := (unmount COMPONENT_SHOULD_KEEP_ALIVE COMPONENT_KEPT_ALIVE).
Local Abbreviation getInnerChild := (getInnerChild SUSPENSE).
Local Abbreviation beforeUnmount_visit :=
  (beforeUnmount_visit SUSPENSE COMPONENT_SHOULD_KEEP_ALIVE COMPONENT_KEPT_ALIVE da).
Local Abbreviation beforeUnmount_entries :=
  (beforeUnmount_entries SUSPENSE COMPONENT_SHOULD_KEEP_ALIVE COMPONENT_KEPT_ALIVE da).
Local Abbreviation beforeUnmount :=
  (beforeUnmount SUSPENSE COMPONENT_SHOULD_KEEP_ALIVE COMPONENT_KEPT_ALIVE da).

(** Whether a cached node is of the component type of the node [n]. *)
Definition same_type (s : State) (n : VNode) (v : nat) : bool :=
  match vnodes s !! v with
  | Some cn => bool_decide (type cn = type n)
  | None => false
  end.

(** The node whose flags the visit of a cached node resets: the current
    inner child for a cached node of its type, the cached node otherwise. *)
Definition reset_target (s : State) (n : VNode) (vnode v : nat) : nat :=
  if same_type s n v then vnode else v.

(** The deactivated hooks queued by [k] visits. *)
Definition queued_hooks (c : nat) (k : nat) : list (list nat) :=
  match da c with
  | Some hooks => replicate k hooks
  | None => []
  end.

Lemma cleared_cleared n : cleared (cleared n) = cleared n.
Proof.
  unfold KeepAliveLaws.cleared, set_shapeFlag. simpl. f_equal.
  apply Z.bits_inj'. intros i Hi. rewrite !Z.ldiff_spec.
  by destruct (Z.testbit (shapeFlag n) i), (Z.testbit keepAliveFlags i).
Qed.

Lemma cleared_SUSPENSE n :
  Z.land keepAliveFlags SUSPENSE = 0%Z →
  Z.land (shapeFlag (cleared n)) SUSPENSE = Z.land (shapeFlag n) SUSPENSE.
Proof.
  intros H. simpl. apply Z.bits_inj'. intros i Hi.
  apply (f_equal (λ z, Z.testbit z i)) in H.
  rewrite Z.land_spec in H. rewrite Z.bits_0 in H.
  rewrite !Z.land_spec, Z.ldiff_spec.
  destruct (Z.testbit (shapeFlag n) i), (Z.testbit keepAliveFlags i),
    (Z.testbit SUSPENSE i); simpl in *; congruence.
Qed.

(** The nodes of [s1] are those of [s], with the flags cleared of the
    nodes in [seen]. *)
Definition cleared_in (seen : list nat) (s s1 : State) : Prop :=
  ∀ v, vnodes s1 !! v =
       if decide (v ∈ seen) then cleared <$> vnodes s !! v else vnodes s !! v.

Lemma cleared_in_lookup seen s s1 v a :
  Z.land keepAliveFlags SUSPENSE = 0%Z →
  cleared_in seen s s1 →
  vnodes s !! v = Some a →
  ∃ a1, vnodes s1 !! v = Some a1 ∧ cleared a1 = cleared a ∧
        type a1 = type a ∧ component a1 = component a ∧
        ssContent a1 = ssContent a ∧
        Z.land (shapeFlag a1) SUSPENSE = Z.land (shapeFlag a) SUSPENSE.
Proof.
  intros Hs H Ha. specialize (H v). rewrite Ha in H. case_decide.
  - exists (cleared a). split; [done|]. split; [apply cleared_cleared|].
    split; [done|]. split; [done|]. split; [done|]. by apply cleared_SUSPENSE.
  - by exists a.
Qed.

Lemma cleared_in_insert seen s s1 v a :
  cleared_in seen s s1 →
  vnodes s !! v = Some a →
  cleared_in (seen ++ [v]) s (set_vnodes (<[v := cleared a]> (vnodes s1)) s1).
Proof.
  intros H Ha v'. simpl. destruct (decide (v = v')) as [<-|Hne].
  - rewrite lookup_insert_eq, decide_True, Ha; [done|].
    apply elem_of_app. right. by apply list_elem_of_singleton.
  - rewrite lookup_insert_ne by done. rewrite (H v').
    destruct (decide (v' ∈ seen)) as [Hin|Hnin].
    + rewrite decide_True; [done|]. apply elem_of_app. by left.
    + rewrite decide_False; [done|].
      rewrite elem_of_app, list_elem_of_singleton. intros [?|?]; congruence.
Qed.

Lemma getInnerChild_cleared_in seen s s1 st vnode :
  Z.land keepAliveFlags SUSPENSE = 0%Z →
  cleared_in seen s s1 →
  getInnerChild st s = Ok vnode → getInnerChild st s1 = Ok vnode.
Proof.
  intros Hs H. unfold KeepAlive.getInnerChild, get_vnode.
  destruct (vnodes s !! st) as [a|] eqn:Ha; [|done].
  destruct (cleared_in_lookup _ _ _ _ _ Hs H Ha) as (a1 & Ha1 & _ & _ & _ & Hss & Hfl).
  rewrite Ha1. simpl. by rewrite Hss, Hfl.
Qed.

(** The loop of the callback, from any point of the iteration. *)
Lemma beforeUnmount_entries_spec s st vnode n c entries :
  single_bits →
  Z.land keepAliveFlags SUSPENSE = 0%Z →
  getInnerChild st s = Ok vnode →
  vnodes s !! vnode = Some n →
  component n = Some c →
  ∀ seen s1 queued,
    (∀ e, e ∈ entries → valid s e.2) →
    subTree s1 = Some st →
    cleared_in seen s s1 →
    ∃ s',
      beforeUnmount_entries entries (s1, queued) =
        Ok (s', queued ++
                queued_hooks c
                  (length (filter (λ v, same_type s n v = true) entries.*2))) ∧
      keys s' = keys s1 ∧ cache s' = cache s1 ∧ current s' = current s1 ∧
      unmounted s' =
        rev (filter (λ v, same_type s n v = false) entries.*2) ++ unmounted s1 ∧
      cleared_in (seen ++ (reset_target s n vnode <$> entries.*2)) s s'.
Proof.
  intros Hbits Hs Hinner Hn Hc.
  induction entries as [|[k cached] rest IH]; intros seen s1 queued Hvalid Hst Hrel.
  { exists s1. simpl. unfold queued_hooks.
    split; [by destruct (da c); simpl; rewrite app_nil_r|].
    by rewrite app_nil_r. }
  destruct (Hvalid (k, cached)) as [cn Hcn]; [apply elem_of_cons; by left|].
  simpl in Hcn.
  destruct (cleared_in_lookup _ _ _ _ _ Hs Hrel Hcn)
    as (cn1 & Hcn1 & Hccn & Htcn & _).
  destruct (cleared_in_lookup _ _ _ _ _ Hs Hrel Hn)
    as (n1 & Hn1 & Hcn' & Htn & Hcomp & _).
  assert (Hrest : ∀ e, e ∈ rest → valid s e.2).
  { intros e He. apply Hvalid. apply elem_of_cons. by right. }
  cbn [KeepAliveLifecycle.beforeUnmount_entries].
  unfold KeepAliveLifecycle.beforeUnmount_visit. rewrite Hst.
  rewrite (getInnerChild_cleared_in _ _ _ _ _ Hs Hrel Hinner).
  cbn [mbind result_bind].
  rewrite (get_vnode_lookup _ _ _ Hcn1), (get_vnode_lookup _ _ _ Hn1).
  cbn [mbind result_bind]. rewrite Htcn, Htn.
  rewrite !fmap_cons, !filter_cons. cbn [snd].
  unfold reset_target at 1.
  destruct (decide (type cn = type n)) as [Heq|Hne].
  - assert (Hsame : same_type s n cached = true).
    { unfold same_type. rewrite Hcn. by apply bool_decide_eq_true_2. }
    rewrite Hsame.
    rewrite (resetShapeFlag_ldiff _ _ _ _ _ Hbits Hn1).
    cbn [mbind result_bind]. rewrite Hcomp, Hc.
    fold (cleared n1). rewrite Hcn'.
    destruct (IH (seen ++ [vnode])
                (set_vnodes (<[vnode := cleared n]> (vnodes s1)) s1)
                (match da c with
                 | Some hooks => queued ++ [hooks]
                 | None => queued
                 end) Hrest Hst (cleared_in_insert _ _ _ _ _ Hrel Hn))
      as (s' & Hrun & Hk & Hca & Hcur & Hun & Hrel').
    exists s'. rewrite decide_True by done.
    rewrite decide_False by done.
    split.
    { cbn [mret result_ret mbind result_bind]. rewrite Hrun. do 2 f_equal.
      unfold queued_hooks. destruct (da c); [|done].
      cbn [length replicate]. by rewrite <-app_assoc. }
    split; [done|]. split; [done|]. split; [done|]. split; [done|].
    by rewrite <-app_assoc in Hrel'.
  - assert (Hsame : same_type s n cached = false).
    { unfold same_type. rewrite Hcn. by apply bool_decide_eq_false_2. }
    rewrite Hsame.
    unfold KeepAlive.unmount.
    rewrite (resetShapeFlag_ldiff _ _ _ _ _ Hbits Hcn1).
    cbn [mbind result_bind mret result_ret].
    fold (cleared cn1). rewrite Hccn.
    destruct (IH (seen ++ [cached])
                (set_unmounted
                   (cached :: unmounted
                      (set_vnodes (<[cached := cleared cn]> (vnodes s1)) s1))
                   (set_vnodes (<[cached := cleared cn]> (vnodes s1)) s1))
                queued Hrest Hst (cleared_in_insert _ _ _ _ _ Hrel Hcn))
      as (s' & Hrun & Hk & Hca & Hcur & Hun & Hrel').
    exists s'. rewrite decide_False by done.
    rewrite decide_True by done.
    split; [done|]. split; [done|]. split; [done|]. split; [done|].
    split.
    { rewrite Hun. simpl. by rewrite <-app_assoc. }
    by rewrite <-app_assoc in Hrel'.
Qed.

(** X25. Unmounting a keep-alive.  The callback visits the cache in insertion
    order.  A cached node of another component type than the current inner
    child is unmounted, with its keep-alive flags cleared; for a cached
    node of the type of the current inner child nothing is unmounted: the
    flags of the current inner child are cleared, and its deactivated
    hooks, when it has any, are queued, once for each such cached node.
    No other node changes, and [keys] and [cache] are left as they are. *)
Theorem beforeUnmount_spec s st vnode n c :
  single_bits →
  Z.land keepAliveFlags SUSPENSE = 0%Z →
  wf s →
  subTree s = Some st →
  getInnerChild st s = Ok vnode →
  vnodes s !! vnode = Some n →
  component n = Some c →
  ∃ s',
    beforeUnmount s =
      Ok (s', match da c with
              | Some hooks =>
                  replicate
                    (length (filter (λ v, same_type s n v = true) (cache s).*2))
                    hooks
              | None => []
              end) ∧
    keys s' = keys s ∧ cache s' = cache s ∧
    unmounted s' =
      rev (filter (λ v, same_type s n v = false) (cache s).*2) ++ unmounted s ∧
    ∀ v, vnodes s' !! v =
         if decide (v ∈ reset_target s n vnode <$> (cache s).*2)
         then cleared <$> vnodes s !! v
         else vnodes s !! v.
Proof.
  intros Hbits Hs Hwf Hst Hinner Hn Hc.
  destruct (beforeUnmount_entries_spec s st vnode n c (cache s) Hbits Hs Hinner Hn Hc
              [] s [])
    as (s' & Hrun & Hk & Hca & _ & Hun & Hrel).
  - intros [k v] He. apply (wf_cached _ Hwf k). apply map_get_NoDup; [|done].
    apply (wf_cache _ Hwf).
  - done.
  - intros v. by rewrite decide_False by apply not_elem_of_nil.
  - exists s'. split; [exact Hrun|]. done.
Qed.

End Unmount.

(** *** The activation hooks *)

(** Induction along the parents of an instance. *)
Fixpoint instance_parent_ind (P : ComponentInternalInstance → Prop)
    (Hroot : ∀ u b, P (ComponentInstance u b None))
    (Hchild : ∀ u b p, P p → P (ComponentInstance u b (Some p)))
    (i : ComponentInternalInstance) : P i :=
  match i with
  | ComponentInstance u b None => Hroot u b
  | ComponentInstance u b (Some p) => Hchild u b p (instance_parent_ind P Hroot Hchild p)
  end.

(** The instances from an instance up to the root. *)
Fixpoint chain (i : ComponentInternalInstance) : list ComponentInternalInstance :=
  match i with
  | ComponentInstance _ _ (Some p) => i :: chain p
  | ComponentInstance _ _ None => [i]
  end.

(** [instance[type]], empty when there is none. *)
Definition hooks_of (type : LifecycleHooks) (σ : Hooks) (u : nat) : list Hook :=
  default [] (match type with
              | ACTIVATED => a_hooks σ
              | DEACTIVATED => da_hooks σ
              end !! u).

(** The keep-alive roots from an instance upwards: the instances whose
    parent is a keep-alive. *)
Fixpoint roots_from (current : ComponentInternalInstance) :
    list ComponentInternalInstance :=
  match current with
  | ComponentInstance _ _ (Some p) =>
      (if isKeepAlive p then [current] else []) ++ roots_from p
  | ComponentInstance _ _ None => []
  end.

(** The keep-alive roots above a target. *)
Definition keepAliveRoots (target : ComponentInternalInstance) :
    list ComponentInternalInstance :=
  match parent target with
  | Some current => roots_from current
  | None => []
  end.

(** Whether the wrapper of a hook would call it. *)
Definition fires (σ : Hooks) (h : Hook) : bool :=
  match wdc σ !! h with
  | Some (Some t) => not_in_deactivated_branch σ t
  | Some None => true
  | None => false
  end.

(** How often a hook has been called. *)
Definition times_called (h : Hook) (σ : Hooks) : nat :=
  length (filter (λ x, x = h) (calls σ)).

Lemma chain_head t : t ∈ chain t.
Proof. destruct t as [u b [p|]]; simpl; apply elem_of_cons; by left. Qed.

Lemma chain_cons u b p :
  chain (ComponentInstance u b (Some p)) = ComponentInstance u b (Some p) :: chain p.
Proof. done. Qed.

Lemma not_in_deactivated_branch_spec σ t :
  not_in_deactivated_branch σ t = true ↔ ∀ i, i ∈ chain t → uid i ∉ deactivated σ.
Proof.
  induction t as [u b|u b p IH] using instance_parent_ind.
  - simpl. case_decide as Hu.
    + split; [done|]. intros H. exfalso. apply (H (ComponentInstance u b None)); [|done].
      apply elem_of_cons. by left.
    + split; [|done]. intros _ i ->%list_elem_of_singleton. done.
  - rewrite chain_cons. cbn [not_in_deactivated_branch]. case_decide as Hu.
    + split; [done|]. intros H. exfalso.
      apply (H (ComponentInstance u b (Some p))); [|done]. apply elem_of_cons. by left.
    + rewrite IH. split.
      * intros H i [->|Hi]%elem_of_cons; [done|by apply H].
      * intros H i Hi. apply H. apply elem_of_cons. by right.
Qed.

Lemma roots_from_chain current r : r ∈ roots_from current → r ∈ chain current.
Proof.
  induction current as [u b|u b p IH] using instance_parent_ind; simpl.
  - by intros ?%elem_of_nil.
  - intros [Hr|Hr]%elem_of_app.
    + destruct (isKeepAlive p); [|by apply elem_of_nil in Hr].
      apply list_elem_of_singleton in Hr as ->. apply elem_of_cons. by left.
    + apply elem_of_cons. right. by apply IH.
Qed.

Lemma keepAliveRoots_chain t r :
  NoDup (uid <$> chain t) →
  r ∈ keepAliveRoots t → r ∈ chain t ∧ uid r ≠ uid t.
Proof.
  destruct t as [u b [p|]]; unfold keepAliveRoots; simpl;
    [|by intros _ ?%elem_of_nil].
  intros [Hnin _]%NoDup_cons Hr%roots_from_chain.
  split; [apply elem_of_cons; by right|].
  intros E. apply Hnin. simpl. rewrite <-E. apply list_elem_of_fmap. by exists r.
Qed.

(** A call of a wrapper changes nothing but the calls. *)
Lemma call_wdc_spec h σ :
  call_wdc h σ = (if fires σ h then set_calls (h :: calls σ) σ else σ).
Proof.
  unfold call_wdc, fires. destruct (wdc σ !! h) as [[t|]|]; [|done..].
  by destruct (not_in_deactivated_branch σ t).
Qed.

Lemma fires_set_calls l σ h : fires (set_calls l σ) h = fires σ h.
Proof.
  unfold fires. simpl. destruct (wdc σ !! h) as [[t|]|]; [|done..].
  induction t as [u b|u b p IH] using instance_parent_ind; simpl; [done|].
  by rewrite IH.
Qed.

Lemma invokeArrayFns_spec fns σ :
  invokeArrayFns fns σ =
  set_calls (rev (filter (λ h, fires σ h = true) fns) ++ calls σ) σ.
Proof.
  unfold invokeArrayFns. revert σ. induction fns as [|h fns IH]; intros σ.
  { simpl. by destruct σ. }
  cbn [foldl]. rewrite IH, call_wdc_spec, filter_cons.
  destruct (fires σ h) eqn:Hf.
  - rewrite decide_True by done.
    assert (Hfil : filter (λ h0, fires (set_calls (h :: calls σ) σ) h0 = true) fns =
                   filter (λ h0, fires σ h0 = true) fns).
    { apply list_filter_iff. intros h'. by rewrite fires_set_calls. }
    rewrite Hfil. simpl. rewrite <-app_assoc. done.
  - by rewrite decide_False by done.
Qed.

(** What [injectHook] changes. *)
Lemma injectHook_hooks ty h t prepend σ ty' u :
  hooks_of ty' (injectHook ty h (Some t) prepend σ) u =
  if decide (ty' = ty ∧ u = uid t)
  then (if prepend then h :: hooks_of ty' σ u else hooks_of ty' σ u ++ [h])
  else hooks_of ty' σ u.
Proof.
  unfold hooks_of, injectHook.
  destruct ty, ty'; simpl;
    try done;
    (destruct (decide (u = uid t)) as [->|Hne];
     [rewrite lookup_insert_eq, decide_True by done; by destruct prepend
     |rewrite lookup_insert_ne by done; by rewrite decide_False by tauto]).
Qed.

Lemma injectHook_frame ty h t prepend σ :
  wdc (injectHook ty h t prepend σ) = wdc σ ∧
  deactivated (injectHook ty h t prepend σ) = deactivated σ ∧
  calls (injectHook ty h t prepend σ) = calls σ ∧
  cleanups (injectHook ty h t prepend σ) = cleanups σ.
Proof. unfold injectHook. by destruct t, ty. Qed.

Lemma inject_to_roots_frame h ty t current σ :
  wdc (inject_to_roots h ty t current σ) = wdc σ ∧
  deactivated (inject_to_roots h ty t current σ) = deactivated σ ∧
  calls (inject_to_roots h ty t current σ) = calls σ.
Proof.
  revert σ. induction current as [u b|u b p IH] using instance_parent_ind;
    intros σ; [done|].
  cbn [inject_to_roots].
  destruct (IH (if isKeepAlive p
                then injectToKeepAliveRoot h ty t (ComponentInstance u b (Some p)) σ
                else σ)) as (-> & -> & ->).
  destruct (isKeepAlive p); [|done]. unfold injectToKeepAliveRoot.
  by destruct (injectHook_frame ty h (Some (ComponentInstance u b (Some p))) true σ)
    as (? & ? & ? & _).
Qed.

(** The second loop of [registerKeepAliveHook]. *)
Lemma inject_to_roots_spec h ty t current :
  NoDup (uid <$> chain current) →
  ∀ σ,
    wdc (inject_to_roots h ty t current σ) = wdc σ ∧
    deactivated (inject_to_roots h ty t current σ) = deactivated σ ∧
    calls (inject_to_roots h ty t current σ) = calls σ ∧
    cleanups (inject_to_roots h ty t current σ) =
      rev ((λ r, (uid t, ty, uid r, h)) <$> roots_from current) ++ cleanups σ ∧
    ∀ ty' u,
      hooks_of ty' (inject_to_roots h ty t current σ) u =
      if decide (ty' = ty ∧ u ∈ uid <$> roots_from current)
      then h :: hooks_of ty' σ u
      else hooks_of ty' σ u.
Proof.
  induction current as [u b|u b p IH] using instance_parent_ind; intros Hnd σ.
  { simpl. split_and!; try done. intros ty' u'.
    rewrite decide_False; [done|]. intros [_ ?%elem_of_nil]. done. }
  rewrite chain_cons, fmap_cons in Hnd. apply NoDup_cons in Hnd as [Hnin Hnd].
  simpl in Hnin.
  cbn [inject_to_roots roots_from].
  set (cur := ComponentInstance u b (Some p)).
  set (σ1 := if isKeepAlive p then injectToKeepAliveRoot h ty t cur σ else σ).
  destruct (IH Hnd σ1) as (Hw & Hd & Hc & Hcl & Hh).
  assert (Hroots : ∀ r, r ∈ roots_from p → uid r ≠ u).
  { intros r Hr%roots_from_chain E. apply Hnin. rewrite <-E.
    apply list_elem_of_fmap. by exists r. }
  assert (H1 : wdc σ1 = wdc σ ∧ deactivated σ1 = deactivated σ ∧
               calls σ1 = calls σ ∧
               cleanups σ1 =
                 (if isKeepAlive p then [(uid t, ty, u, h)] else []) ++ cleanups σ ∧
               ∀ ty' u',
                 hooks_of ty' σ1 u' =
                 if decide (isKeepAlive p = true ∧ ty' = ty ∧ u' = u)
                 then h :: hooks_of ty' σ u' else hooks_of ty' σ u').
  { subst σ1. destruct (isKeepAlive p).
    - unfold injectToKeepAliveRoot.
      destruct (injectHook_frame ty h (Some cur) true σ) as (Hw1 & Hd1 & Hc1 & Hcl1).
      split; [done|]. split; [done|]. split; [done|].
      split; [by cbn [cleanups set_cleanups]; rewrite Hcl1|].
      intros ty' u'.
      change (hooks_of ty' (set_cleanups ?c ?x) u') with (hooks_of ty' x u').
      rewrite injectHook_hooks. cbn [uid cur].
      destruct (decide (ty' = ty ∧ u' = u)) as [E|E].
      + by rewrite decide_True by tauto.
      + by rewrite decide_False by tauto.
    - by split_and!. }
  destruct H1 as (Hw1 & Hd1 & Hc1 & Hcl1 & Hh1).
  split; [by rewrite Hw|]. split; [by rewrite Hd|]. split; [by rewrite Hc|].
  split.
  { rewrite Hcl, Hcl1, fmap_app, rev_app_distr, <-app_assoc. f_equal.
    by destruct (isKeepAlive p). }
  intros ty' u'. rewrite Hh, Hh1.
  destruct (decide (ty' = ty)) as [->|Hty]; [|by rewrite !decide_False by tauto].
  destruct (decide (u' = u)) as [->|Hu].
  - rewrite (decide_False (P := ty = ty ∧ u ∈ uid <$> roots_from p)).
    2:{ intros [_ (r & Hr & Hin)%list_elem_of_fmap]. by apply (Hroots r). }
    destruct (isKeepAlive p).
    + rewrite decide_True by done. rewrite decide_True; [done|].
      split; [done|]. simpl. apply elem_of_cons. by left.
    + rewrite decide_False by (by intros [? _]). rewrite decide_False; [done|].
      intros [_ (r & Hr & Hin)%list_elem_of_fmap]. by apply (Hroots r).
  - rewrite (decide_False (P := _ ∧ ty = ty ∧ u' = u)) by tauto.
    destruct (decide (u' ∈ uid <$> roots_from p)) as [Hin|Hnin'].
    + rewrite decide_True by done. rewrite decide_True; [done|].
      split; [done|]. rewrite fmap_app. apply elem_of_app. by right.
    + rewrite decide_False by tauto. rewrite decide_False; [done|].
      rewrite fmap_app, elem_of_app. intros [_ [Hin|?]]; [|done].
      destruct (isKeepAlive p); [|by apply elem_of_nil in Hin].
      apply list_elem_of_singleton in Hin. done.
Qed.

Lemma registerKeepAliveHook_facts h ty t σ :
  NoDup (uid <$> chain t) →
  wdc (registerKeepAliveHook h ty (TInstance t) σ) =
    match wdc σ !! h with
    | Some _ => wdc σ
    | None => <[h := Some t]> (wdc σ)
    end ∧
  deactivated (registerKeepAliveHook h ty (TInstance t) σ) = deactivated σ ∧
  calls (registerKeepAliveHook h ty (TInstance t) σ) = calls σ ∧
  cleanups (registerKeepAliveHook h ty (TInstance t) σ) =
    rev ((λ r, (uid t, ty, uid r, h)) <$> keepAliveRoots t) ++ cleanups σ ∧
  ∀ ty' u,
    hooks_of ty' (registerKeepAliveHook h ty (TInstance t) σ) u =
    if decide (ty' = ty)
    then (if decide (u ∈ uid <$> keepAliveRoots t) then [h] else []) ++
         hooks_of ty' σ u ++ (if decide (u = uid t) then [h] else [])
    else hooks_of ty' σ u.
Proof.
  intros Hnd. unfold registerKeepAliveHook, keepAliveRoots.
  set (σ1 := match wdc σ !! h with
             | Some _ => σ
             | None => set_wdc (<[h:=Some t]> (wdc σ)) σ
             end).
  assert (H1 : wdc σ1 = match wdc σ !! h with
                        | Some _ => wdc σ
                        | None => <[h := Some t]> (wdc σ)
                        end ∧
               deactivated σ1 = deactivated σ ∧ calls σ1 = calls σ ∧
               cleanups σ1 = cleanups σ ∧
               ∀ ty' u, hooks_of ty' σ1 u = hooks_of ty' σ u).
  { subst σ1. by destruct (wdc σ !! h). }
  destruct H1 as (Hw1 & Hd1 & Hc1 & Hcl1 & Hh1).
  destruct (injectHook_frame ty h (Some t) false σ1) as (Hw2 & Hd2 & Hc2 & Hcl2).
  pose proof (λ ty' u, injectHook_hooks ty h t false σ1 ty' u) as Hh2.
  destruct t as [u0 b0 [p|]]; cbn [parent].
  - rewrite chain_cons, fmap_cons in Hnd. apply NoDup_cons in Hnd as [Hnin Hnd].
    simpl in Hnin.
    destruct (inject_to_roots_spec h ty (ComponentInstance u0 b0 (Some p)) p Hnd
                (injectHook ty h (Some (ComponentInstance u0 b0 (Some p))) false σ1))
      as (Hw & Hd & Hc & Hcl & Hh).
    split; [by rewrite Hw, Hw2|]. split; [by rewrite Hd, Hd2|].
    split; [by rewrite Hc, Hc2|]. split; [by rewrite Hcl, Hcl2, Hcl1|].
    intros ty' u. rewrite Hh, Hh2, !Hh1. simpl.
    destruct (decide (ty' = ty)) as [->|Hty]; [|by rewrite !decide_False by tauto].
    destruct (decide (u = u0)) as [->|Hu].
    + rewrite decide_False.
      2:{ intros [_ (r & Hr & Hin%roots_from_chain)%list_elem_of_fmap].
          apply Hnin. apply list_elem_of_fmap. by exists r. }
      rewrite decide_True by done.
      rewrite decide_False; [done|].
      intros (r & Hr & Hin%roots_from_chain)%list_elem_of_fmap.
      apply Hnin. apply list_elem_of_fmap. by exists r.
    + rewrite (decide_False (P := ty = ty ∧ u = u0)) by tauto.
      rewrite app_nil_r.
      destruct (decide (u ∈ uid <$> roots_from p)) as [Hin|Hnin'].
      * by rewrite decide_True by done.
      * by rewrite decide_False by tauto.
  - split; [by rewrite Hw2|]. split; [by rewrite Hd2|].
    split; [by rewrite Hc2|]. split; [by rewrite Hcl2, Hcl1|].
    intros ty' u. rewrite Hh2, !Hh1. simpl.
    destruct (decide (ty' = ty)) as [->|Hty]; [|by rewrite !decide_False by tauto].
    destruct (decide (u = u0)) as [->|Hu].
    + by rewrite decide_True by done.
    + rewrite decide_False by tauto. by rewrite app_nil_r.
Qed.

(** X26. Where a hook is registered.  [registerKeepAliveHook] for a target
    calls no hook and deactivates nothing.  It appends the hook to the
    hooks of the target for the type, and puts it in front of the hooks of
    every keep-alive root above the target (the ancestors whose parent is a
    keep-alive), once each; the hooks of no other instance and of the other
    type change.  For every such root it registers one cleanup on the
    target.  The wrapper of the hook is made at the first registration
    only: a hook registered again, for whatever target and type, keeps the
    wrapper, and with it the target, of the first time. *)
Theorem registerKeepAliveHook_sites h ty t σ :
  NoDup (uid <$> chain t) →
  ∃ σ', registerKeepAliveHook h ty (TInstance t) σ = σ' ∧
    wdc σ' !! h = Some (default (Some t) (wdc σ !! h)) ∧
    (∀ h', h' ≠ h → wdc σ' !! h' = wdc σ !! h') ∧
    deactivated σ' = deactivated σ ∧ calls σ' = calls σ ∧
    (∀ u, hooks_of ty σ' u =
          (if decide (u ∈ uid <$> keepAliveRoots t) then [h] else []) ++
          hooks_of ty σ u ++ (if decide (u = uid t) then [h] else [])) ∧
    (∀ ty' u, ty' ≠ ty → hooks_of ty' σ' u = hooks_of ty' σ u) ∧
    cleanups σ' =
      rev ((λ r, (uid t, ty, uid r, h)) <$> keepAliveRoots t) ++ cleanups σ ∧
    (∀ ty' target', wdc (registerKeepAliveHook h ty' target' σ') = wdc σ').
Proof.
  intros Hnd. eexists. split; [reflexivity|].
  destruct (registerKeepAliveHook_facts h ty t σ Hnd) as (Hw & Hd & Hc & Hcl & Hh).
  assert (Hwh : wdc (registerKeepAliveHook h ty (TInstance t) σ) !! h =
                Some (default (Some t) (wdc σ !! h))).
  { rewrite Hw. destruct (wdc σ !! h) as [x|] eqn:E; [done|].
    by rewrite lookup_insert_eq. }
  split; [done|]. split.
  { intros h' Hne. rewrite Hw. destruct (wdc σ !! h); [done|].
    by rewrite lookup_insert_ne. }
  split; [done|]. split; [done|]. split.
  { intros u. by rewrite Hh, decide_True. }
  split.
  { intros ty' u Hne. by rewrite Hh, decide_False. }
  split; [done|].
  intros ty' target'.
  set (σ' := registerKeepAliveHook h ty (TInstance t) σ) in *.
  unfold registerKeepAliveHook. rewrite Hwh.
  set (tg := match target' with
             | TUndefined => currentInstance σ'
             | TNull => None
             | TInstance i => Some i
             end).
  destruct (injectHook_frame ty' h tg false σ') as (Hw2 & _).
  destruct tg as [tg|]; [|done].
  destruct (parent tg) as [cur|]; [|done].
  by destruct (inject_to_roots_frame h ty' tg cur (injectHook ty' h (Some tg) false σ'))
    as (-> & _).
Qed.

Lemma set_calls_id σ : set_calls (calls σ) σ = σ.
Proof. by destruct σ. Qed.

Lemma count_fired (f : Hook → bool) h (l : list Hook) :
  length (filter (λ x, x = h) (rev (filter (λ x, f x = true) l))) =
  if f h then length (filter (λ x, x = h) l) else 0.
Proof.
  rewrite rev_alt. change (rev_append ?l []) with (reverse l).
  rewrite filter_reverse, length_reverse, list_filter_filter.
  destruct (f h) eqn:Hf.
  - f_equal. apply list_filter_iff. intros x. split; [by intros [? _]|].
    intros ->. by split.
  - induction l as [|x l IH]; [done|].
    rewrite filter_cons. case_decide as Hx; [|done].
    destruct Hx as [-> Hx]. congruence.
Qed.

Lemma deactivate_effect_spec r vh σ :
  calls (deactivate_effect r vh σ) =
    rev (filter (λ h, fires σ h = true) (hooks_of DEACTIVATED σ (uid r))) ++ calls σ ∧
  deactivated (deactivate_effect r vh σ) = deactivated σ ∪ {[uid r]} ∧
  wdc (deactivate_effect r vh σ) = wdc σ ∧
  a_hooks (deactivate_effect r vh σ) = a_hooks σ ∧
  da_hooks (deactivate_effect r vh σ) = da_hooks σ.
Proof.
  unfold deactivate_effect, hooks_of.
  destruct (da_hooks σ !! uid r) as [das|]; simpl.
  - rewrite invokeArrayFns_spec. by destruct vh.
  - by destruct vh.
Qed.

Lemma activate_effect_spec r vh σ :
  calls (activate_effect r vh σ) =
    rev (filter (λ h, fires (set_deactivated (deactivated σ ∖ {[uid r]}) σ) h = true)
           (hooks_of ACTIVATED σ (uid r))) ++ calls σ ∧
  deactivated (activate_effect r vh σ) = deactivated σ ∖ {[uid r]} ∧
  wdc (activate_effect r vh σ) = wdc σ ∧
  a_hooks (activate_effect r vh σ) = a_hooks σ ∧
  da_hooks (activate_effect r vh σ) = da_hooks σ.
Proof.
  unfold activate_effect, hooks_of. cbn [a_hooks set_deactivated].
  destruct (a_hooks σ !! uid r) as [a|]; simpl.
  - rewrite invokeArrayFns_spec. by destruct vh.
  - by destruct vh.
Qed.

Lemma fires_target σ h t :
  wdc σ !! h = Some (Some t) →
  (fires σ h = true ↔ ∀ i, i ∈ chain t → uid i ∉ deactivated σ).
Proof. intros Hw. unfold fires. rewrite Hw. apply not_in_deactivated_branch_spec. Qed.

Lemma fires_deactivated σ h t r :
  wdc σ !! h = Some (Some t) → r ∈ chain t → uid r ∈ deactivated σ →
  fires σ h = false.
Proof.
  intros Hw Hr Hd. apply not_true_is_false. rewrite (fires_target _ _ _ Hw).
  intros H. by apply (H r).
Qed.

(** X27. A round of a kept-alive branch.  Two hooks, not registered before, are
    registered for a target with [onDeactivated] and [onActivated]; [r] is
    the target or a keep-alive root above it, and no instance from the
    target up to the root of the tree is deactivated.  Registering calls
    nothing.  The effect of [deactivate] on [r] calls the deactivated hook
    once and then marks [r] deactivated; while [r] is deactivated the
    wrappers of both hooks call nothing, whoever invokes them; the effect
    of [activate] on [r] clears the mark first and then calls the activated
    hook once, leaving the same instances deactivated as at the start. *)
Theorem kept_alive_branch_round hd ha t r vh vh' σ :
  NoDup (uid <$> chain t) →
  r ∈ t :: keepAliveRoots t →
  (∀ i, i ∈ chain t → uid i ∉ deactivated σ) →
  wdc σ !! hd = None → wdc σ !! ha = None → hd ≠ ha →
  hd ∉ hooks_of DEACTIVATED σ (uid r) →
  ha ∉ hooks_of ACTIVATED σ (uid r) →
  ∃ σ1 σ2 σ3,
    onActivated ha (TInstance t) (onDeactivated hd (TInstance t) σ) = σ1 ∧
    deactivate_effect r vh σ1 = σ2 ∧
    activate_effect r vh' σ2 = σ3 ∧
    calls σ1 = calls σ ∧
    times_called hd σ2 = S (times_called hd σ1) ∧
    deactivated σ2 = deactivated σ ∪ {[uid r]} ∧
    call_wdc hd σ2 = σ2 ∧ call_wdc ha σ2 = σ2 ∧
    (∀ fns, (∀ h, h ∈ fns → h = hd ∨ h = ha) → invokeArrayFns fns σ2 = σ2) ∧
    times_called ha σ3 = S (times_called ha σ2) ∧
    deactivated σ3 = deactivated σ.
Proof.
  intros Hnd Hr Hact Hwd Hwa Hne Hd Ha.
  eexists _, _, _. split; [reflexivity|]. split; [reflexivity|].
  split; [reflexivity|].
  unfold onActivated, onDeactivated.
  set (σa := registerKeepAliveHook hd DEACTIVATED (TInstance t) σ).
  set (σ1 := registerKeepAliveHook ha ACTIVATED (TInstance t) σa).
  destruct (registerKeepAliveHook_facts hd DEACTIVATED t σ Hnd)
    as (Hwa1 & Hda1 & Hca1 & _ & Hha1).
  destruct (registerKeepAliveHook_facts ha ACTIVATED t σa Hnd)
    as (Hw1 & Hd1 & Hc1 & _ & Hh1).
  fold σa in Hwa1, Hda1, Hca1, Hha1. fold σ1 in Hw1, Hd1, Hc1, Hh1.
  rewrite Hwd in Hwa1.
  assert (Hwa' : wdc σa !! ha = None).
  { rewrite Hwa1, lookup_insert_ne by done. done. }
  rewrite Hwa' in Hw1.
  assert (Hw1d : wdc σ1 !! hd = Some (Some t)).
  { rewrite Hw1, lookup_insert_ne by done. by rewrite Hwa1, lookup_insert_eq. }
  assert (Hw1a : wdc σ1 !! ha = Some (Some t)).
  { by rewrite Hw1, lookup_insert_eq. }
  assert (Hrc : r ∈ chain t ∧
                ((if decide (uid r ∈ uid <$> keepAliveRoots t) then 1 else 0) +
                 (if decide (uid r = uid t) then 1 else 0) = 1)).
  { apply elem_of_cons in Hr as [->|Hr].
    - split; [apply chain_head|]. rewrite decide_False, decide_True; [done..|].
      intros (r' & E & Hr')%list_elem_of_fmap.
      by destruct (keepAliveRoots_chain t r' Hnd Hr') as [_ ?].
    - destruct (keepAliveRoots_chain t r Hnd Hr) as [Hin Hu].
      split; [done|]. rewrite decide_True, decide_False; [done..|].
      apply list_elem_of_fmap. by exists r. }
  destruct Hrc as [Hrc Hone].
  assert (Hcount : ∀ (h : Hook) (old : list Hook), h ∉ old →
            length (filter (λ x, x = h)
                      ((if decide (uid r ∈ uid <$> keepAliveRoots t) then [h] else []) ++
                       old ++ (if decide (uid r = uid t) then [h] else []))) = 1).
  { intros h old Hold.
    assert (Hz : length (filter (λ x, x = h) old) = 0).
    { induction old as [|x old IH]; [done|].
      apply not_elem_of_cons in Hold as [Hx Hold].
      rewrite filter_cons, decide_False by done. by apply IH. }
    assert (Hh : length (filter (λ x, x = h) [h]) = 1).
    { by rewrite filter_cons, decide_True. }
    rewrite !filter_app, !length_app, Hz. rewrite <-Hone.
    destruct (decide (uid r ∈ uid <$> keepAliveRoots t)),
      (decide (uid r = uid t)); simpl; by rewrite ?Hh. }
  assert (Hda_list : length (filter (λ x, x = hd) (hooks_of DEACTIVATED σ1 (uid r))) = 1).
  { rewrite Hh1, decide_False by done. rewrite Hha1, decide_True by done.
    by apply Hcount. }
  assert (Ha_list : length (filter (λ x, x = ha) (hooks_of ACTIVATED σ1 (uid r))) = 1).
  { rewrite Hh1, decide_True by done.
    apply Hcount. by rewrite Hha1, decide_False. }
  destruct (deactivate_effect_spec r vh σ1) as (Hc2 & Hd2 & Hw2 & Ha2 & Hda2).
  set (σ2 := deactivate_effect r vh σ1) in *.
  destruct (activate_effect_spec r vh' σ2) as (Hc3 & Hd3 & _).
  set (σ3 := activate_effect r vh' σ2) in *.
  assert (Hf1 : fires σ1 hd = true).
  { apply (fires_target _ _ _ Hw1d). intros i Hi. rewrite Hd1, Hda1. by apply Hact. }
  assert (Hsilent : ∀ h, h = hd ∨ h = ha → fires σ2 h = false).
  { intros h Hh. apply (fires_deactivated σ2 h t r); [|done|].
    - rewrite Hw2. by destruct Hh as [->| ->].
    - rewrite Hd2. apply elem_of_union. right. by apply elem_of_singleton. }
  split; [by rewrite Hc1|]. split.
  { unfold times_called. rewrite Hc2, filter_app, length_app.
    rewrite (count_fired (fires σ1)), Hf1, Hda_list. done. }
  split; [by rewrite Hd2, Hd1, Hda1|].
  split; [by rewrite call_wdc_spec, Hsilent by (by left)|].
  split; [by rewrite call_wdc_spec, Hsilent by (by right)|].
  split.
  { intros fns Hfns. rewrite invokeArrayFns_spec.
    assert (Hnil : filter (λ h, fires σ2 h = true) fns = []).
    { induction fns as [|h fns IH]; [done|].
      rewrite filter_cons, decide_False.
      - apply IH. intros h' Hh'. apply Hfns. apply elem_of_cons. by right.
      - rewrite Hsilent; [done|]. apply Hfns. apply elem_of_cons. by left. }
    rewrite Hnil. exact (set_calls_id σ2). }
  assert (Hback : deactivated σ2 ∖ {[uid r]} = deactivated σ).
  { rewrite Hd2, Hd1, Hda1. specialize (Hact r Hrc). apply set_eq. intros x.
    rewrite elem_of_difference, elem_of_union, elem_of_singleton.
    split; [by intros [[?|?] ?]|]. intros Hx. split; [by left|].
    by intros ->. }
  split; [|by rewrite Hd3].
  unfold times_called. rewrite Hc3, filter_app, length_app.
  rewrite (count_fired (fires (set_deactivated (deactivated σ2 ∖ {[uid r]}) σ2))).
  assert (Hf3 : fires (set_deactivated (deactivated σ2 ∖ {[uid r]}) σ2) ha = true).
  { apply (fires_target _ _ t).
    - cbn [wdc set_deactivated]. by rewrite Hw2.
    - intros i Hi. cbn [deactivated set_deactivated]. rewrite Hback.
      by apply Hact. }
  rewrite Hf3.
  assert (Hlist : hooks_of ACTIVATED σ2 (uid r) = hooks_of ACTIVATED σ1 (uid r)).
  { unfold hooks_of. by rewrite Ha2. }
  by rewrite Hlist, Ha_list.
Qed.

(** *** A keep-alive that is unmounted, and a nested component *)

(** The instance [1] has one deactivated hook. *)
Definition bar_hooks (c : nat) : option (list nat) :=
  if decide (c = 1) then Some [7] else None.

Lemma beforeUnmount_spec_witness :
  ∃ s', beforeUnmount 128 256 512 bar_hooks two_cached = Ok (s', [[7]]) ∧
        unmounted s' = [0] ∧ cache s' = cache two_cached.
Proof.
  destruct (beforeUnmount_spec 128 256 512 bar_hooks two_cached 1 1 _ 1
              flags_single_bits eq_refl two_cached_wf eq_refl eq_refl eq_refl eq_refl)
    as (s' & Hr & _ & Hc & Hu & _).
  exists s'. split; [exact Hr|]. split; [exact Hu|exact Hc].
Defined.

(** A keep-alive [0], its child [1] and the child [2] of that one. *)
Definition kept_root : ComponentInternalInstance :=
  ComponentInstance 1 false (Some (ComponentInstance 0 true None)).

Definition nested : ComponentInternalInstance :=
  ComponentInstance 2 false (Some kept_root).

Lemma nested_NoDup : NoDup (uid <$> chain nested).
Proof.
  simpl. apply NoDup_cons. split.
  { intros [[=]|[[=]|[]%elem_of_nil]%elem_of_cons]%elem_of_cons. }
  apply NoDup_cons. split; [|apply NoDup_singleton].
  by intros [=]%list_elem_of_singleton.
Qed.

Lemma registerKeepAliveHook_sites_witness :
  hooks_of DEACTIVATED (registerKeepAliveHook 5 DEACTIVATED (TInstance nested) no_hooks) 2
    = [5] ∧
  hooks_of DEACTIVATED (registerKeepAliveHook 5 DEACTIVATED (TInstance nested) no_hooks) 1
    = [5] ∧
  hooks_of DEACTIVATED (registerKeepAliveHook 5 DEACTIVATED (TInstance nested) no_hooks) 0
    = [].
Proof.
  destruct (registerKeepAliveHook_sites 5 DEACTIVATED nested no_hooks nested_NoDup)
    as (σ' & <- & _ & _ & _ & _ & Hh & _).
  split; [exact (Hh 2)|]. split; [exact (Hh 1)|exact (Hh 0)].
Defined.

Lemma kept_alive_branch_round_witness :
  times_called 5
    (deactivate_effect kept_root false
       (onActivated 6 (TInstance nested)
          (onDeactivated 5 (TInstance nested) no_hooks))) = 1 ∧
  times_called 6
    (activate_effect kept_root false
       (deactivate_effect kept_root false
          (onActivated 6 (TInstance nested)
             (onDeactivated 5 (TInstance nested) no_hooks)))) = 1.
Proof.
  destruct (kept_alive_branch_round 5 6 nested kept_root false false no_hooks
              nested_NoDup)
    as (σ1 & σ2 & σ3 & <- & <- & <- & Hc & Hd & _ & _ & _ & _ & Ha & _).
  - apply elem_of_cons. right. apply elem_of_cons. by left.
  - intros i _. apply not_elem_of_empty.
  - reflexivity.
  - reflexivity.
  - discriminate.
  - apply not_elem_of_nil.
  - apply not_elem_of_nil.
  - split; [exact Hd|exact Ha].
Defined.

End KeepAliveLifecycleLaws.
